(** * Altbox: a placeholder-image worker

    Shallow embedding of [src/util.ts], [src/svg.ts] and [src/index.ts]
    (the last two are stored together in [src/src/index.ts]) and proofs of
    the properties claimed about them.

    Conventions of the embedding.
    - A JavaScript string is a sequence of UTF-16 code units.  This
      development covers the strings whose code units are below 256
      (ASCII and Latin-1) and represents them as [list ascii]; on that
      range [trim], [toLowerCase] and the regular-expression classes
      [\s] and [\d] are modelled exactly.
    - A Number that the program only ever uses as an integer (a result of
      [parseInt], a string length, a line budget) is carried as an integer
      with the special values it can take ([intnum], [budget]); all other
      Numbers are IEEE binary64 values, the primitive [float].
    - A function that can throw returns a [result]. *)

From Stdlib Require Import Ascii String ZArith NArith Lia Bool Floats List.
Import ListNotations.

Set Warnings "-inexact-float".

Local Open Scope Z_scope.

(* ================================================================== *)
(** * Part I: definitions                                              *)
(* ================================================================== *)

(** ** JavaScript strings *)

Definition str := list ascii.

(** A string literal of the source. *)
Definition lit (s : string) : str := list_ascii_of_string s.

Definition code (c : ascii) : Z := Z.of_N (N_of_ascii c).

(** The double quote, and a string between double quotes. *)
Definition dquote : ascii := ascii_of_nat 34.
Definition quoted (s : str) : str := dquote :: s ++ [dquote].
Definition backslash : ascii := ascii_of_nat 92.

Definition isEmpty (s : str) : bool :=
  match s with [] => true | _ :: _ => false end.

Definition str_eqb (a b : str) : bool :=
  if list_eq_dec ascii_dec a b then true else false.

(** [WhiteSpace] and [LineTerminator] code units below 256: TAB, LF, VT,
    FF, CR, SPACE and NO-BREAK SPACE.  [String.prototype.trim], the
    leading-blank skip of [parseInt] and the class [\s] all use this set. *)
Definition isWhiteSpace (c : ascii) : bool :=
  let n := code c in
  ((9 <=? n) && (n <=? 13)) || (n =? 32) || (n =? 160).

(** The class [\d]. *)
Definition isDigit (c : ascii) : bool :=
  let n := code c in (48 <=? n) && (n <=? 57).

(** The class [[0-9a-f]]. *)
Definition isLowerHex (c : ascii) : bool :=
  let n := code c in isDigit c || ((97 <=? n) && (n <=? 102)).

(** The class [[0-9a-f]] under the [i] flag. *)
Definition isHex (c : ascii) : bool :=
  let n := code c in isLowerHex c || ((65 <=? n) && (n <=? 70)).

Fixpoint takeWhile {A} (p : A -> bool) (l : list A) : list A :=
  match l with
  | x :: l' => if p x then x :: takeWhile p l' else []
  | [] => []
  end.

Fixpoint dropWhile {A} (p : A -> bool) (l : list A) : list A :=
  match l with
  | x :: l' => if p x then dropWhile p l' else l
  | [] => []
  end.

Definition trimStart (s : str) : str := dropWhile isWhiteSpace s.
Definition trimEnd (s : str) : str := rev (dropWhile isWhiteSpace (rev s)).

(** [String.prototype.trim]. *)
Definition trim (s : str) : str := trimEnd (trimStart s).

(** [String.prototype.toLowerCase] on code units below 256: the letters
    A-Z and the Latin-1 capitals U+00C0-U+00DE (U+00D7, the multiplication
    sign, apart) move up by 32; every other code unit is unchanged. *)
Definition lowerChar (c : ascii) : ascii :=
  let n := code c in
  if ((65 <=? n) && (n <=? 90)) || ((192 <=? n) && (n <=? 222) && negb (n =? 215))
  then ascii_of_N (Z.to_N (n + 32))
  else c.

Definition toLowerCase (s : str) : str := map lowerChar s.

(** [s.startsWith(p)] and the rest of [s] after [p]. *)
Fixpoint stripPrefix (p s : str) : option str :=
  match p, s with
  | [], _ => Some s
  | a :: p', b :: s' => if ascii_dec a b then stripPrefix p' s' else None
  | _ :: _, [] => None
  end.

Definition startsWith (s p : str) : bool :=
  match stripPrefix p s with Some _ => true | None => false end.

Definition endsWith (s p : str) : bool := startsWith (rev s) (rev p).

(** [parts.join(sep)]. *)
Fixpoint join (sep : str) (parts : list str) : str :=
  match parts with
  | [] => []
  | [p] => p
  | p :: rest => p ++ sep ++ join sep rest
  end.

(** [s.split(c)] for a one-character separator: the pieces between the
    occurrences of [c]; the empty string gives one empty piece. *)
Fixpoint splitOn (c : ascii) (s : str) : list str :=
  match s with
  | [] => [[]]
  | x :: s' =>
      if ascii_dec x c then [] :: splitOn c s'
      else match splitOn c s' with
           | p :: ps => (x :: p) :: ps
           | [] => [[x]]
           end
  end.

(** [s.split(/\s+/)]: the pieces between the maximal runs of white space.
    As in JavaScript a string that starts (or ends) with white space gives
    an empty first (or last) piece. *)
Fixpoint splitWhiteSpace (s : str) : list str :=
  match s with
  | [] => [[]]
  | x :: s' =>
      if isWhiteSpace x then
        match s' with
        | y :: _ => if isWhiteSpace y then splitWhiteSpace s' else [] :: splitWhiteSpace s'
        | [] => [[]; []]
        end
      else match splitWhiteSpace s' with
           | p :: ps => (x :: p) :: ps
           | [] => [[x]]
           end
  end.

(** [s.slice(a, b)] for integer arguments: a negative index counts from
    the end, and both ends are brought into [0, length]. *)
Definition sliceIndex (len : nat) (i : Z) : nat :=
  if i <? 0 then Z.to_nat (Z.max 0 (Z.of_nat len + i))
  else Nat.min len (Z.to_nat i).

Definition slice {A} (l : list A) (a b : Z) : list A :=
  let from := sliceIndex (length l) a in
  let to := sliceIndex (length l) b in
  firstn (to - from) (skipn from l).

(** [s.slice(a)]. *)
Definition sliceFrom {A} (l : list A) (a : Z) : list A :=
  skipn (sliceIndex (length l) a) l.

(** ** Integer-valued Numbers *)

(** A Number that is integral or not finite: the values of [parseInt],
    [Math.floor] and [Math.round].  The sign of a zero is not kept: no use
    in the program tells [-0] from [0]. *)
Inductive intnum : Type :=
| NaNi
| PosInf
| NegInf
| Int (z : Z).

Definition digitValue (c : ascii) : option Z :=
  let n := code c in
  if (48 <=? n) && (n <=? 57) then Some (n - 48)
  else if (97 <=? n) && (n <=? 122) then Some (n - 87)
  else if (65 <=? n) && (n <=? 90) then Some (n - 55)
  else None.

Definition radixDigit (radix : Z) (c : ascii) : option Z :=
  match digitValue c with
  | Some d => if d <? radix then Some d else None
  | None => None
  end.

(** The value of the longest prefix of [s] made of digits of the radix;
    [acc] is the value read so far ([None]: no digit yet). *)
Fixpoint parseDigits (radix : Z) (acc : option Z) (s : str) : option Z :=
  match s with
  | c :: s' =>
      match radixDigit radix c with
      | Some d =>
          parseDigits radix
            (Some (radix * match acc with Some a => a | None => 0 end + d)) s'
      | None => acc
      end
  | [] => acc
  end.

(** The sign that [parseInt] reads, and the rest of the string. *)
Definition readSign (s : str) : Z * str :=
  match s with
  | "-"%char :: t => (-1, t)
  | "+"%char :: t => (1, t)
  | _ => (1, s)
  end.

(** The prefix [0x] or [0X] that [parseInt] skips for radix 16. *)
Definition skipHexPrefix (s : str) : str :=
  match s with
  | "0"%char :: "x"%char :: t => t
  | "0"%char :: "X"%char :: t => t
  | _ => s
  end.

(** [parseInt(s, radix)] for radix 10 or 16: skip leading white space,
    read a sign, (radix 16) skip [0x], read the longest run of digits. *)
Definition parseInt (s : str) (radix : Z) : intnum :=
  let '(sign, s2) := readSign (trimStart s) in
  let s3 := if radix =? 16 then skipHexPrefix s2 else s2 in
  match parseDigits radix None s3 with
  | None => NaNi
  | Some m => Int (sign * m)
  end.

(** ** Errors *)

(** The [Error]s that can be thrown while a request is handled, by
    message: the three that the program throws itself, and the [URIError]
    of [decodeURIComponent], whose message in V8, the engine of the Workers
    runtime, is ['URI malformed']. *)
Inductive error : Type :=
| InvalidDimensions   (* 'Invalid dimensions' *)
| InvalidColor        (* 'Invalid color' *)
| InvalidHexColor     (* 'Invalid hex color' *)
| URIMalformed.       (* 'URI malformed' *)

Definition message (e : error) : str :=
  match e with
  | InvalidDimensions => lit "Invalid dimensions"
  | InvalidColor => lit "Invalid color"
  | InvalidHexColor => lit "Invalid hex color"
  | URIMalformed => lit "URI malformed"
  end.

Inductive result (A : Type) : Type :=
| Ok (a : A)
| Throw (e : error).
Arguments Ok {A} a.
Arguments Throw {A} e.

Definition bind {A B} (r : result A) (k : A -> result B) : result B :=
  match r with
  | Ok a => k a
  | Throw e => Throw e
  end.

Notation "x <- r ;; k" := (bind r (fun x => k))
  (at level 61, r at next level, right associativity).

(** ** util.ts: dimensions *)

Module Dimensions.
Record t : Type := { width : intnum; height : intnum }.
End Dimensions.

Definition MIN_DIMENSION : Z := 1.
Definition MAX_DIMENSION : Z := 8000.

(** [clamp] of util.ts, [Math.min(Math.max(value, min), max)], on an
    integer-valued Number: NaN goes through [Math.max] and [Math.min]. *)
Definition clamp (value : intnum) (min max : Z) : intnum :=
  match value with
  | NaNi => NaNi
  | PosInf => Int max
  | NegInf => Int (Z.min min max)
  | Int v => Int (Z.min (Z.max v min) max)
  end.

(** [value < bound] on an integer-valued Number (false on NaN). *)
Definition intnum_ltb (value : intnum) (bound : Z) : bool :=
  match value with
  | NaNi => false
  | PosInf => false
  | NegInf => true
  | Int v => v <? bound
  end.

(** The regular expression [/^(\d{1,4})x(\d{1,4})$/]: the two groups. *)
Definition matchDims (s : str) : option (str * str) :=
  let g1 := takeWhile isDigit s in
  match dropWhile isDigit s with
  | "x"%char :: g2 =>
      if (1 <=? length g1)%nat && (length g1 <=? 4)%nat
         && (1 <=? length g2)%nat && (length g2 <=? 4)%nat
         && forallb isDigit g2
      then Some (g1, g2) else None
  | _ => None
  end.

Definition parseDims (value : str) : result Dimensions.t :=
  let trimmed := trim value in
  match matchDims trimmed with
  | None => Throw InvalidDimensions
  | Some (m1, m2) =>
      let width := clamp (parseInt m1 10) MIN_DIMENSION MAX_DIMENSION in
      let height := clamp (parseInt m2 10) MIN_DIMENSION MAX_DIMENSION in
      if intnum_ltb width MIN_DIMENSION || intnum_ltb height MIN_DIMENSION
      then Throw InvalidDimensions
      else Ok {| Dimensions.width := width; Dimensions.height := height |}
  end.

(** *** The dimensions token, in the words of the specification *)

(** One to four decimal digits. *)
Definition digits1to4 (d : str) : Prop :=
  (1 <= length d <= 4)%nat /\ Forall (fun c => isDigit c = true) d.

(** The token is [W], a lowercase [x], [H]. *)
Definition dimsToken (token w h : str) : Prop :=
  token = w ++ lit "x" ++ h /\ digits1to4 w /\ digits1to4 h.

(** The number a string of decimal digits denotes. *)
Definition decimal (d : str) : Z :=
  fold_left (fun acc c => 10 * acc + (code c - 48)) d 0.

(** ** Numbers: IEEE binary64 *)

(** The Number nearest to an integer (exact below 2^53). *)
Definition ofZ (z : Z) : float := SF2Prim (binary_normalize prec emax z 0 false).

Definition ofInt (n : intnum) : float :=
  match n with
  | NaNi => nan
  | PosInf => infinity
  | NegInf => neg_infinity
  | Int z => ofZ z
  end.

(** The integer [m * 2^e] rounded down, for a signed mantissa. *)
Definition scaledFloor (m e : Z) : Z :=
  if 0 <=? e then Z.shiftl m e else Z.shiftr m (- e).

(** [Math.floor]. *)
Definition Math_floor (x : float) : intnum :=
  match Prim2SF x with
  | S754_nan => NaNi
  | S754_infinity s => if s then NegInf else PosInf
  | S754_zero _ => Int 0
  | S754_finite s m e => Int (scaledFloor (if s then Zneg m else Zpos m) e)
  end.

(** [Math.round]: the nearest integer, a tie going up. *)
Definition Math_round (x : float) : intnum :=
  match Prim2SF x with
  | S754_nan => NaNi
  | S754_infinity s => if s then NegInf else PosInf
  | S754_zero _ => Int 0
  | S754_finite s m e =>
      let v := if s then Zneg m else Zpos m in
      if 0 <=? e then Int (Z.shiftl v e)
      else Int (Z.shiftr (v + Z.shiftl 1 (- e - 1)) (- e))
  end.

(** [Math.max(a, b)] and [Math.min(a, b)]: NaN if either is NaN, and
    [+0] above [-0]. *)
Definition Math_max (a b : float) : float :=
  if is_nan a || is_nan b then nan
  else if (a <? b)%float then b
  else if (b <? a)%float then a
  else if get_sign a then b else a.

Definition Math_min (a b : float) : float :=
  if is_nan a || is_nan b then nan
  else if (a <? b)%float then a
  else if (b <? a)%float then b
  else if get_sign a then a else b.

(** [Math.max(a, x)] for an integer [a] and an integral [x]. *)
Definition intMax (a : Z) (x : intnum) : intnum :=
  match x with
  | NaNi => NaNi
  | PosInf => PosInf
  | NegInf => Int a
  | Int z => Int (Z.max a z)
  end.

(** [clamp] of util.ts on an arbitrary Number. *)
Definition clampF (value min max : float) : float :=
  Math_min (Math_max value min) max.

(** The remainder [n % d]: exact, with the sign of the dividend. *)
Definition float_rem (n d : float) : float :=
  match Prim2SF n, Prim2SF d with
  | S754_nan, _ | _, S754_nan => nan
  | S754_infinity _, _ => nan
  | _, S754_zero _ => nan
  | _, S754_infinity _ => n
  | S754_zero _, _ => n
  | S754_finite sn mn en, S754_finite _ md ed =>
      let e := Z.min en ed in
      let N := Z.shiftl (Zpos mn) (en - e) in
      let D := Z.shiftl (Zpos md) (ed - e) in
      let R := N mod D in
      SF2Prim (binary_normalize prec emax (if sn then - R else R) e sn)
  end.

(** ** Bytes, UTF-8 and SHA-256 *)

(** [new TextEncoder().encode(value)]: the UTF-8 bytes of a string of
    code units below 256. *)
Definition utf8Encode (value : str) : list Z :=
  flat_map (fun c =>
              let n := code c in
              if n <? 128 then [n]
              else [Z.lor 192 (Z.shiftr n 6); Z.lor 128 (Z.land n 63)])
           value.

(** The [n] low bytes of [x], the most significant first. *)
Fixpoint bigEndian (n : nat) (x : Z) : list Z :=
  match n with
  | O => []
  | S n' => (Z.shiftr x (8 * Z.of_nat n')) mod 256 :: bigEndian n' x
  end.

(** SHA-256 as in FIPS 180-4, which [crypto.subtle.digest('SHA-256', _)]
    computes; words are integers below 2^32. *)
Definition w32 (x : Z) : Z := x mod 4294967296.

Definition rotr (n x : Z) : Z := Z.lor (Z.shiftr x n) (w32 (Z.shiftl x (32 - n))).

Definition sha_K : list Z :=
  [ 1116352408; 1899447441; 3049323471; 3921009573; 961987163; 1508970993;
    2453635748; 2870763221; 3624381080; 310598401; 607225278; 1426881987;
    1925078388; 2162078206; 2614888103; 3248222580; 3835390401; 4022224774;
    264347078; 604807628; 770255983; 1249150122; 1555081692; 1996064986;
    2554220882; 2821834349; 2952996808; 3210313671; 3336571891; 3584528711;
    113926993; 338241895; 666307205; 773529912; 1294757372; 1396182291;
    1695183700; 1986661051; 2177026350; 2456956037; 2730485921; 2820302411;
    3259730800; 3345764771; 3516065817; 3600352804; 4094571909; 275423344;
    430227734; 506948616; 659060556; 883997877; 958139571; 1322822218;
    1537002063; 1747873779; 1955562222; 2024104815; 2227730452; 2361852424;
    2428436474; 2756734187; 3204031479; 3329325298 ].

Definition sha_state : Type := Z * Z * Z * Z * Z * Z * Z * Z.

Definition sha_H0 : sha_state :=
  (1779033703, 3144134277, 1013904242, 2773480762,
   1359893119, 2600822924, 528734635, 1541459225).

Definition sha_pad (msg : list Z) : list Z :=
  let len := Z.of_nat (length msg) in
  msg ++ [128] ++ repeat 0 (Z.to_nat ((55 - len) mod 64)) ++ bigEndian 8 (8 * len).

(** The big-endian words of a list of bytes. *)
Fixpoint sha_words (fuel : nat) (bytes : list Z) : list Z :=
  match fuel, bytes with
  | S fuel', b0 :: b1 :: b2 :: b3 :: rest =>
      (((b0 * 256 + b1) * 256 + b2) * 256 + b3) :: sha_words fuel' rest
  | _, _ => []
  end.

(** The message schedule: [n] more words after the ones in [w]. *)
Fixpoint sha_schedule (n : nat) (w : list Z) : list Z :=
  match n with
  | O => w
  | S n' =>
      let j := length w in
      let w15 := nth (j - 15) w 0 in
      let w2 := nth (j - 2) w 0 in
      let s0 := Z.lxor (Z.lxor (rotr 7 w15) (rotr 18 w15)) (Z.shiftr w15 3) in
      let s1 := Z.lxor (Z.lxor (rotr 17 w2) (rotr 19 w2)) (Z.shiftr w2 10) in
      sha_schedule n' (w ++ [w32 (nth (j - 16) w 0 + s0 + nth (j - 7) w 0 + s1)])
  end.

Definition sha_round (st : sha_state) (kw : Z * Z) : sha_state :=
  let '(a, b, c, d, e, f, g, h) := st in
  let '(k, w) := kw in
  let S1 := Z.lxor (Z.lxor (rotr 6 e) (rotr 11 e)) (rotr 25 e) in
  let ch := Z.lxor (Z.land e f) (Z.land (Z.lxor e 4294967295) g) in
  let t1 := w32 (h + S1 + ch + k + w) in
  let S0 := Z.lxor (Z.lxor (rotr 2 a) (rotr 13 a)) (rotr 22 a) in
  let maj := Z.lxor (Z.lxor (Z.land a b) (Z.land a c)) (Z.land b c) in
  let t2 := w32 (S0 + maj) in
  (w32 (t1 + t2), a, b, c, w32 (d + t1), e, f, g).

Definition sha_block (st : sha_state) (block : list Z) : sha_state :=
  let w := sha_schedule 48 (sha_words 16 block) in
  let '(a, b, c, d, e, f, g, h) := fold_left sha_round (combine sha_K w) st in
  let '(a0, b0, c0, d0, e0, f0, g0, h0) := st in
  (w32 (a0 + a), w32 (b0 + b), w32 (c0 + c), w32 (d0 + d),
   w32 (e0 + e), w32 (f0 + f), w32 (g0 + g), w32 (h0 + h)).

Fixpoint sha_blocks (fuel : nat) (st : sha_state) (msg : list Z) : sha_state :=
  match fuel, msg with
  | S fuel', _ :: _ => sha_blocks fuel' (sha_block st (firstn 64 msg)) (skipn 64 msg)
  | _, _ => st
  end.

(** The 32 bytes of the digest. *)
Definition sha256 (msg : list Z) : list Z :=
  let padded := sha_pad msg in
  let '(a, b, c, d, e, f, g, h) := sha_blocks (length padded) sha_H0 padded in
  flat_map (bigEndian 4) [a; b; c; d; e; f; g; h].

Definition hexDigit (d : Z) : ascii :=
  ascii_of_N (Z.to_N (if d <? 10 then 48 + d else 87 + d)).

(** [s.padStart(n, '0')]. *)
Definition padStart0 (n : nat) (s : str) : str := repeat "0"%char (n - length s) ++ s.

(** [byte.toString(16).padStart(2, '0')] for an element of a
    [Uint8Array], a number from 0 to 255. *)
Definition hexByte (byte : Z) : str :=
  let digits := (if byte <? 16 then [] else [hexDigit (byte / 16)]) ++ [hexDigit (byte mod 16)] in
  padStart0 2 digits.

(** ** Records of svg.ts and index.ts *)

Module Align.
Inductive t : Type := center | left | right.
End Align.

(** An absent optional field is [None]. *)
Module SvgOptions.
Record t : Type := {
  width : float;
  height : float;
  background : str;
  foreground : str;
  text : option str;
  fontFamily : option str;
  fontSize : float;
  fontWeight : option str;
  pad : float;
  align : Align.t;
  wrap : bool;
  scale : option float;
  radius : option float;
  stroke : option str;
  strokeWidth : option float;
  shadow : option bool
}.
End SvgOptions.

Module TextOptions.
Record t : Type := {
  x : float;
  yStart : float;
  lineHeight : float;
  fill : str;
  anchor : str;
  fontFamily : str;
  fontSize : float;
  fontWeight : option str
}.
End TextOptions.

Module RectOptions.
Record t : Type := {
  width : float;
  height : float;
  background : str;
  radius : float;
  stroke : option str;
  strokeWidth : float;
  shadow : bool
}.
End RectOptions.

(** [URLSearchParams]: the pairs of the query string, in order. *)
Definition URLSearchParams : Type := list (str * str).

Module RenderOptions.
Record t : Type := {
  width : float;
  height : float;
  background : str;
  foreground : str;
  scale : float;
  searchParams : URLSearchParams
}.
End RenderOptions.

(** A request: its method, the [pathname] and the [searchParams] of
    [new URL(request.url)], and the header list of [request.headers], in
    which a name can come more than once. *)
Module Request.
Record t : Type := {
  method : str;
  pathname : str;
  searchParams : URLSearchParams;
  headers : list (str * str)
}.
End Request.

Module Response.
Record t : Type := {
  status : Z;
  headers : list (str * str);
  body : option str
}.
End Response.

(** The object given to [JSON.stringify] in [renderSvg]: the resolved
    configuration of a render. *)
Module RenderConfig.
Record t : Type := {
  width : float;
  height : float;
  background : str;
  foreground : str;
  text : str;
  fontFamily : option str;
  fontSize : float;
  pad : float;
  fontWeight : option str;
  align : Align.t;
  wrap : bool;
  scale : float;
  radius : float;
  stroke : option str;
  strokeWidth : option float;
  shadow : bool
}.
End RenderConfig.

(** The values that occur in that object. *)
Inductive JSONValue : Type :=
| JNumber (x : float)
| JString (s : str)
| JBoolean (b : bool).

(** A value that is false in a condition: an absent or empty string, and
    the Numbers 0 and NaN. *)
Definition truthy (s : option str) : bool :=
  match s with
  | Some (_ :: _) => true
  | _ => false
  end.

Definition truthyNumber (x : float) : bool := negb (is_nan x || is_zero x).

(** [array.map((x, index) => f(x, index))]. *)
Fixpoint mapi_from {A B} (f : A -> nat -> B) (i : nat) (l : list A) : list B :=
  match l with
  | [] => []
  | a :: l' => f a i :: mapi_from f (S i) l'
  end.
Definition mapi {A B} (f : A -> nat -> B) (l : list A) : list B := mapi_from f 0 l.

(** [strings.filter(Boolean).join(sep)]. *)
Definition joinTruthy (sep : str) (parts : list str) : str :=
  join sep (filter (fun s => negb (isEmpty s)) parts).

(** ** Instances of the parameters, for the examples *)

(** A table with the two names the tests of the repository use. *)
Definition sampleColors (name : str) : option str :=
  if str_eqb name (lit "red") then Some (lit "#ff0000")
  else if str_eqb name (lit "yellow") then Some (lit "#ffff00")
  else None.

(** A reader of plain decimal literals (sign, digits, fraction), standing
    for [parseFloat] in the examples. *)
Definition readDecimal (s : str) : float :=
  let s1 := trimStart s in
  let '(negative, s2) :=
    match s1 with
    | "-"%char :: t => (true, t)
    | "+"%char :: t => (false, t)
    | _ => (false, s1)
    end in
  let whole := takeWhile isDigit s2 in
  let fraction :=
    match dropWhile isDigit s2 with
    | "."%char :: r => takeWhile isDigit r
    | _ => []
    end in
  match whole ++ fraction with
  | [] => nan
  | ds =>
      let v := (ofZ (decimal ds) / ofZ (10 ^ Z.of_nat (length fraction)))%float in
      if negative then (- v)%float else v
  end.

(** The power [base^2.4] as the fifth root of [base^12], by Newton's
    iteration from 1, for a base in [0, 1]; it stands for [Math.pow] in
    the examples. *)
Fixpoint fifthRoot (rounds : nat) (a y : float) : float :=
  match rounds with
  | O => y
  | S r => fifthRoot r a ((4 * y + a / (y * y * y * y)) / 5)%float
  end.

Definition approxPow (base exponent : float) : float :=
  let b2 := (base * base)%float in
  let b4 := (b2 * b2)%float in
  let a := (b4 * b4 * b4)%float in
  if is_zero a then 0%float else fifthRoot 80 a 1.

(** A printer of the exact decimal value of a Number; on the integers
    below 10^21 it prints what [Number::toString] prints.  It stands for
    the conversion of a Number to a string in the examples. *)
Fixpoint decimalDigits (fuel : nat) (n : Z) (acc : str) : str :=
  match fuel with
  | O => acc
  | S fuel' =>
      let acc' := ascii_of_N (Z.to_N (48 + n mod 10)) :: acc in
      if n <? 10 then acc' else decimalDigits fuel' (n / 10) acc'
  end.

Definition printZ (n : Z) : str := decimalDigits (S (Z.to_nat (Z.log2 n))) n [].

Fixpoint fractionDigits (fuel : nat) (numerator denominator : Z) : str :=
  match fuel with
  | O => []
  | S fuel' =>
      if numerator =? 0 then []
      else ascii_of_N (Z.to_N (48 + (10 * numerator) / denominator))
           :: fractionDigits fuel' ((10 * numerator) mod denominator) denominator
  end.

Definition printNumber (x : float) : str :=
  match Prim2SF x with
  | S754_nan => lit "NaN"
  | S754_infinity s => if s then lit "-Infinity" else lit "Infinity"
  | S754_zero _ => lit "0"
  | S754_finite s m e =>
      (if s then lit "-" else [])
      ++ (if 0 <=? e then printZ (Z.shiftl (Zpos m) e)
          else
            let denominator := Z.shiftl 1 (- e) in
            let whole := Zpos m / denominator in
            let rest := Zpos m mod denominator in
            printZ whole
            ++ (if rest =? 0 then []
                else lit "." ++ fractionDigits (Z.to_nat (- e)) rest denominator))
  end.

(** A decoder of the escapes [%00] to [%7F], standing for
    [decodeURIComponent] in the examples: it is exact on the strings whose
    escapes are all of that range, and it rejects every other [%]. *)
Fixpoint percentDecode (s : str) : option str :=
  match s with
  | [] => Some []
  | c :: rest =>
      if ascii_dec c "%"%char then
        match rest with
        | a :: b :: rest' =>
            match digitValue a, digitValue b with
            | Some x, Some y =>
                if (x <? 8) && (y <? 16)
                then option_map (cons (ascii_of_N (Z.to_N (16 * x + y))))
                       (percentDecode rest')
                else None
            | _, _ => None
            end
        | _ => None
        end
      else option_map (cons c) (percentDecode rest)
  end.

(** [haystack.includes(needle)]. *)
Fixpoint includes (haystack needle : str) : bool :=
  startsWith haystack needle
  || match haystack with
     | [] => false
     | _ :: rest => includes rest needle
     end.

(** A literal of the examples in which each apostrophe stands for a
    double quote. *)
Definition markup (s : string) : str :=
  map (fun c => if ascii_dec c "'"%char then dquote else c) (lit s).

(** A GET request without headers, as the tests of the repository make. *)
Definition get (pathname : str) (searchParams : list (str * str)) : Request.t :=
  {| Request.method := lit "GET"; Request.pathname := pathname;
     Request.searchParams := searchParams; Request.headers := [] |}.

(** ** The program *)

Section Altbox.

(** Modelled from the spec: [CSS_COLORS] of [src/colors.ts], which is not
    among the sources: "a fixed named-color table (CSS-style names)" that
    gives each name "its hex equivalent".  The table is a parameter;
    [CSS_COLORS name] is what [name in CSS_COLORS] and [CSS_COLORS[name]]
    find for the keys of the table itself. *)
Variable CSS_COLORS : str -> option str.

(** Built-ins of the JavaScript engine that the program calls and that
    are not restated here: [parseFloat], [Math.pow], the conversion of a
    Number to a string, and [decodeURIComponent], which gives [None] where
    it throws its [URIError]. *)
Variable parseFloat : str -> float.
Variable Math_pow : float -> float -> float.
Variable Number_toString : float -> str.
Variable decodeURIComponent : str -> option str.

(** *** util.ts: colors *)

(** The regular expression [/^#([0-9a-f]{3}|[0-9a-f]{6})$/]: group 1. *)
Definition matchHex (s : str) : option str :=
  match s with
  | "#"%char :: v =>
      if forallb isLowerHex v && ((length v =? 3)%nat || (length v =? 6)%nat)
      then Some v else None
  | _ => None
  end.

Definition notClosing (c : ascii) : bool :=
  if ascii_dec c ")"%char then false else true.

(** The regular expressions [/^rgba?\(\s*([^)]+)\s*\)$/] and
    [/^hsla?\(\s*([^)]+)\s*\)$/], by the name they start with: group 1.
    After the name, an optional [a] and the opening parenthesis, the first
    [)] must be the last character and must not come at once.  The greedy
    [\s*] takes the leading white space, but gives one character back when
    nothing else is left for the group; the group takes all the rest. *)
Definition matchFunctional (name s : str) : option str :=
  match stripPrefix name s with
  | None => None
  | Some r =>
      let body :=
        match r with
        | "a"%char :: "("%char :: t => Some t
        | "("%char :: t => Some t
        | _ => None
        end in
      match body with
      | None => None
      | Some b =>
          let content := takeWhile notClosing b in
          match dropWhile notClosing b with
          | [")"%char] =>
              match dropWhile isWhiteSpace content with
              | [] => match rev content with
                      | c :: _ => Some [c]
                      | [] => None
                      end
              | g => Some g
              end
          | _ => None
          end
      end
  end.

(** [value.split('').map((char) => char + char).join('')]. *)
Definition expandHex (value : str) : str := flat_map (fun c => [c; c]) value.

(** [group.split(',').map((part) => part.trim()).join(', ')]. *)
Definition joinComponents (group : str) : str :=
  join (lit ", ") (map trim (splitOn ","%char group)).

Definition parseColor (input : str) : result str :=
  let normalized := toLowerCase (trim input) in
  match normalized with
  | [] => Throw InvalidColor
  | _ :: _ =>
  if str_eqb normalized (lit "t") || str_eqb normalized (lit "transparent")
  then Ok (lit "transparent")
  else
  match CSS_COLORS normalized with
  | Some hex => Ok hex
  | None =>
  match matchHex normalized with
  | Some value =>
      if (length value =? 3)%nat then Ok (lit "#" ++ expandHex value)
      else Ok (lit "#" ++ value)
  | None =>
  match matchFunctional (lit "rgb") normalized with
  | Some group =>
      let components := joinComponents group in
      if startsWith normalized (lit "rgba")
      then Ok (lit "rgba(" ++ components ++ lit ")")
      else Ok (lit "rgb(" ++ components ++ lit ")")
  | None =>
  match matchFunctional (lit "hsl") normalized with
  | Some group =>
      let components := joinComponents group in
      if startsWith normalized (lit "hsla")
      then Ok (lit "hsla(" ++ components ++ lit ")")
      else Ok (lit "hsl(" ++ components ++ lit ")")
  | None => Throw InvalidColor
  end end end end
  end.

(** *** util.ts: luminance and contrast *)

(** The regular expression [/^#([0-9a-f]{3}|[0-9a-f]{6})$/i]: group 1. *)
Definition matchHexI (s : str) : option str :=
  match s with
  | "#"%char :: v =>
      if forallb isHex v && ((length v =? 3)%nat || (length v =? 6)%nat)
      then Some v else None
  | _ => None
  end.

Definition normalizeHex (value : str) : result str :=
  match matchHexI value with
  | None => Throw InvalidHexColor
  | Some g =>
      if (length g =? 3)%nat then Ok (lit "#" ++ toLowerCase (expandHex g))
      else Ok (toLowerCase value)
  end.

Definition rgb : Type := intnum * intnum * intnum.

Definition hexToRgb (hex : str) : result rgb :=
  normalized <- normalizeHex hex ;;
  let value := sliceFrom normalized 1 in
  let r := parseInt (slice value 0 2) 16 in
  let g := parseInt (slice value 2 4) 16 in
  let b := parseInt (slice value 4 6) 16 in
  Ok (r, g, b).

(** [value.slice(0, -1)]. *)
Definition dropLast (value : str) : str := slice value 0 (-1).

Definition parseRgbPart (value : str) : option intnum :=
  if endsWith value (lit "%") then
    let percent := parseFloat (dropLast value) in
    if is_nan percent then None
    else Some (clamp (Math_round ((percent / 100) * 255)%float) 0 255)
  else
    let numeric := parseInt value 10 in
    match numeric with
    | NaNi => None
    | _ => Some (clamp numeric 0 255)
    end.

Definition parsePercentage (value : str) : float :=
  if negb (endsWith value (lit "%")) then nan
  else
    let numeric := parseFloat (dropLast value) in
    if is_nan numeric then nan
    else clampF (numeric / 100)%float 0%float 1%float.

Definition hueToRgb (p q t : float) : float :=
  let temp := t in
  let temp := if (temp <? 0)%float then (temp + 1)%float else temp in
  let temp := if (1 <? temp)%float then (temp - 1)%float else temp in
  if (temp <? 1 / 6)%float then (p + (q - p) * 6 * temp)%float
  else if (temp <? 1 / 2)%float then q
  else if (temp <? 2 / 3)%float then (p + (q - p) * (2 / 3 - temp) * 6)%float
  else p.

Definition hslToRgb (hDegrees s l : float) : rgb :=
  let h := (float_rem (float_rem hDegrees 360 + 360) 360 / 360)%float in
  if (s =? 0)%float then
    let gray := Math_round (l * 255)%float in
    (gray, gray, gray)
  else
    let q := if (l <? 0.5)%float then (l * (1 + s))%float else (l + s - l * s)%float in
    let p := (2 * l - q)%float in
    let r := hueToRgb p q (h + 1 / 3)%float in
    let g := hueToRgb p q h in
    let b := hueToRgb p q (h - 1 / 3)%float in
    (Math_round (r * 255)%float, Math_round (g * 255)%float, Math_round (b * 255)%float).

(** [colorToRgb]: [Ok None] is the source's [null]. *)
Definition colorToRgb (color : str) : result (option rgb) :=
  let trimmed := toLowerCase (trim color) in
  if str_eqb trimmed (lit "transparent") then Ok None
  else
  match matchHex trimmed with
  | Some _ => c <- hexToRgb trimmed ;; Ok (Some c)
  | None =>
  match matchFunctional (lit "rgb") trimmed with
  | Some group =>
      let parts := map trim (splitOn ","%char group) in
      match map parseRgbPart (slice parts 0 3) with
      | [Some r; Some g; Some b] => Ok (Some (r, g, b))
      | _ => Ok None
      end
  | None =>
  match matchFunctional (lit "hsl") trimmed with
  | Some group =>
      let parts := map trim (splitOn ","%char group) in
      match parts with
      | p0 :: p1 :: p2 :: _ =>
          let h := parseFloat p0 in
          let s := parsePercentage p1 in
          let l := parsePercentage p2 in
          if is_nan h || is_nan s || is_nan l then Ok None
          else Ok (Some (hslToRgb h s l))
      | _ => Ok None
      end
  | None =>
  match CSS_COLORS trimmed with
  | Some hex => c <- hexToRgb hex ;; Ok (Some c)
  | None => Ok None
  end end end end.

(** The linear value of one channel, [0.03928] and [2.4] as in the source. *)
Definition linearChannel (channel : intnum) : float :=
  let scaled := (ofInt channel / 255)%float in
  if (scaled <=? 0.03928)%float then (scaled / 12.92)%float
  else Math_pow ((scaled + 0.055) / 1.055)%float 2.4%float.

Definition rgbToLuminance (c : rgb) : float :=
  let '(r, g, b) := c in
  let channels := map linearChannel [r; g; b] in
  (0.2126 * nth 0 channels nan + 0.7152 * nth 1 channels nan
   + 0.0722 * nth 2 channels nan)%float.

Definition relativeLuminance (hex : str) : result float :=
  c <- hexToRgb hex ;; Ok (rgbToLuminance c).

Definition autoContrast (bg : str) : result str :=
  if str_eqb bg (lit "transparent") then Ok (lit "#111111")
  else
    c <- colorToRgb bg ;;
    match c with
    | None => Ok (lit "#111111")
    | Some c =>
        let luminance := rgbToLuminance c in
        if (0.55 <? luminance)%float then Ok (lit "#111111") else Ok (lit "#ffffff")
    end.

(** *** util.ts: escaping *)

(** [value.replace(/c/g, by)] for a one-character pattern. *)
Definition replaceAll (c : ascii) (by_ : str) (value : str) : str :=
  flat_map (fun x => if ascii_dec x c then by_ else [x]) value.

Definition escapeXML (value : str) : str :=
  replaceAll "'"%char (lit "&#39;")
    (replaceAll dquote (lit "&quot;")
      (replaceAll ">"%char (lit "&gt;")
        (replaceAll "<"%char (lit "&lt;")
          (replaceAll "&"%char (lit "&amp;") value)))).

(** *** util.ts: text wrapping *)

(** The value of [Math.max(1, Math.floor(maxWidth / widthPerChar))]:
    NaN, [+Infinity] or an integer that is at least 1. *)
Inductive budget : Type :=
| BNaN
| BInf
| BChars (n : positive).

Definition charsPerLineOf (maxWidth fontSize : float) : budget :=
  let widthPerChar := (fontSize * 0.6)%float in
  match Math_floor (maxWidth / widthPerChar)%float with
  | NaNi => BNaN
  | PosInf => BInf
  | NegInf => BChars 1
  | Int z => BChars (Z.to_pos (Z.max 1 z))
  end.

(** [len <= b] and [len > b] for a length and a budget. *)
Definition withinBudget (len : nat) (b : budget) : bool :=
  match b with
  | BNaN => false
  | BInf => true
  | BChars n => (len <=? Pos.to_nat n)%nat
  end.

Definition overBudget (len : nat) (b : budget) : bool :=
  match b with
  | BNaN => false
  | BInf => false
  | BChars n => (Pos.to_nat n <? len)%nat
  end.

(** The loop of [chunkWord]; [fuel] bounds the number of rounds. *)
Fixpoint chunkLoop (fuel : nat) (word : str) (size index : nat)
    (result : list str) : list str :=
  match fuel with
  | O => result
  | S fuel' =>
      if (index <? length word)%nat
      then chunkLoop fuel' word size (index + size)
             (result ++ [slice word (Z.of_nat index) (Z.of_nat (index + size))])
      else result
  end.

(** [chunkWord]: every round moves [index] by [size >= 1], so
    [length word] rounds are enough ([chunkLoop_fuel]). *)
Definition chunkWord (word : str) (size : positive) : list str :=
  chunkLoop (length word) word (Pos.to_nat size) 0 [].

(** The closure [pushCurrent] on the pair [(lines, current)]. *)
Definition pushCurrent (st : list str * str) : list str * str :=
  let '(lines, current) := st in
  if isEmpty current then (lines, current) else (lines ++ [current], []).

(** One round of the loop over the words. *)
Definition wrapStep (charsPerLine : budget) (st : list str * str) (word : str)
    : list str * str :=
  if overBudget (length word) charsPerLine then
    let '(lines, current) := pushCurrent st in
    let segments :=
      match charsPerLine with
      | BChars n => chunkWord word n
      | _ => []
      end in
    (lines ++ segments, current)
  else
    let '(lines, current) := st in
    let candidate := if isEmpty current then word else current ++ lit " " ++ word in
    if withinBudget (length candidate) charsPerLine then (lines, candidate)
    else let '(lines', _) := pushCurrent st in (lines', word).

(** ['.'.repeat(n)]. *)
Definition dots (n : nat) : str := repeat "."%char n.

Definition collapseWithEllipsis (text : str) (maxChars : budget) : str :=
  if withinBudget (length text) maxChars then text
  else
    match maxChars with
    | BChars n =>
        if (n <=? 3)%positive then dots (Pos.to_nat n)
        else slice text 0 (Zpos n - 3) ++ lit "..."
    | BNaN => slice text 0 0 ++ lit "..."      (* [text.slice(0, NaN)] is empty *)
    | BInf => text
    end.

(** [array[i] = v]: a negative index names a property and leaves the
    elements alone; an index past the end would leave holes, written here
    as empty strings ([wrapText] never gets there: [wrapText_index]). *)
Definition arraySet (l : list str) (i : Z) (v : str) : list str :=
  if i <? 0 then l
  else
    let n := Z.to_nat i in
    if (n <? length l)%nat then firstn n l ++ v :: skipn (S n) l
    else l ++ repeat [] (n - length l) ++ [v].

(** The lines of the greedy packing, before the line limit. *)
Definition packLines (charsPerLine : budget) (trimmed : str) : list str :=
  let words := splitWhiteSpace trimmed in
  fst (pushCurrent (fold_left (wrapStep charsPerLine) words ([], []))).

(** [wrapText]; [maxLines = None] is an absent option, which means 2. *)
Definition wrapText (text : str) (maxWidth fontSize : float) (wrap : bool)
    (maxLines : option nat) : list str :=
  let maxLines := match maxLines with Some n => n | None => 2%nat end in
  let trimmed := trim text in
  if isEmpty trimmed then []
  else if negb wrap then [trimmed]
  else
    let charsPerLine := charsPerLineOf maxWidth fontSize in
    if withinBudget (length trimmed) charsPerLine then [trimmed]
    else
      let lines := packLines charsPerLine trimmed in
      if (length lines <=? maxLines)%nat then lines
      else
        let limited := slice lines 0 (Z.of_nat maxLines) in
        let overflow := sliceFrom lines (Z.of_nat maxLines - 1) in
        arraySet limited (Z.of_nat maxLines - 1)
          (collapseWithEllipsis (trim (join (lit " ") overflow)) charsPerLine).

(** *** svg.ts *)

Definition DEFAULT_FONT : str :=
  lit "system-ui, -apple-system, BlinkMacSystemFont, " ++ quoted (lit "Segoe UI")
  ++ lit ", sans-serif".

Definition num (x : float) : str := Number_toString x.

Definition alignToAnchor (align : Align.t) : str :=
  match align with
  | Align.left => lit "start"
  | Align.right => lit "end"
  | Align.center => lit "middle"
  end.

Definition buildText (lines : list str) (options : TextOptions.t) : str :=
  let x := TextOptions.x options in
  let yStart := TextOptions.yStart options in
  let lineHeight := TextOptions.lineHeight options in
  let offset := (lineHeight * (ofZ (Z.of_nat (length lines)) - 1) * 0.5)%float in
  let baseY := (yStart - offset)%float in
  let tspans :=
    join []
      (mapi (fun line index =>
               let y := (baseY + ofZ (Z.of_nat index) * lineHeight)%float in
               lit "<tspan x=" ++ quoted (num x) ++ lit " y=" ++ quoted (num y)
               ++ lit ">" ++ escapeXML line ++ lit "</tspan>")
            lines) in
  let weightAttr :=
    match TextOptions.fontWeight options with
    | Some (c :: w) => lit " font-weight=" ++ quoted (escapeXML (c :: w))
    | _ => []
    end in
  lit "<text x=" ++ quoted (num x)
  ++ lit " fill=" ++ quoted (TextOptions.fill options)
  ++ lit " text-anchor=" ++ quoted (TextOptions.anchor options)
  ++ lit " font-family=" ++ quoted (escapeXML (TextOptions.fontFamily options))
  ++ lit " font-size=" ++ quoted (num (TextOptions.fontSize options))
  ++ lit " dominant-baseline=" ++ quoted (lit "middle")
  ++ weightAttr ++ lit ">" ++ tspans ++ lit "</text>".

Definition roundCornerAttr (radius : float) : str :=
  if negb (truthyNumber radius) then []
  else lit " rx=" ++ quoted (num radius) ++ lit " ry=" ++ quoted (num radius).

Definition strokeAttributes (stroke : option str) (strokeWidth : float) : str :=
  match stroke with
  | Some (c :: k) =>
      if negb (truthyNumber strokeWidth) then []
      else lit " stroke=" ++ quoted (c :: k)
           ++ lit " stroke-width=" ++ quoted (num strokeWidth)
  | _ => []
  end.

Definition shadowAttr (shadow : bool) : str :=
  if shadow then lit " filter=" ++ quoted (lit "url(#dropShadow)") else [].

Definition buildRect (options : RectOptions.t) : str :=
  let fill :=
    if str_eqb (RectOptions.background options) (lit "transparent")
    then lit "none" else RectOptions.background options in
  lit "<rect width=" ++ quoted (num (RectOptions.width options))
  ++ lit " height=" ++ quoted (num (RectOptions.height options))
  ++ lit " fill=" ++ quoted fill
  ++ roundCornerAttr (RectOptions.radius options)
  ++ strokeAttributes (RectOptions.stroke options) (RectOptions.strokeWidth options)
  ++ shadowAttr (RectOptions.shadow options) ++ lit " />".

Definition buildShadowFilter : str :=
  lit "<defs><filter id=" ++ quoted (lit "dropShadow")
  ++ lit " x=" ++ quoted (lit "-20%") ++ lit " y=" ++ quoted (lit "-20%")
  ++ lit " width=" ++ quoted (lit "140%") ++ lit " height=" ++ quoted (lit "140%")
  ++ lit "><feDropShadow dx=" ++ quoted (lit "0") ++ lit " dy=" ++ quoted (lit "2")
  ++ lit " stdDeviation=" ++ quoted (lit "3")
  ++ lit " flood-opacity=" ++ quoted (lit "0.25") ++ lit "/></filter></defs>".

Definition orDefault {A} (o : option A) (d : A) : A :=
  match o with Some a => a | None => d end.

(** [Math.max(1, Math.min(scale, 4))]. *)
Definition clampedScaleOf (scale : float) : float := Math_max 1 (Math_min scale 4).

(** [Math.max(1, Math.round(side * clampedScale))]. *)
Definition scaledSide (side clampedScale : float) : intnum :=
  intMax 1 (Math_round (side * clampedScale)%float).

(** The opening tag of the document. *)
Definition svgOpen (width height : float) (scaledWidth scaledHeight : intnum)
    (label : str) : str :=
  lit "<svg xmlns=" ++ quoted (lit "http://www.w3.org/2000/svg")
  ++ lit " width=" ++ quoted (num width)
  ++ lit " height=" ++ quoted (num height)
  ++ lit " viewBox="
  ++ quoted (lit "0 0 " ++ num (ofInt scaledWidth) ++ lit " " ++ num (ofInt scaledHeight))
  ++ lit " role=" ++ quoted (lit "img")
  ++ lit " aria-label=" ++ quoted label ++ lit ">".

Definition buildSVG (options : SvgOptions.t) : str :=
  let width := SvgOptions.width options in
  let height := SvgOptions.height options in
  let text := SvgOptions.text options in
  let scale := orDefault (SvgOptions.scale options) 1%float in
  let radius := orDefault (SvgOptions.radius options) 0%float in
  let strokeWidth := orDefault (SvgOptions.strokeWidth options) 0%float in
  let shadow := orDefault (SvgOptions.shadow options) false in
  let clampedScale := clampedScaleOf scale in
  let scaledWidth := scaledSide width clampedScale in
  let scaledHeight := scaledSide height clampedScale in
  let scaledPad := Math_max 0 (SvgOptions.pad options * clampedScale)%float in
  let effectiveFontSize := (SvgOptions.fontSize options * clampedScale)%float in
  let lineHeight := (effectiveFontSize * 1.2)%float in
  let availableWidth := Math_max 0 (ofInt scaledWidth - scaledPad * 2)%float in
  let lines :=
    match text with
    | Some (c :: t) =>
        wrapText (c :: t) availableWidth effectiveFontSize (SvgOptions.wrap options) None
    | _ => []
    end in
  let anchor := alignToAnchor (SvgOptions.align options) in
  let textX :=
    match SvgOptions.align options with
    | Align.center => (ofInt scaledWidth / 2)%float
    | Align.left => scaledPad
    | Align.right => (ofInt scaledWidth - scaledPad)%float
    end in
  let textElements :=
    match lines with
    | [] => []
    | _ :: _ =>
        buildText lines
          {| TextOptions.x := textX;
             TextOptions.yStart := (ofInt scaledHeight / 2)%float;
             TextOptions.lineHeight := lineHeight;
             TextOptions.fill := SvgOptions.foreground options;
             TextOptions.anchor := anchor;
             TextOptions.fontFamily := orDefault (SvgOptions.fontFamily options) DEFAULT_FONT;
             TextOptions.fontSize := effectiveFontSize;
             TextOptions.fontWeight := SvgOptions.fontWeight options |}
    end in
  let rectAttributes :=
    buildRect
      {| RectOptions.width := ofInt scaledWidth;
         RectOptions.height := ofInt scaledHeight;
         RectOptions.background := SvgOptions.background options;
         RectOptions.radius := radius;
         RectOptions.stroke := SvgOptions.stroke options;
         RectOptions.strokeWidth := strokeWidth;
         RectOptions.shadow := shadow |} in
  let filterDefs := if shadow then buildShadowFilter else [] in
  let label := orDefault text (num width ++ lit "x" ++ num height) in
  joinTruthy []
    [ svgOpen width height scaledWidth scaledHeight (escapeXML label);
      filterDefs; rectAttributes; textElements; lit "</svg>" ].

(** *** index.ts *)

Definition DEFAULT_BACKGROUND : str := lit "#dddddd".
Definition MAX_TEXT_LENGTH : Z := 120.

(** [searchParams.get(key)]: the first value of the key. *)
Definition searchGet (params : URLSearchParams) (key : str) : option str :=
  match find (fun kv => str_eqb (fst kv) key) params with
  | Some kv => Some (snd kv)
  | None => None
  end.

Definition clampText (value : str) : str :=
  if isEmpty value then []
  else if Z.of_nat (length value) <=? MAX_TEXT_LENGTH then value
  else if MAX_TEXT_LENGTH <=? 3 then dots (Z.to_nat MAX_TEXT_LENGTH)
  else slice value 0 (MAX_TEXT_LENGTH - 3) ++ lit "...".

Definition parseFloatSafe (value : option str) : float :=
  match value with
  | Some (c :: v) =>
      let numeric := parseFloat (c :: v) in
      if is_finite numeric then numeric else nan
  | _ => nan
  end.

Definition parseScale (raw : option str) : Z :=
  match raw with
  | Some (c :: r) =>
      match parseInt (c :: r) 10 with
      | Int numeric => if numeric =? 2 then 2 else 1
      | _ => 1
      end
  | _ => 1
  end.

Definition parseAlign (value : option str) : Align.t :=
  let v := toLowerCase (orDefault value []) in
  if str_eqb v (lit "left") then Align.left
  else if str_eqb v (lit "right") then Align.right
  else Align.center.

Definition parseBoolean (value : option str) : bool :=
  match value with
  | Some (c :: v) =>
      let normalized := toLowerCase (c :: v) in
      str_eqb normalized (lit "true") || str_eqb normalized (lit "1")
      || str_eqb normalized (lit "yes")
  | _ => false
  end.

Definition clampNumber (value min max : float) : float :=
  if is_nan value then min else Math_min (Math_max value min) max.

(** [JSON.stringify] of a string: the quotes and the escapes. *)
Definition jsonEscape (c : ascii) : str :=
  let n := code c in
  if n =? 8 then lit "\b"
  else if n =? 9 then lit "\t"
  else if n =? 10 then lit "\n"
  else if n =? 12 then lit "\f"
  else if n =? 13 then lit "\r"
  else if n =? 34 then [backslash; dquote]
  else if n =? 92 then lit "\\"
  else if n <? 32 then lit "\u00" ++ [hexDigit (n / 16); hexDigit (n mod 16)]
  else [c].

Definition jsonString (s : str) : str := quoted (flat_map jsonEscape s).

Definition jsonValue (v : JSONValue) : str :=
  match v with
  | JNumber x => if is_finite x then num x else lit "null"
  | JString s => jsonString s
  | JBoolean b => if b then lit "true" else lit "false"
  end.

(** [JSON.stringify] of an object literal: the fields in order, those
    whose value is [undefined] left out. *)
Definition jsonObject (fields : list (str * option JSONValue)) : str :=
  lit "{"
  ++ join (lit ",")
       (flat_map (fun kv =>
                    match snd kv with
                    | Some v => [jsonString (fst kv) ++ lit ":" ++ jsonValue v]
                    | None => []
                    end)
                 fields)
  ++ lit "}".

Definition alignName (a : Align.t) : str :=
  match a with
  | Align.left => lit "left"
  | Align.right => lit "right"
  | Align.center => lit "center"
  end.

Definition etagPayload (c : RenderConfig.t) : str :=
  jsonObject
    [ (lit "width", Some (JNumber (RenderConfig.width c)));
      (lit "height", Some (JNumber (RenderConfig.height c)));
      (lit "background", Some (JString (RenderConfig.background c)));
      (lit "foreground", Some (JString (RenderConfig.foreground c)));
      (lit "text", Some (JString (RenderConfig.text c)));
      (lit "fontFamily", option_map JString (RenderConfig.fontFamily c));
      (lit "fontSize", Some (JNumber (RenderConfig.fontSize c)));
      (lit "pad", Some (JNumber (RenderConfig.pad c)));
      (lit "fontWeight", option_map JString (RenderConfig.fontWeight c));
      (lit "align", Some (JString (alignName (RenderConfig.align c))));
      (lit "wrap", Some (JBoolean (RenderConfig.wrap c)));
      (lit "scale", Some (JNumber (RenderConfig.scale c)));
      (lit "radius", Some (JNumber (RenderConfig.radius c)));
      (lit "stroke", option_map JString (RenderConfig.stroke c));
      (lit "strokeWidth", option_map JNumber (RenderConfig.strokeWidth c));
      (lit "shadow", Some (JBoolean (RenderConfig.shadow c))) ].

Definition hashString (value : str) : str :=
  let data := utf8Encode value in
  let bytes := sha256 data in
  slice (join [] (map hexByte bytes)) 0 32.

(** The fingerprint of a resolved configuration. *)
Definition fingerprint (c : RenderConfig.t) : str := hashString (etagPayload c).

(** [searchParams.get(key)?.trim() || undefined]. *)
Definition trimmedParam (params : URLSearchParams) (key : str) : option str :=
  match searchGet params key with
  | Some v => match trim v with [] => None | t => Some t end
  | None => None
  end.

(** The configuration [renderSvg] resolves from its options; the stroke
    color can throw. *)
Definition resolveConfig (options : RenderOptions.t) : result RenderConfig.t :=
  let width := RenderOptions.width options in
  let height := RenderOptions.height options in
  let scale := RenderOptions.scale options in
  let searchParams := RenderOptions.searchParams options in
  let textParam := searchGet searchParams (lit "says") in
  let rawText := match textParam with Some (c :: t) => trim (c :: t) | _ => [] end in
  let text := clampText rawText in
  let fontFamily := trimmedParam searchParams (lit "font") in
  let fontWeight := trimmedParam searchParams (lit "weight") in
  let sizeParam := parseFloatSafe (searchGet searchParams (lit "size")) in
  let padParam := parseFloatSafe (searchGet searchParams (lit "pad")) in
  let radiusParam := parseFloatSafe (searchGet searchParams (lit "radius")) in
  let strokeParam := searchGet searchParams (lit "stroke") in
  let strokeWidthParam := parseFloatSafe (searchGet searchParams (lit "sw")) in
  let shadow := parseBoolean (searchGet searchParams (lit "shadow")) in
  let baseSize := (Math_min width height / 6)%float in
  let fontSize :=
    clampNumber (if is_finite sizeParam then sizeParam else baseSize) 12 128 in
  let pad :=
    clampNumber (if is_finite padParam then padParam else 0%float) 0
      (Math_min width height / 2)%float in
  let radius :=
    clampNumber (if is_finite radiusParam then radiusParam else 0%float) 0
      (Math_min width height / 2)%float in
  strokeColor <-
    match strokeParam with
    | Some (c :: k) => v <- parseColor (c :: k) ;; Ok (Some v)
    | _ => Ok None
    end ;;
  let strokeWidth :=
    clampNumber (if is_finite strokeWidthParam then strokeWidthParam else 0%float) 0
      (Math_min width height / 5)%float in
  let align := parseAlign (searchGet searchParams (lit "align")) in
  let wrap := parseBoolean (searchGet searchParams (lit "wrap")) in
  Ok {| RenderConfig.width := width;
        RenderConfig.height := height;
        RenderConfig.background := RenderOptions.background options;
        RenderConfig.foreground := RenderOptions.foreground options;
        RenderConfig.text := text;
        RenderConfig.fontFamily := fontFamily;
        RenderConfig.fontSize := fontSize;
        RenderConfig.pad := pad;
        RenderConfig.fontWeight := fontWeight;
        RenderConfig.align := align;
        RenderConfig.wrap := wrap;
        RenderConfig.scale := scale;
        RenderConfig.radius := (radius * scale)%float;
        RenderConfig.stroke := strokeColor;
        RenderConfig.strokeWidth :=
          if truthyNumber strokeWidth then Some (strokeWidth * scale)%float else None;
        RenderConfig.shadow := shadow |}.

(** The options [renderSvg] gives to [buildSVG]: the same values, the
    text absent when empty. *)
Definition svgOptionsOf (c : RenderConfig.t) : SvgOptions.t :=
  {| SvgOptions.width := RenderConfig.width c;
     SvgOptions.height := RenderConfig.height c;
     SvgOptions.background := RenderConfig.background c;
     SvgOptions.foreground := RenderConfig.foreground c;
     SvgOptions.text := match RenderConfig.text c with [] => None | t => Some t end;
     SvgOptions.fontFamily := RenderConfig.fontFamily c;
     SvgOptions.fontSize := RenderConfig.fontSize c;
     SvgOptions.fontWeight := RenderConfig.fontWeight c;
     SvgOptions.pad := RenderConfig.pad c;
     SvgOptions.align := RenderConfig.align c;
     SvgOptions.wrap := RenderConfig.wrap c;
     SvgOptions.scale := Some (RenderConfig.scale c);
     SvgOptions.radius := Some (RenderConfig.radius c);
     SvgOptions.stroke := RenderConfig.stroke c;
     SvgOptions.strokeWidth := RenderConfig.strokeWidth c;
     SvgOptions.shadow := Some (RenderConfig.shadow c) |}.

(** [renderSvg]: the markup and the ETag. *)
Definition renderSvg (options : RenderOptions.t) : result (str * str) :=
  c <- resolveConfig options ;;
  let svg := buildSVG (svgOptionsOf c) in
  let etagHash := hashString (etagPayload c) in
  let etag := quoted etagHash in
  Ok (svg, etag).

(** [headers.set(key, value)] and [headers.get(key)] on a header list,
    for the names and the values that the program passes.  The program
    sets the literal names ['Content-Type'], ['Cache-Control'] and
    ['ETag'] to a literal or to the quoted hash, and reads
    ['If-None-Match']: every name is a valid header name and no value has
    a blank around it or a character that a header cannot hold, so no call
    is refused and nothing is stripped from a value.  Names compare
    without regard to case.  [set] gives the value to the first header of
    the name and removes the others, or adds the pair at the end; [get]
    joins the values of all the headers of the name by a comma and a
    blank, and [None] is its [null]. *)
Definition sameName (a b : str) : bool := str_eqb (toLowerCase a) (toLowerCase b).

Fixpoint headersSet (hs : list (str * str)) (kv : str * str) : list (str * str) :=
  match hs with
  | [] => [kv]
  | h :: hs' =>
      if sameName (fst h) (fst kv)
      then (fst h, snd kv) :: filter (fun x => negb (sameName (fst x) (fst kv))) hs'
      else h :: headersSet hs' kv
  end.

Definition headersGet (hs : list (str * str)) (key : str) : option str :=
  match filter (fun kv => sameName (fst kv) key) hs with
  | [] => None
  | found => Some (join (lit ", ") (map snd found))
  end.

Definition buildHeaders (extra : list (str * str)) : list (str * str) :=
  fold_left headersSet extra [(lit "Access-Control-Allow-Origin", lit "*")].

Definition newline : str := [ascii_of_nat 10].

Definition usageResponse (message : option str) : Response.t :=
  let text :=
    joinTruthy newline
      [ lit "Usage: /:widthxheight/:bg?/:fg?";
        lit "Example: /600x300/red/white?says=Hello+World";
        if truthy message then lit "Error: " ++ orDefault message [] else [] ] in
  {| Response.status := 400;
     Response.headers := buildHeaders [(lit "Content-Type", lit "text/plain; charset=utf-8")];
     Response.body := Some text |}.

(** [value.replace(/^\/+|\/+$/g, '')]: without the slashes at its start
    and at its end. *)
Definition isSlash (c : ascii) : bool := if ascii_dec c "/"%char then true else false.

Definition stripSlashes (value : str) : str :=
  rev (dropWhile isSlash (rev (dropWhile isSlash value))).

(** [segments.map(decodeURIComponent)]: the first segment that cannot be
    decoded throws. *)
Fixpoint decodeAll (segments : list str) : result (list str) :=
  match segments with
  | [] => Ok []
  | segment :: rest =>
      match decodeURIComponent segment with
      | None => Throw URIMalformed
      | Some decoded => others <- decodeAll rest ;; Ok (decoded :: others)
      end
  end.

(** The [lookup] of [fetch]: the non-empty segments of the path, decoded. *)
Definition lookupOf (request : Request.t) : result (list str) :=
  let segments := splitOn "/"%char (stripSlashes (Request.pathname request)) in
  decodeAll (filter (fun segment => negb (isEmpty segment)) segments).

(** The body of the [try] block of [fetch]. *)
Definition respond (request : Request.t) : result Response.t :=
  lookup <- lookupOf request ;;
  match lookup with
  | [] => Ok (usageResponse None)
  | dims :: rest =>
      d <- parseDims dims ;;
      let bgSegment := nth_error rest 0 in
      let fgSegment := nth_error rest 1 in
      background <-
        (if truthy bgSegment then parseColor (orDefault bgSegment [])
         else Ok DEFAULT_BACKGROUND) ;;
      foreground <-
        (if truthy fgSegment then parseColor (orDefault fgSegment [])
         else autoContrast background) ;;
      let scale := parseScale (searchGet (Request.searchParams request) (lit "scale")) in
      r <- renderSvg
             {| RenderOptions.width := ofInt (Dimensions.width d);
                RenderOptions.height := ofInt (Dimensions.height d);
                RenderOptions.background := background;
                RenderOptions.foreground := foreground;
                RenderOptions.scale := ofZ scale;
                RenderOptions.searchParams := Request.searchParams request |} ;;
      let '(svg, etag) := r in
      let responseHeaders :=
        buildHeaders
          [ (lit "Content-Type", lit "image/svg+xml; charset=utf-8");
            (lit "Cache-Control", lit "public, max-age=31536000, immutable");
            (lit "ETag", etag) ] in
      let ifNoneMatch := headersGet (Request.headers request) (lit "If-None-Match") in
      if match ifNoneMatch with Some v => str_eqb v etag | None => false end
      then Ok {| Response.status := 304; Response.headers := responseHeaders;
                 Response.body := None |}
      else if str_eqb (Request.method request) (lit "HEAD")
      then Ok {| Response.status := 200; Response.headers := responseHeaders;
                 Response.body := None |}
      else Ok {| Response.status := 200; Response.headers := responseHeaders;
                 Response.body := Some svg |}
  end.

(** The handler [fetch]. *)
Definition fetch (request : Request.t) : Response.t :=
  if str_eqb (Request.method request) (lit "OPTIONS")
  then {| Response.status := 204; Response.headers := buildHeaders [];
          Response.body := None |}
  else
    match respond request with
    | Ok response => response
    | Throw e => usageResponse (Some (message e))
    end.

(** ** Vocabulary of the properties *)

(** What [parseDims] returns on a token of the right shape. *)
Definition clampedDims (w h : str) : Dimensions.t :=
  {| Dimensions.width := Int (Z.min (Z.max (decimal w) 1) 8000);
     Dimensions.height := Int (Z.min (Z.max (decimal h) 1) 8000) |}.

(** The entity that [escapeXML] writes for a character. *)
Definition escapeChar (c : ascii) : str :=
  if ascii_dec c "&"%char then lit "&amp;"
  else if ascii_dec c "<"%char then lit "&lt;"
  else if ascii_dec c ">"%char then lit "&gt;"
  else if ascii_dec c dquote then lit "&quot;"
  else if ascii_dec c "'"%char then lit "&#39;"
  else [c].

Definition entities : list str :=
  [lit "&amp;"; lit "&lt;"; lit "&gt;"; lit "&quot;"; lit "&#39;"].

(** A raw [<], [>], double quote or apostrophe. *)
Definition isRawMarkup (c : ascii) : bool :=
  if ascii_dec c "<"%char then true
  else if ascii_dec c ">"%char then true
  else if ascii_dec c dquote then true
  else if ascii_dec c "'"%char then true
  else false.

(** Every [&] of the text is the first character of an entity. *)
Definition ampersandsStartEntities (t : str) : Prop :=
  forall pre post, t = pre ++ "&"%char :: post ->
  exists e rest, In e entities /\ "&"%char :: post = e ++ rest.

Definition wellEscaped (t : str) : Prop :=
  Forall (fun c => isRawMarkup c = false) t /\ ampersandsStartEntities t.

(** The text element, from strings that are escaped already. *)
Definition textMarkup (escapedLines : list str) (x yStart lineHeight : float)
    (fill anchor escapedFamily : str) (fontSize : float)
    (escapedWeight : option str) : str :=
  let offset := (lineHeight * (ofZ (Z.of_nat (length escapedLines)) - 1) * 0.5)%float in
  let baseY := (yStart - offset)%float in
  lit "<text x=" ++ quoted (num x)
  ++ lit " fill=" ++ quoted fill
  ++ lit " text-anchor=" ++ quoted anchor
  ++ lit " font-family=" ++ quoted escapedFamily
  ++ lit " font-size=" ++ quoted (num fontSize)
  ++ lit " dominant-baseline=" ++ quoted (lit "middle")
  ++ match escapedWeight with
     | Some w => lit " font-weight=" ++ quoted w
     | None => []
     end
  ++ lit ">"
  ++ join []
       (mapi (fun escaped index =>
                lit "<tspan x=" ++ quoted (num x) ++ lit " y="
                ++ quoted (num (baseY + ofZ (Z.of_nat index) * lineHeight)%float)
                ++ lit ">" ++ escaped ++ lit "</tspan>")
             escapedLines)
  ++ lit "</text>".

(** The font weight that reaches the markup: none when absent or empty. *)
Definition escapedWeightOf (fontWeight : option str) : option str :=
  match fontWeight with
  | Some (c :: w) => Some (escapeXML (c :: w))
  | _ => None
  end.

(** The parts of the document that [buildSVG] computes from its options. *)
Definition scaleOf (o : SvgOptions.t) : float :=
  clampedScaleOf (orDefault (SvgOptions.scale o) 1%float).

Definition canvasWidth (o : SvgOptions.t) : intnum :=
  scaledSide (SvgOptions.width o) (scaleOf o).

Definition canvasHeight (o : SvgOptions.t) : intnum :=
  scaledSide (SvgOptions.height o) (scaleOf o).

Definition scaledPadOf (o : SvgOptions.t) : float :=
  Math_max 0 (SvgOptions.pad o * scaleOf o)%float.

Definition labelOf (o : SvgOptions.t) : str :=
  orDefault (SvgOptions.text o)
    (num (SvgOptions.width o) ++ lit "x" ++ num (SvgOptions.height o)).

Definition captionLines (o : SvgOptions.t) : list str :=
  match SvgOptions.text o with
  | Some (c :: t) =>
      wrapText (c :: t)
        (Math_max 0 (ofInt (canvasWidth o) - scaledPadOf o * 2)%float)
        (SvgOptions.fontSize o * scaleOf o)%float (SvgOptions.wrap o) None
  | _ => []
  end.

Definition textXOf (o : SvgOptions.t) : float :=
  match SvgOptions.align o with
  | Align.center => (ofInt (canvasWidth o) / 2)%float
  | Align.left => scaledPadOf o
  | Align.right => (ofInt (canvasWidth o) - scaledPadOf o)%float
  end.

Definition filterDefsOf (o : SvgOptions.t) : str :=
  if orDefault (SvgOptions.shadow o) false then buildShadowFilter else [].

Definition rectOf (o : SvgOptions.t) : str :=
  buildRect
    {| RectOptions.width := ofInt (canvasWidth o);
       RectOptions.height := ofInt (canvasHeight o);
       RectOptions.background := SvgOptions.background o;
       RectOptions.radius := orDefault (SvgOptions.radius o) 0%float;
       RectOptions.stroke := SvgOptions.stroke o;
       RectOptions.strokeWidth := orDefault (SvgOptions.strokeWidth o) 0%float;
       RectOptions.shadow := orDefault (SvgOptions.shadow o) false |}.

(** The text element of the document: absent without lines; the lines,
    the font family and the font weight all escaped. *)
Definition textPartOf (o : SvgOptions.t) : str :=
  match captionLines o with
  | [] => []
  | lines =>
      textMarkup (map escapeXML lines) (textXOf o)
        (ofInt (canvasHeight o) / 2)%float
        (SvgOptions.fontSize o * scaleOf o * 1.2)%float
        (SvgOptions.foreground o) (alignToAnchor (SvgOptions.align o))
        (escapeXML (orDefault (SvgOptions.fontFamily o) DEFAULT_FONT))
        (SvgOptions.fontSize o * scaleOf o)%float
        (escapedWeightOf (SvgOptions.fontWeight o))
  end.

(** The forms of a color, on the trimmed, lower-cased input. *)
Definition isKeyword (n : str) : Prop := n = lit "t" \/ n = lit "transparent".

(** [#] and three or six digits of [0-9a-f]. *)
Definition hexForm (n v : str) : Prop :=
  n = "#"%char :: v
  /\ Forall (fun c => isLowerHex c = true) v
  /\ (length v = 3 \/ length v = 6)%nat.

(** What a hex form resolves to: the shorthand with each digit doubled. *)
Definition hexResult (v : str) : str :=
  if (length v =? 3)%nat then lit "#" ++ expandHex v else lit "#" ++ v.

(** [name(...)] or [namea(...)]: [opening] is the name with its
    parenthesis, [content] what stands between the parentheses, which is
    not empty and holds no closing parenthesis. *)
Definition functionalForm (name n opening content : str) : Prop :=
  (opening = name ++ lit "(" \/ opening = name ++ lit "a(")
  /\ n = opening ++ content ++ lit ")"
  /\ content <> []
  /\ ~ In ")"%char content.

(** The input resolves to nothing. *)
Definition unresolvable (n : str) : Prop :=
  n = []
  \/ (~ isKeyword n
      /\ CSS_COLORS n = None
      /\ (forall v, ~ hexForm n v)
      /\ (forall opening content, ~ functionalForm (lit "rgb") n opening content)
      /\ (forall opening content, ~ functionalForm (lit "hsl") n opening content)).

(** The names and the values of the table, in the words of the
    specification: "CSS-style names", each with "its hex equivalent". *)
Definition isLowerLetter (c : ascii) : bool :=
  let n := code c in (97 <=? n) && (n <=? 122).

Definition colorName (k : str) : Prop := Forall (fun c => isLowerLetter c = true) k.

Definition hex6 (v : str) : Prop :=
  exists h, v = "#"%char :: h /\ length h = 6%nat
            /\ Forall (fun c => isLowerHex c = true) h.

(** A string with no white space at its start, or at its end. *)
Definition startsClean (s : str) : Prop := dropWhile isWhiteSpace s = s.
Definition endsClean (s : str) : Prop := dropWhile isWhiteSpace (rev s) = rev s.

(** The functional forms with nothing between the parentheses. *)
Definition emptyFunctional : list str :=
  [lit "rgb()"; lit "rgba()"; lit "hsl()"; lit "hsla()"].

(** The relative luminance, in the words of the specification: each
    channel, scaled to [0, 1], is [c / 12.92] if [c <= 0.03928] and
    [((c + 0.055) / 1.055) ^ 2.4] otherwise; the weights are 0.2126,
    0.7152 and 0.0722. *)
Definition linearize (c : float) : float :=
  if (c <=? 0.03928)%float then (c / 12.92)%float
  else Math_pow ((c + 0.055) / 1.055)%float 2.4%float.

Definition luminanceSpec (c : rgb) : float :=
  let '(r, g, b) := c in
  (0.2126 * linearize (ofInt r / 255) + 0.7152 * linearize (ofInt g / 255)
   + 0.0722 * linearize (ofInt b / 255))%float.


(** Options with every optional field absent but the scale. *)
Definition plainOptions (width height : float) (scale : option float) : SvgOptions.t :=
  {| SvgOptions.width := width;
     SvgOptions.height := height;
     SvgOptions.background := lit "#dddddd";
     SvgOptions.foreground := lit "#111111";
     SvgOptions.text := None;
     SvgOptions.fontFamily := None;
     SvgOptions.fontSize := 50%float;
     SvgOptions.fontWeight := None;
     SvgOptions.pad := 0%float;
     SvgOptions.align := Align.center;
     SvgOptions.wrap := false;
     SvgOptions.scale := scale;
     SvgOptions.radius := None;
     SvgOptions.stroke := None;
     SvgOptions.strokeWidth := None;
     SvgOptions.shadow := None |}.

(** Two configurations whose fields are equal one by one. *)
Definition fieldwiseEqual (a b : RenderConfig.t) : Prop :=
  RenderConfig.width a = RenderConfig.width b
  /\ RenderConfig.height a = RenderConfig.height b
  /\ RenderConfig.background a = RenderConfig.background b
  /\ RenderConfig.foreground a = RenderConfig.foreground b
  /\ RenderConfig.text a = RenderConfig.text b
  /\ RenderConfig.fontFamily a = RenderConfig.fontFamily b
  /\ RenderConfig.fontSize a = RenderConfig.fontSize b
  /\ RenderConfig.pad a = RenderConfig.pad b
  /\ RenderConfig.fontWeight a = RenderConfig.fontWeight b
  /\ RenderConfig.align a = RenderConfig.align b
  /\ RenderConfig.wrap a = RenderConfig.wrap b
  /\ RenderConfig.scale a = RenderConfig.scale b
  /\ RenderConfig.radius a = RenderConfig.radius b
  /\ RenderConfig.stroke a = RenderConfig.stroke b
  /\ RenderConfig.strokeWidth a = RenderConfig.strokeWidth b
  /\ RenderConfig.shadow a = RenderConfig.shadow b.

(** The configuration that [fetch] resolves from the decoded segments of
    the path and the query: the steps of [fetch] and [renderSvg] before
    the markup and the hash. *)
Definition resolveRequest (dims : str) (rest : list str)
    (searchParams : URLSearchParams) : result RenderConfig.t :=
  d <- parseDims dims ;;
  background <-
    (if truthy (nth_error rest 0) then parseColor (orDefault (nth_error rest 0) [])
     else Ok DEFAULT_BACKGROUND) ;;
  foreground <-
    (if truthy (nth_error rest 1) then parseColor (orDefault (nth_error rest 1) [])
     else autoContrast background) ;;
  resolveConfig
    {| RenderOptions.width := ofInt (Dimensions.width d);
       RenderOptions.height := ofInt (Dimensions.height d);
       RenderOptions.background := background;
       RenderOptions.foreground := foreground;
       RenderOptions.scale :=
         ofZ (parseScale (searchGet searchParams (lit "scale")));
       RenderOptions.searchParams := searchParams |}.

(** The ETag of a response, if it has one. *)
Definition etagOf (response : Response.t) : option str :=
  headersGet (Response.headers response) (lit "ETag").

(** A string without white space, and a line: a string that is not empty
    and has no white space at its start or at its end. *)
Definition noSpace (s : str) : Prop := Forall (fun c => isWhiteSpace c = false) s.

Definition cleanLine (l : str) : Prop := l <> [] /\ startsClean l /\ endsClean l.

(** What the packing keeps true of a line under a budget: it is within
    the budget; when the budget is NaN it is a single word. *)
Definition goodLine (b : budget) (l : str) : Prop :=
  cleanLine l
  /\ match b with
     | BChars n => (length l <= Pos.to_nat n)%nat
     | BNaN => noSpace l
     | BInf => True
     end.

(** The state of the packing loop: the lines pushed so far are good, and
    so is the current line unless it is empty. *)
Definition packState (b : budget) (st : list str * str) : Prop :=
  Forall (goodLine b) (fst st) /\ (snd st = [] \/ goodLine b (snd st)).

(** The result of [wrapText], branch by branch; [m] is the line limit. *)
Definition wrappedLines (text : str) (maxWidth fontSize : float) (wrap : bool)
    (m : nat) : list str :=
  let trimmed := trim text in
  let charsPerLine := charsPerLineOf maxWidth fontSize in
  let packed := packLines charsPerLine trimmed in
  if isEmpty trimmed then []
  else if negb wrap then [trimmed]
  else if withinBudget (length trimmed) charsPerLine then [trimmed]
  else if (length packed <=? m)%nat then packed
  else match m with
       | O => []
       | S k =>
           firstn k packed
           ++ [collapseWithEllipsis (join (lit " ") (skipn k packed)) charsPerLine]
       end.

(** A character that [escapeXML] replaces. *)
Definition needsEscape (c : ascii) : bool :=
  isRawMarkup c || (if ascii_dec c "&"%char then true else false).

(** [#] and three or six digits of [0-9a-fA-F]: what [normalizeHex]
    accepts. *)
Definition hexShape (value digits : str) : Prop :=
  value = "#"%char :: digits
  /\ Forall (fun c => isHex c = true) digits
  /\ (length digits = 3 \/ length digits = 6)%nat.

(** The value of a hex digit. *)
Definition hexValue (c : ascii) : Z :=
  match digitValue c with Some d => d | None => 0 end.

(** A channel: an integer from 0 to 255. *)
Definition isChannel (n : intnum) : Prop := exists z, n = Int z /\ 0 <= z <= 255.

(** A Number that is not NaN and has the sign bit [s]. *)
Definition signed (s : bool) (x : spec_float) : Prop :=
  match x with
  | S754_nan => False
  | S754_zero s' | S754_infinity s' | S754_finite s' _ _ => s' = s
  end.

(** A Number that is finite and greater than 0. *)
Definition positiveFinite (y : float) : Prop :=
  exists m e, Prim2SF y = S754_finite false m e.

(** The headers of a response that carries, or stands for, an image. *)
Definition imageHeaders (etag : str) : list (str * str) :=
  [ (lit "Access-Control-Allow-Origin", lit "*");
    (lit "Content-Type", lit "image/svg+xml; charset=utf-8");
    (lit "Cache-Control", lit "public, max-age=31536000, immutable");
    (lit "ETag", etag) ].

(** The headers and the first two lines of the usage response. *)
Definition textHeaders : list (str * str) :=
  [ (lit "Access-Control-Allow-Origin", lit "*");
    (lit "Content-Type", lit "text/plain; charset=utf-8") ].

Definition usageText : str :=
  lit "Usage: /:widthxheight/:bg?/:fg?" ++ newline
  ++ lit "Example: /600x300/red/white?says=Hello+World".

(** A request with other headers, or another method. *)
Definition withHeaders (request : Request.t) (headers : list (str * str)) : Request.t :=
  {| Request.method := Request.method request;
     Request.pathname := Request.pathname request;
     Request.searchParams := Request.searchParams request;
     Request.headers := headers |}.

Definition withMethod (request : Request.t) (method : str) : Request.t :=
  {| Request.method := method;
     Request.pathname := Request.pathname request;
     Request.searchParams := Request.searchParams request;
     Request.headers := Request.headers request |}.

(** A path segment or a query value that is there, is not empty, and is
    not a color. *)
Definition badColor (value : option str) : Prop :=
  exists s, value = Some s /\ s <> [] /\ parseColor s = Throw InvalidColor.

(** Half, and a fifth, of the shorter side of the image. *)
Definition halfSide (width height : float) : float := (Math_min width height / 2)%float.
Definition fifthSide (width height : float) : float := (Math_min width height / 5)%float.

(** The characters of a text that are not white space, in order. *)
Definition letters (s : str) : str := filter (fun c => negb (isWhiteSpace c)) s.

(** The same, for the lines pushed so far and the current line of the
    packing. *)
Definition lettersOf (st : list str * str) : str :=
  concat (map letters (fst st)) ++ letters (snd st).

(** The segments of the path of a request: the pieces between the
    slashes that are not empty. *)
Definition pathSegments (request : Request.t) : list str :=
  filter (fun piece => negb (isEmpty piece)) (splitOn "/"%char (Request.pathname request)).

(** The options of a plain image of 600 by 300 on the given background. *)
Definition paintedOptions (background : str) : SvgOptions.t :=
  {| SvgOptions.width := 600;
     SvgOptions.height := 300;
     SvgOptions.background := background;
     SvgOptions.foreground := lit "#111111";
     SvgOptions.text := None;
     SvgOptions.fontFamily := None;
     SvgOptions.fontSize := 50%float;
     SvgOptions.fontWeight := None;
     SvgOptions.pad := 0%float;
     SvgOptions.align := Align.center;
     SvgOptions.wrap := false;
     SvgOptions.scale := None;
     SvgOptions.radius := None;
     SvgOptions.stroke := None;
     SvgOptions.strokeWidth := None;
     SvgOptions.shadow := None |}.

(** A color that is no color: [rgb(], a double quote, and
    [/><script>x</script>)]. *)
Definition scriptColor : str := lit "rgb(" ++ [dquote] ++ lit "/><script>x</script>)".

(* ================================================================== *)
(** * Part II: properties                                              *)
(* ================================================================== *)

Set Default Proof Using "Type".

(** ** Characters and lists *)

Ltac char_cases c :=
  destruct c as [[] [] [] [] [] [] [] []]; try reflexivity; try discriminate.

Lemma digit_not_space : forall c, isDigit c = true -> isWhiteSpace c = false.
Proof. intros c H. char_cases c. Qed.

Lemma digit_code : forall c, isDigit c = true -> 48 <= code c <= 57.
Proof.
  intros c H. unfold isDigit in H. apply andb_true_iff in H.
  destruct H as [H1 H2]. apply Z.leb_le in H1, H2. auto.
Qed.

Lemma takeWhile_dropWhile : forall {A} (p : A -> bool) l,
  takeWhile p l ++ dropWhile p l = l.
Proof.
  induction l as [|x l IH]; simpl; [reflexivity|].
  destruct (p x); simpl; [now rewrite IH | reflexivity].
Qed.

Lemma takeWhile_all : forall {A} (p : A -> bool) l,
  Forall (fun x => p x = true) (takeWhile p l).
Proof.
  induction l as [|x l IH]; simpl; [constructor|].
  destruct (p x) eqn:E; [constructor; assumption | constructor].
Qed.

Lemma dropWhile_head : forall {A} (p : A -> bool) l x r,
  dropWhile p l = x :: r -> p x = false.
Proof.
  induction l as [|y l IH]; simpl; intros x r H; [discriminate|].
  destruct (p y) eqn:E; [eauto | congruence].
Qed.

Lemma takeWhile_stop : forall {A} (p : A -> bool) w x r,
  Forall (fun c => p c = true) w -> p x = false ->
  takeWhile p (w ++ x :: r) = w /\ dropWhile p (w ++ x :: r) = x :: r.
Proof.
  induction w as [|c w IH]; simpl; intros x r Hw Hx.
  - now rewrite Hx.
  - inversion Hw; subst. rewrite H1. destruct (IH x r H2 Hx) as [-> ->]. auto.
Qed.

Lemma takeWhile_whole : forall {A} (p : A -> bool) w,
  Forall (fun c => p c = true) w -> takeWhile p w = w /\ dropWhile p w = [].
Proof.
  induction w as [|c w IH]; simpl; intros Hw; [auto|].
  inversion Hw; subst. rewrite H1. destruct (IH H2) as [-> ->]. auto.
Qed.

Lemma forallb_Forall : forall {A} (p : A -> bool) l,
  forallb p l = true <-> Forall (fun x => p x = true) l.
Proof.
  intros A p l. rewrite forallb_forall, Forall_forall. reflexivity.
Qed.

Lemma str_eqb_eq : forall a b, str_eqb a b = true <-> a = b.
Proof.
  intros a b. unfold str_eqb. destruct (list_eq_dec ascii_dec a b); split; congruence.
Qed.

Lemma str_eqb_neq : forall a b, str_eqb a b = false <-> a <> b.
Proof.
  intros a b. unfold str_eqb. destruct (list_eq_dec ascii_dec a b); split; congruence.
Qed.

(** ** C1: parseDims *)

Lemma matchDims_spec : forall s w h,
  matchDims s = Some (w, h) <-> dimsToken s w h.
Proof.
  intros s w h. unfold matchDims, dimsToken, digits1to4. split.
  - intros H.
    pose proof (takeWhile_dropWhile isDigit s) as Hs.
    pose proof (takeWhile_all isDigit s) as Hd.
    destruct (dropWhile isDigit s) as [|c g2] eqn:Ed; [discriminate|].
    destruct (ascii_dec c "x"%char) as [->|Hc].
    2:{ char_cases c; congruence. }
    destruct (_ && _) eqn:Hb in H; [|discriminate].
    inversion H; subst w h; clear H.
    repeat rewrite andb_true_iff in Hb.
    destruct Hb as [[[[H1 H2] H3] H4] H5].
    apply Nat.leb_le in H1, H2, H3, H4. apply forallb_Forall in H5.
    repeat split; auto.
  - intros (Hs & (Hw1 & Hw2) & (Hh1 & Hh2)). subst s.
    destruct (takeWhile_stop isDigit w "x"%char h Hw2 eq_refl) as [E1 E2].
    change (lit "x" ++ h) with ("x"%char :: h).
    rewrite E1, E2. cbv beta iota zeta.
    destruct Hw1 as [Hw1 Hw3], Hh1 as [Hh1 Hh3].
    apply Nat.leb_le in Hw1, Hw3, Hh1, Hh3. rewrite Hw1, Hw3, Hh1, Hh3.
    assert (forallb isDigit h = true) as -> by now apply forallb_Forall.
    reflexivity.
Qed.

Lemma radixDigit_digit : forall c,
  isDigit c = true -> radixDigit 10 c = Some (code c - 48).
Proof. intros c H. char_cases c. Qed.

Lemma parseDigits_digits : forall d a,
  Forall (fun c => isDigit c = true) d ->
  parseDigits 10 (Some a) d
  = Some (fold_left (fun acc c => 10 * acc + (code c - 48)) d a).
Proof.
  induction d as [|c d IH]; intros a Hd; simpl; [reflexivity|].
  inversion Hd; subst. rewrite (radixDigit_digit c H1). apply IH; assumption.
Qed.

Lemma parseInt_digits : forall d,
  d <> [] -> Forall (fun c => isDigit c = true) d ->
  parseInt d 10 = Int (decimal d).
Proof.
  intros [|c d] Hne Hd; [congruence|]. inversion Hd; subst.
  unfold parseInt, trimStart. simpl dropWhile. rewrite (digit_not_space c H1).
  assert (readSign (c :: d) = (1, c :: d)) as -> by (clear - H1; char_cases c).
  simpl. rewrite (radixDigit_digit c H1), (parseDigits_digits d _ H2).
  unfold decimal. simpl. f_equal. destruct (fold_left _ _ _); reflexivity.
Qed.

Lemma digits1to4_nonempty : forall d, digits1to4 d -> d <> [].
Proof. intros [|c d] [[H _] _]; [simpl in H; lia | congruence]. Qed.

Lemma decimal_nonneg_from : forall d a,
  Forall (fun c => isDigit c = true) d -> 0 <= a ->
  0 <= fold_left (fun acc c => 10 * acc + (code c - 48)) d a.
Proof.
  induction d as [|c d IH]; intros a Hd Ha; cbn [fold_left]; [assumption|].
  inversion Hd; subst. apply IH; [assumption|].
  pose proof (digit_code c H1). lia.
Qed.

(** C1, as amended.  For every token, [parseDims] succeeds exactly when the
    token, once the white space around it is trimmed, is one to four
    digits, a lowercase [x] and one to four digits; it then returns the
    two numbers, each clamped into [1, 8000].  For any other separator or
    shape it fails with [InvalidDimensions]. *)
Theorem parseDims_spec : forall token : str,
  (exists w h,
      dimsToken (trim token) w h
      /\ parseDims token = Ok (clampedDims w h)
      /\ 1 <= Z.min (Z.max (decimal w) 1) 8000 <= 8000
      /\ 1 <= Z.min (Z.max (decimal h) 1) 8000 <= 8000)
  \/ ((forall w h, ~ dimsToken (trim token) w h)
      /\ parseDims token = Throw InvalidDimensions).
Proof.
  intros token. unfold parseDims.
  destruct (matchDims (trim token)) as [[w h]|] eqn:E.
  - left. exists w, h. apply matchDims_spec in E.
    destruct E as (Hs & Hw & Hh).
    rewrite (parseInt_digits w (digits1to4_nonempty w Hw) (proj2 Hw)).
    rewrite (parseInt_digits h (digits1to4_nonempty h Hh) (proj2 Hh)).
    unfold clamp, intnum_ltb, MIN_DIMENSION, MAX_DIMENSION.
    assert ((Z.min (Z.max (decimal w) 1) 8000 <? 1) = false) as -> by (apply Z.ltb_ge; lia).
    assert ((Z.min (Z.max (decimal h) 1) 8000 <? 1) = false) as -> by (apply Z.ltb_ge; lia).
    split; [exact (conj Hs (conj Hw Hh))|]. split; [reflexivity|]. split; lia.
  - right. split; [|reflexivity].
    intros w h H. apply matchDims_spec in H. congruence.
Qed.

(** C1, as stated, fails: a token with a leading blank is not of the shape
    [\d{1,4}x\d{1,4}], and [parseDims] accepts it. *)
Lemma parseDims_accepts_padded_token :
  (forall w h, ~ dimsToken (lit " 600x300") w h)
  /\ parseDims (lit " 600x300")
     = Ok {| Dimensions.width := Int 600; Dimensions.height := Int 300 |}.
Proof.
  split; [|reflexivity].
  intros w h H. apply matchDims_spec in H. discriminate H.
Qed.

(** ** C7: parseScale *)

(** C7, as amended.  The scale is 1 or 2.  It is 2 exactly when the value
    is present, not empty, and [parseInt(raw, 10)] reads the integer 2 from
    its start: so for ["2"], and also for ["02"], [" 2"], ["+2"], ["2.5"]
    and ["2px"].  Every other input (absent, empty, not numeric, another
    magnitude) gives 1. *)
Theorem parseScale_spec : forall raw : option str,
  (parseScale raw = 1 \/ parseScale raw = 2)
  /\ (parseScale raw = 2 <->
      exists s, raw = Some s /\ s <> [] /\ parseInt s 10 = Int 2)
  /\ parseScale (Some (lit "2")) = 2
  /\ parseScale None = 1
  /\ parseScale (Some (lit "")) = 1
  /\ parseScale (Some (lit "abc")) = 1
  /\ parseScale (Some (lit "3")) = 1
  /\ parseScale (Some (lit "-2")) = 1
  /\ parseScale (Some (lit "02")) = 2
  /\ parseScale (Some (lit " 2")) = 2
  /\ parseScale (Some (lit "+2")) = 2
  /\ parseScale (Some (lit "2.5")) = 2
  /\ parseScale (Some (lit "2px")) = 2.
Proof.
  intros raw. split; [|split; [|repeat split]].
  - unfold parseScale. destruct raw as [[|c r]|]; auto.
    destruct (parseInt (c :: r) 10); auto. destruct (z =? 2); auto.
  - unfold parseScale. split.
    + destruct raw as [[|c r]|]; try discriminate.
      destruct (parseInt (c :: r) 10) eqn:E; try discriminate.
      destruct (z =? 2) eqn:Ez; try discriminate.
      intros _. apply Z.eqb_eq in Ez. subst z.
      exists (c :: r). repeat split; [congruence | assumption].
    + intros (s & -> & Hs & Hp). destruct s as [|c r]; [congruence|].
      rewrite Hp. reflexivity.
Qed.

(** C7, as stated, fails: ["2.5"] and ["2px"] are not the value ["2"], and
    they resolve to scale 2. *)
Lemma parseScale_reads_integer_prefix :
  lit "2.5" <> lit "2" /\ parseScale (Some (lit "2.5")) = 2
  /\ lit "2px" <> lit "2" /\ parseScale (Some (lit "2px")) = 2.
Proof. repeat split; discriminate. Qed.

(** ** C9: escaping *)

Lemma replaceAll_app : forall c b x y,
  replaceAll c b (x ++ y) = replaceAll c b x ++ replaceAll c b y.
Proof. intros. unfold replaceAll. apply flat_map_app. Qed.

Lemma escapeXML_app : forall x y, escapeXML (x ++ y) = escapeXML x ++ escapeXML y.
Proof. intros. unfold escapeXML. now rewrite !replaceAll_app. Qed.

Lemma escapeXML_char : forall c, escapeXML [c] = escapeChar c.
Proof. intros c. char_cases c. Qed.

Lemma escapeXML_chars : forall value, escapeXML value = flat_map escapeChar value.
Proof.
  induction value as [|c v IH]; [reflexivity|].
  change (c :: v) with ([c] ++ v).
  rewrite escapeXML_app, escapeXML_char, IH. reflexivity.
Qed.

Lemma escapeChar_no_raw : forall c,
  forallb (fun x => negb (isRawMarkup x)) (escapeChar c) = true.
Proof. intros c. char_cases c. Qed.

Lemma escapeChar_cases : forall c,
  In (escapeChar c) entities \/ (escapeChar c = [c] /\ c <> "&"%char).
Proof.
  intros c. unfold escapeChar, entities.
  repeat match goal with
         | |- context [ascii_dec ?a ?b] => destruct (ascii_dec a b)
         end; simpl; auto 10.
Qed.

Lemma entity_shape : forall e, In e entities ->
  exists tail, e = "&"%char :: tail /\ ~ In "&"%char tail.
Proof.
  intros e H. unfold entities in H. simpl in H.
  repeat destruct H as [H|H]; try contradiction; subst e;
    eexists; (split; [reflexivity|]); simpl; intros H;
    repeat destruct H as [H|H]; try discriminate; contradiction.
Qed.

Lemma app_split_after : forall (tail T pre post : str) (a : ascii),
  ~ In a tail -> tail ++ T = pre ++ a :: post ->
  exists pre', T = pre' ++ a :: post.
Proof.
  induction tail as [|x tail IH]; intros T pre post a Hn H; simpl in H.
  - eauto.
  - destruct pre as [|y pre]; simpl in H; inversion H; subst.
    + exfalso. apply Hn. now left.
    + apply (IH T pre post a); [|assumption]. intros Hin. apply Hn. now right.
Qed.

Lemma flat_map_escape_ampersands : forall value,
  ampersandsStartEntities (flat_map escapeChar value).
Proof.
  induction value as [|c v IH]; intros pre post H.
  - destruct pre; discriminate.
  - simpl in H. destruct (escapeChar_cases c) as [He|[He Hc]].
    + destruct (entity_shape _ He) as (tail & Et & Hn).
      destruct pre as [|y pre].
      * exists (escapeChar c), (flat_map escapeChar v). split; [assumption|].
        simpl in H. symmetry. exact H.
      * rewrite Et in H. simpl in H. inversion H; subst y.
        destruct (app_split_after _ _ _ _ _ Hn H2) as (pre' & E).
        exact (IH pre' post E).
    + rewrite He in H. destruct pre as [|y pre]; simpl in H; inversion H.
      * congruence.
      * exact (IH pre post H2).
Qed.

Lemma escapeXML_wellEscaped : forall value, wellEscaped (escapeXML value).
Proof.
  intros value. rewrite escapeXML_chars. split.
  - induction value as [|c v IH]; simpl; [constructor|].
    apply Forall_app. split; [|assumption].
    pose proof (escapeChar_no_raw c) as H. rewrite forallb_forall in H.
    apply Forall_forall. intros x Hx. specialize (H x Hx).
    now apply negb_true_iff in H.
  - apply flat_map_escape_ampersands.
Qed.

Lemma mapi_from_map : forall {A B C} (f : B -> nat -> C) (g : A -> B) l i,
  mapi_from (fun a n => f (g a) n) i l = mapi_from f i (map g l).
Proof.
  induction l as [|a l IH]; intros i; simpl; [reflexivity|]. now rewrite IH.
Qed.

Lemma buildText_markup : forall lines options,
  buildText lines options
  = textMarkup (map escapeXML lines)
      (TextOptions.x options) (TextOptions.yStart options)
      (TextOptions.lineHeight options) (TextOptions.fill options)
      (TextOptions.anchor options)
      (escapeXML (TextOptions.fontFamily options))
      (TextOptions.fontSize options)
      (escapedWeightOf (TextOptions.fontWeight options)).
Proof.
  intros lines options. unfold buildText, textMarkup, escapedWeightOf, mapi.
  rewrite length_map.
  rewrite (mapi_from_map
             (fun escaped index =>
                lit "<tspan x=" ++ quoted (num (TextOptions.x options)) ++ lit " y="
                ++ quoted (num (TextOptions.yStart options
                                - TextOptions.lineHeight options
                                  * (ofZ (Z.of_nat (length lines)) - 1) * 0.5
                                + ofZ (Z.of_nat index) * TextOptions.lineHeight options)%float)
                ++ lit ">" ++ escaped ++ lit "</tspan>") escapeXML lines 0).
  destruct (TextOptions.fontWeight options) as [[|c w]|]; reflexivity.
Qed.

Lemma join_nil_concat : forall l : list str, join [] l = concat l.
Proof.
  induction l as [|a l IH]; [reflexivity|].
  destruct l as [|b l]; [simpl; now rewrite app_nil_r|].
  change (join [] (a :: b :: l)) with (a ++ [] ++ join [] (b :: l)).
  rewrite IH. reflexivity.
Qed.

Lemma joinTruthy_nil_concat : forall l : list str, joinTruthy [] l = concat l.
Proof.
  intros l. unfold joinTruthy. rewrite join_nil_concat.
  induction l as [|a l IH]; [reflexivity|].
  destruct a as [|c a]; simpl; [assumption | now rewrite IH].
Qed.

Lemma buildSVG_structure : forall o,
  buildSVG o
  = svgOpen (SvgOptions.width o) (SvgOptions.height o)
      (canvasWidth o) (canvasHeight o) (escapeXML (labelOf o))
    ++ filterDefsOf o ++ rectOf o ++ textPartOf o ++ lit "</svg>".
Proof.
  intros o. unfold buildSVG. rewrite joinTruthy_nil_concat.
  unfold concat. rewrite app_nil_r.
  fold (scaleOf o). fold (canvasWidth o). fold (canvasHeight o).
  fold (scaledPadOf o). fold (labelOf o). fold (filterDefsOf o). fold (rectOf o).
  fold (captionLines o). fold (textXOf o).
  do 3 f_equal. f_equal.
  unfold textPartOf. destruct (captionLines o) as [|l ls]; [reflexivity|].
  rewrite buildText_markup. reflexivity.
Qed.

(** The strings that are escaped.  [escapeXML] replaces each of the five
    characters [&], [<], [>], double quote and apostrophe by its entity
    and leaves the others, so its result has no raw [<], [>], double quote
    or apostrophe (none, in particular, that could end an attribute) and
    no [&] that does not start one of the five entities.  In the text
    element each caption line, the font family and the font weight are
    written through [escapeXML], and so is the accessibility label of the
    root element.  The colors are not. *)
Theorem escapeXML_spec :
  (forall value, escapeXML value = flat_map escapeChar value)
  /\ (forall value, wellEscaped (escapeXML value))
  /\ (forall value, ~ In dquote (escapeXML value) /\ ~ In "<"%char (escapeXML value))
  /\ (forall lines options,
        buildText lines options
        = textMarkup (map escapeXML lines)
            (TextOptions.x options) (TextOptions.yStart options)
            (TextOptions.lineHeight options) (TextOptions.fill options)
            (TextOptions.anchor options)
            (escapeXML (TextOptions.fontFamily options))
            (TextOptions.fontSize options)
            (escapedWeightOf (TextOptions.fontWeight options)))
  /\ (forall o,
        buildSVG o
        = svgOpen (SvgOptions.width o) (SvgOptions.height o)
            (canvasWidth o) (canvasHeight o) (escapeXML (labelOf o))
          ++ filterDefsOf o ++ rectOf o ++ textPartOf o ++ lit "</svg>").
Proof.
  split; [exact escapeXML_chars|].
  split; [exact escapeXML_wellEscaped|].
  split; [|split; [exact buildText_markup | exact buildSVG_structure]].
  intros value. destruct (escapeXML_wellEscaped value) as [H _].
  rewrite Forall_forall in H. split; intros Hin; apply H in Hin; discriminate Hin.
Qed.

(** The colors of the rectangle and of the text are written as they
    are: a functional color keeps what stands between its parentheses, and
    [buildRect] passes no color to [escapeXML]. *)
Remark fill_is_written_raw :
  forall (width height : float),
  buildRect
    {| RectOptions.width := width; RectOptions.height := height;
       RectOptions.background := lit "rgb(" ++ [dquote] ++ lit ")";
       RectOptions.radius := 0%float; RectOptions.stroke := None;
       RectOptions.strokeWidth := 0%float; RectOptions.shadow := false |}
  = lit "<rect width=" ++ quoted (num width) ++ lit " height=" ++ quoted (num height)
    ++ lit " fill=" ++ quoted (lit "rgb(" ++ [dquote] ++ lit ")") ++ lit " />".
Proof. intros. reflexivity. Qed.

(** ** C2: parseColor *)

Hypothesis CSS_COLORS_names : forall k v, CSS_COLORS k = Some v -> colorName k.
Hypothesis CSS_COLORS_hex : forall k v, CSS_COLORS k = Some v -> hex6 v.

Lemma matchHex_spec : forall n v, matchHex n = Some v <-> hexForm n v.
Proof.
  intros n v. unfold matchHex, hexForm. split.
  - destruct n as [|c n]; [discriminate|].
    destruct (ascii_dec c "#"%char) as [->|Hc]; [|char_cases c; congruence].
    destruct (_ && _) eqn:E; [|discriminate].
    intros H; inversion H; subst n.
    apply andb_true_iff in E. destruct E as [E1 E2].
    apply forallb_Forall in E1. apply orb_true_iff in E2.
    repeat split; auto. destruct E2 as [E2|E2]; apply Nat.eqb_eq in E2; auto.
  - intros (-> & Hv & Hl).
    assert (forallb isLowerHex v = true) as -> by now apply forallb_Forall.
    destruct Hl as [-> | ->]; reflexivity.
Qed.

Lemma stripPrefix_app : forall p s, stripPrefix p (p ++ s) = Some s.
Proof.
  induction p as [|a p IH]; intros s; simpl; [reflexivity|].
  destruct (ascii_dec a a); [apply IH | congruence].
Qed.

Lemma stripPrefix_Some : forall p s r, stripPrefix p s = Some r -> s = p ++ r.
Proof.
  induction p as [|a p IH]; intros s r H; simpl in *.
  - congruence.
  - destruct s as [|b s]; [discriminate|].
    destruct (ascii_dec a b); [|discriminate]. subst b. f_equal. now apply IH.
Qed.

Lemma notClosing_spec : forall c, notClosing c = true <-> c <> ")"%char.
Proof.
  intros c. unfold notClosing. destruct (ascii_dec c ")"%char); split; congruence.
Qed.

Lemma Forall_notClosing : forall content,
  Forall (fun c => notClosing c = true) content <-> ~ In ")"%char content.
Proof.
  intros content. rewrite Forall_forall. split.
  - intros H Hin. apply H in Hin. discriminate.
  - intros H x Hx. apply notClosing_spec. intros ->. auto.
Qed.

Lemma space_not_comma : forall c, isWhiteSpace c = true -> c <> ","%char.
Proof. intros c H ->. discriminate. Qed.

Lemma splitOn_prefix : forall c w rest,
  ~ In c w ->
  splitOn c (w ++ rest)
  = (w ++ hd [] (splitOn c rest)) :: tl (splitOn c rest).
Proof.
  induction w as [|x w IH]; intros rest Hn.
  - simpl. destruct rest as [|y rest]; [reflexivity|]. simpl.
    destruct (ascii_dec y c); [reflexivity|].
    destruct (splitOn c rest); reflexivity.
  - simpl. destruct (ascii_dec x c) as [->|Hx]; [exfalso; apply Hn; now left|].
    rewrite IH; [reflexivity|]. intros H. apply Hn. now right.
Qed.

Lemma splitOn_whole : forall c w, ~ In c w -> splitOn c w = [w].
Proof.
  intros c w Hn. rewrite <- (app_nil_r w) at 1.
  rewrite splitOn_prefix by assumption. simpl. now rewrite app_nil_r.
Qed.

Lemma splitOn_cons : forall c s, splitOn c s = hd [] (splitOn c s) :: tl (splitOn c s).
Proof.
  intros c s. destruct s as [|x s]; [reflexivity|]. simpl.
  destruct (ascii_dec x c); [reflexivity|]. destruct (splitOn c s); reflexivity.
Qed.

Lemma dropWhile_app_all : forall {A} (p : A -> bool) w rest,
  Forall (fun c => p c = true) w -> dropWhile p (w ++ rest) = dropWhile p rest.
Proof.
  induction w as [|x w IH]; intros rest Hw; [reflexivity|].
  inversion Hw; subst. simpl. rewrite H1. now apply IH.
Qed.

Lemma trim_skips_leading : forall w p,
  Forall (fun c => isWhiteSpace c = true) w -> trim (w ++ p) = trim p.
Proof.
  intros w p Hw. unfold trim, trimStart. now rewrite dropWhile_app_all.
Qed.

Lemma trim_all_space : forall w,
  Forall (fun c => isWhiteSpace c = true) w -> trim w = [].
Proof.
  intros w Hw. unfold trim, trimStart.
  now rewrite (proj2 (takeWhile_whole isWhiteSpace w Hw)).
Qed.

Lemma all_space_no_comma : forall w,
  Forall (fun c => isWhiteSpace c = true) w -> ~ In ","%char w.
Proof.
  intros w Hw Hin. rewrite Forall_forall in Hw. apply Hw in Hin. discriminate.
Qed.

(** The group that the expression captures gives the same components as
    the whole content. *)
Lemma joinComponents_leading : forall w g,
  Forall (fun c => isWhiteSpace c = true) w ->
  joinComponents (w ++ g) = joinComponents g.
Proof.
  intros w g Hw. unfold joinComponents.
  rewrite splitOn_prefix by now apply all_space_no_comma.
  rewrite (splitOn_cons ","%char g) at 3.
  simpl map. now rewrite trim_skips_leading.
Qed.

Lemma joinComponents_all_space : forall w,
  Forall (fun c => isWhiteSpace c = true) w -> joinComponents w = [].
Proof.
  intros w Hw. unfold joinComponents.
  rewrite splitOn_whole by now apply all_space_no_comma.
  simpl. now apply trim_all_space.
Qed.

Lemma dropWhile_nil_all : forall {A} (p : A -> bool) l,
  dropWhile p l = [] -> Forall (fun c => p c = true) l.
Proof.
  intros A p l H. rewrite <- (takeWhile_dropWhile p l), H, app_nil_r.
  apply takeWhile_all.
Qed.

Lemma capturedGroup : forall content g,
  content <> [] ->
  match dropWhile isWhiteSpace content with
  | [] => match rev content with
          | c :: _ => Some [c]
          | [] => None
          end
  | x :: r => Some (x :: r)
  end = Some g ->
  joinComponents g = joinComponents content.
Proof.
  intros content g Hne H.
  destruct (dropWhile isWhiteSpace content) as [|x r] eqn:E.
  - apply dropWhile_nil_all in E.
    destruct (rev content) as [|c rc] eqn:Er; [discriminate|].
    inversion H; subst g.
    rewrite (joinComponents_all_space content E).
    apply joinComponents_all_space. constructor; [|constructor].
    rewrite Forall_forall in E. apply E. apply in_rev. rewrite Er. now left.
  - inversion H; subst g. rewrite <- E.
    rewrite <- (takeWhile_dropWhile isWhiteSpace content) at 2.
    symmetry. apply joinComponents_leading. apply takeWhile_all.
Qed.

Lemma matchFunctional_sound : forall name n g,
  matchFunctional name n = Some g ->
  exists opening content,
    functionalForm name n opening content
    /\ joinComponents g = joinComponents content.
Proof.
  intros name n g H. unfold matchFunctional in H.
  destruct (stripPrefix name n) as [r|] eqn:Ep; [|discriminate].
  apply stripPrefix_Some in Ep.
  assert (exists opening b,
             (opening = name ++ lit "(" \/ opening = name ++ lit "a(")
             /\ n = opening ++ b
             /\ match dropWhile notClosing b with
                | [")"%char] =>
                    match dropWhile isWhiteSpace (takeWhile notClosing b) with
                    | [] => match rev (takeWhile notClosing b) with
                            | c :: _ => Some [c]
                            | [] => None
                            end
                    | x :: r0 => Some (x :: r0)
                    end
                | _ => None
                end = Some g) as (opening & b & Ho & En & Hb).
  { destruct r as [|c1 r]; [discriminate|].
    destruct (ascii_dec c1 "("%char) as [->|H1].
    - exists (name ++ lit "("), r. split; [now left|]. split.
      + subst n. now rewrite <- app_assoc.
      + exact H.
    - destruct (ascii_dec c1 "a"%char) as [->|H2].
      + destruct r as [|c2 r]; [discriminate|].
        destruct (ascii_dec c2 "("%char) as [->|H3].
        * exists (name ++ lit "a("), r. split; [now right|]. split.
          -- subst n. now rewrite <- app_assoc.
          -- exact H.
        * exfalso. clear - H H3. char_cases c2; congruence.
      + exfalso. clear - H H1 H2. char_cases c1; congruence. }
  pose proof (takeWhile_dropWhile notClosing b) as Eb.
  pose proof (takeWhile_all notClosing b) as Hc.
  destruct (dropWhile notClosing b) as [|x [|y t]] eqn:Ed; try discriminate.
  2:{ clear - Hb. char_cases x; discriminate. }
  destruct (ascii_dec x ")"%char) as [->|Hx]; [|clear - Hb Hx; char_cases x; congruence].
  set (content := takeWhile notClosing b) in *.
  assert (content <> []) as Hne.
  { intros E0. rewrite E0 in Hb. discriminate. }
  exists opening, content. split.
  - unfold functionalForm. repeat split; auto.
    + now rewrite En, <- Eb.
    + now apply Forall_notClosing.
  - now apply capturedGroup.
Qed.

Lemma matchFunctional_complete : forall name n opening content,
  functionalForm name n opening content ->
  exists g, matchFunctional name n = Some g
            /\ joinComponents g = joinComponents content.
Proof.
  intros name n opening content (Ho & En & Hne & Hc).
  apply Forall_notClosing in Hc.
  destruct (takeWhile_stop notClosing content ")"%char [] Hc eq_refl) as [E1 E2].
  assert (exists g,
             match dropWhile isWhiteSpace content with
             | [] => match rev content with
                     | c :: _ => Some [c]
                     | [] => None
                     end
             | x :: r => Some (x :: r)
             end = Some g) as (g & Hg).
  { destruct (dropWhile isWhiteSpace content) as [|x r]; [|eauto].
    destruct (rev content) as [|c rc] eqn:Er; [|eauto].
    exfalso. apply Hne. rewrite <- (rev_involutive content), Er. reflexivity. }
  exists g. split; [|now apply capturedGroup].
  unfold matchFunctional.
  destruct Ho as [-> | ->]; subst n; rewrite <- app_assoc, stripPrefix_app;
    cbn [lit list_ascii_of_string app]; change (content ++ [")"%char]) with (content ++ ")"%char :: []);
    rewrite E1, E2; exact Hg.
Qed.

Lemma matchFunctional_None : forall name n,
  matchFunctional name n = None ->
  forall opening content, ~ functionalForm name n opening content.
Proof.
  intros name n H opening content Hf.
  destruct (matchFunctional_complete _ _ _ _ Hf) as (g & Hg & _). congruence.
Qed.

Lemma matchHex_None : forall n, matchHex n = None -> forall v, ~ hexForm n v.
Proof. intros n H v Hv. apply matchHex_spec in Hv. congruence. Qed.

Lemma isKeyword_dec : forall n,
  str_eqb n (lit "t") || str_eqb n (lit "transparent") = true <-> isKeyword n.
Proof.
  intros n. unfold isKeyword. rewrite orb_true_iff, !str_eqb_eq. reflexivity.
Qed.

Lemma startsWith_app : forall p s, startsWith (p ++ s) p = true.
Proof. intros. unfold startsWith. now rewrite stripPrefix_app. Qed.

Lemma CSS_COLORS_only_names : forall k c,
  In c k -> isLowerLetter c = false -> CSS_COLORS k = None.
Proof using CSS_COLORS_names.
  intros k c Hin Hc. destruct (CSS_COLORS k) as [v|] eqn:E; [|reflexivity].
  apply CSS_COLORS_names in E. unfold colorName in E. rewrite Forall_forall in E.
  apply E in Hin. congruence.
Qed.

(** The seven cases of [parseColor], each with the cases before it ruled
    out. *)
Lemma parseColor_cases : forall input : str,
  let n := toLowerCase (trim input) in
  (n = [] /\ parseColor input = Throw InvalidColor)
  \/ (isKeyword n /\ parseColor input = Ok (lit "transparent"))
  \/ (n <> [] /\ ~ isKeyword n
      /\ exists v, CSS_COLORS n = Some v /\ parseColor input = Ok v)
  \/ (~ isKeyword n /\ CSS_COLORS n = None
      /\ exists v, hexForm n v /\ parseColor input = Ok (hexResult v))
  \/ (~ isKeyword n /\ CSS_COLORS n = None
      /\ exists opening content,
           functionalForm (lit "rgb") n opening content
           /\ parseColor input = Ok (opening ++ joinComponents content ++ lit ")"))
  \/ (~ isKeyword n /\ CSS_COLORS n = None
      /\ exists opening content,
           functionalForm (lit "hsl") n opening content
           /\ parseColor input = Ok (opening ++ joinComponents content ++ lit ")"))
  \/ (n <> [] /\ ~ isKeyword n /\ CSS_COLORS n = None
      /\ (forall v, ~ hexForm n v)
      /\ (forall opening content, ~ functionalForm (lit "rgb") n opening content)
      /\ (forall opening content, ~ functionalForm (lit "hsl") n opening content)
      /\ parseColor input = Throw InvalidColor).
Proof.
  intros input n. unfold parseColor. fold n.
  destruct n as [|c0 n0] eqn:En; [left; auto|]. right.
  rewrite <- En.
  assert (n <> []) as Hne by (rewrite En; discriminate).
  destruct (str_eqb n (lit "t") || str_eqb n (lit "transparent")) eqn:Ek.
  { left. apply isKeyword_dec in Ek. auto. }
  right.
  assert (~ isKeyword n) as Hk.
  { intros H. apply isKeyword_dec in H. congruence. }
  destruct (CSS_COLORS n) as [hex|] eqn:Et.
  { left. repeat split; auto. exists hex. auto. }
  right.
  destruct (matchHex n) as [v|] eqn:Eh.
  { left. repeat split; auto. exists v. split; [now apply matchHex_spec|].
    unfold hexResult. destruct (length v =? 3)%nat; reflexivity. }
  right.
  destruct (matchFunctional (lit "rgb") n) as [g|] eqn:Er.
  { left. repeat split; auto.
    destruct (matchFunctional_sound _ _ _ Er) as (opening & content & Hf & Hj).
    exists opening, content. split; [assumption|].
    destruct Hf as (Ho & Hn & _). rewrite Hj.
    destruct Ho as [-> | ->]; rewrite Hn.
    - reflexivity.
    - change (lit "rgb" ++ lit "a(") with (lit "rgba" ++ lit "(").
      rewrite <- (app_assoc (lit "rgba")), startsWith_app. reflexivity. }
  right.
  destruct (matchFunctional (lit "hsl") n) as [g|] eqn:Es.
  { left. repeat split; auto.
    destruct (matchFunctional_sound _ _ _ Es) as (opening & content & Hf & Hj).
    exists opening, content. split; [assumption|].
    destruct Hf as (Ho & Hn & _). rewrite Hj.
    destruct Ho as [-> | ->]; rewrite Hn.
    - reflexivity.
    - change (lit "hsl" ++ lit "a(") with (lit "hsla" ++ lit "(").
      rewrite <- (app_assoc (lit "hsla")), startsWith_app. reflexivity. }
  right.
  repeat split; auto.
  - now apply matchHex_None.
  - now apply matchFunctional_None.
  - now apply matchFunctional_None.
Qed.

Lemma isKeyword_nonempty : forall n, isKeyword n -> n <> [].
Proof. intros n [-> | ->]; discriminate. Qed.

Lemma hexForm_nonempty : forall n v, hexForm n v -> n <> [].
Proof. intros n v (-> & _). discriminate. Qed.

Lemma functionalForm_nonempty : forall name n opening content,
  functionalForm name n opening content -> n <> [].
Proof.
  intros name n opening content (_ & -> & _ & _) H.
  apply app_eq_nil in H. destruct H as [_ H].
  apply app_eq_nil in H. destruct H as [_ H]. discriminate.
Qed.

(** ** C9: the colors in the markup *)

(** C9 fails for the colors.  [parseColor] accepts [rgb(] and [)] around
    any text without a closing parenthesis, here the path segment
    [scriptColor], and returns it as it is; [buildSVG] writes the
    background into the [fill] attribute of the rectangle without a call
    of [escapeXML].  The double quote of the segment ends the attribute
    and the document holds a [script] element of the user. *)
Theorem buildSVG_color_injection :
  parseColor scriptColor = Ok scriptColor
  /\ (In dquote scriptColor /\ In "<"%char scriptColor /\ In ">"%char scriptColor)
  /\ escapeXML scriptColor = lit "rgb(&quot;/&gt;&lt;script&gt;x&lt;/script&gt;)"
  /\ buildSVG (paintedOptions scriptColor)
     = lit "<svg xmlns=" ++ quoted (lit "http://www.w3.org/2000/svg")
       ++ lit " width=" ++ quoted (num 600)
       ++ lit " height=" ++ quoted (num 300)
       ++ lit " viewBox=" ++ quoted (lit "0 0 " ++ num 600 ++ lit " " ++ num 300)
       ++ lit " role=" ++ quoted (lit "img")
       ++ lit " aria-label=" ++ quoted (escapeXML (num 600 ++ lit "x" ++ num 300))
       ++ lit "><rect width=" ++ quoted (num 600) ++ lit " height=" ++ quoted (num 300)
       ++ lit " fill=" ++ [dquote] ++ lit "rgb(" ++ [dquote]
       ++ lit "/><script>x</script>)" ++ [dquote] ++ lit " /></svg>".
Proof using CSS_COLORS_names.
  clear CSS_COLORS_hex parseFloat Math_pow decodeURIComponent.
  split; [|split; [|split]].
  - assert (CSS_COLORS scriptColor = None) as Hn.
    { apply (CSS_COLORS_only_names _ "("%char); [|reflexivity].
      unfold scriptColor. simpl. tauto. }
    unfold parseColor.
    change (toLowerCase (trim scriptColor)) with scriptColor.
    unfold scriptColor at 1. cbv beta iota.
    change (lit "rgb(" ++ [dquote] ++ lit "/><script>x</script>)") with scriptColor.
    rewrite Hn. reflexivity.
  - unfold scriptColor. simpl. tauto.
  - reflexivity.
  - rewrite buildSVG_structure.
    unfold svgOpen, filterDefsOf, rectOf, textPartOf, captionLines, labelOf, buildRect,
      roundCornerAttr, strokeAttributes, shadowAttr, quoted, scriptColor.
    change (canvasWidth (paintedOptions (lit "rgb(" ++ [dquote]
                                         ++ lit "/><script>x</script>)")))
      with (Int 600).
    change (canvasHeight (paintedOptions (lit "rgb(" ++ [dquote]
                                          ++ lit "/><script>x</script>)")))
      with (Int 300).
    cbn -[num escapeXML].
    repeat (rewrite <- app_assoc; cbn -[num escapeXML]).
    reflexivity.
Qed.

(** ** Trimming and lower case *)

Lemma dropWhile_idem : forall {A} (p : A -> bool) l,
  dropWhile p (dropWhile p l) = dropWhile p l.
Proof.
  induction l as [|x l IH]; [reflexivity|]. simpl.
  destruct (p x) eqn:E; [assumption|]. simpl. now rewrite E.
Qed.

Lemma startsClean_cons : forall c s, isWhiteSpace c = false -> startsClean (c :: s).
Proof. intros c s H. unfold startsClean. simpl. now rewrite H. Qed.

Lemma endsClean_snoc : forall s c, isWhiteSpace c = false -> endsClean (s ++ [c]).
Proof. intros s c H. unfold endsClean. rewrite rev_app_distr. simpl. now rewrite H. Qed.

Lemma trim_clean : forall s, startsClean s -> endsClean s -> trim s = s.
Proof.
  intros s Hs He. unfold trim, trimStart, trimEnd. rewrite Hs, He.
  apply rev_involutive.
Qed.

Lemma trimEnd_prefix : forall s,
  exists w, s = trimEnd s ++ w /\ Forall (fun c => isWhiteSpace c = true) w.
Proof.
  intros s. unfold trimEnd.
  exists (rev (takeWhile isWhiteSpace (rev s))). split.
  - rewrite <- rev_app_distr, takeWhile_dropWhile. symmetry. apply rev_involutive.
  - apply Forall_rev. apply takeWhile_all.
Qed.

Lemma trimStart_suffix : forall s,
  exists w, s = w ++ trimStart s /\ Forall (fun c => isWhiteSpace c = true) w.
Proof.
  intros s. exists (takeWhile isWhiteSpace s). split.
  - symmetry. apply takeWhile_dropWhile.
  - apply takeWhile_all.
Qed.

Lemma trim_endsClean : forall s, endsClean (trim s).
Proof.
  intros s. unfold endsClean, trim, trimEnd.
  rewrite rev_involutive. apply dropWhile_idem.
Qed.

Lemma trim_startsClean : forall s, startsClean (trim s).
Proof.
  intros s. unfold trim.
  destruct (trimEnd_prefix (trimStart s)) as (w & E & _).
  destruct (trimEnd (trimStart s)) as [|c t] eqn:Et; [reflexivity|].
  apply startsClean_cons.
  apply (dropWhile_head isWhiteSpace s c (t ++ w)).
  exact E.
Qed.

Lemma trim_idem : forall s, trim (trim s) = trim s.
Proof. intros s. apply trim_clean; [apply trim_startsClean | apply trim_endsClean]. Qed.

Lemma trim_incl : forall s x, In x (trim s) -> In x s.
Proof.
  intros s x H. unfold trim in H.
  destruct (trimEnd_prefix (trimStart s)) as (w & E & _).
  destruct (trimStart_suffix s) as (w' & E' & _).
  rewrite E', E. apply in_or_app. right. apply in_or_app. now left.
Qed.

Lemma lowerChar_idem : forall c, lowerChar (lowerChar c) = lowerChar c.
Proof. intros c. char_cases c. Qed.

Lemma toLowerCase_fixed : forall s,
  Forall (fun c => lowerChar c = c) s -> toLowerCase s = s.
Proof.
  induction s as [|c s IH]; intros H; [reflexivity|].
  inversion H; subst. simpl. rewrite H2. f_equal. now apply IH.
Qed.

Lemma toLowerCase_is_fixed : forall s, Forall (fun c => lowerChar c = c) (toLowerCase s).
Proof.
  induction s as [|c s IH]; simpl; constructor; [apply lowerChar_idem | assumption].
Qed.

Lemma lowerHex_lowerFixed : forall c, isLowerHex c = true -> lowerChar c = c.
Proof. intros c H. char_cases c. Qed.

Lemma lowerHex_not_space : forall c, isLowerHex c = true -> isWhiteSpace c = false.
Proof. intros c H. char_cases c. Qed.

(** ** C10: parseColor on its own results *)

Lemma hex6_normal : forall v, hex6 v -> toLowerCase (trim v) = v.
Proof.
  intros v (h & -> & Hl & Hh).
  assert (trim ("#"%char :: h) = "#"%char :: h) as ->.
  { apply trim_clean; [now apply startsClean_cons|].
    destruct (exists_last (l := h)) as (m & z & ->); [destruct h; discriminate|].
    change ("#"%char :: m ++ [z]) with (("#"%char :: m) ++ [z]).
    apply endsClean_snoc. apply lowerHex_not_space.
    rewrite Forall_forall in Hh. apply Hh. apply in_or_app. right. now left. }
  apply toLowerCase_fixed. constructor; [reflexivity|].
  eapply Forall_impl; [|exact Hh]. apply lowerHex_lowerFixed.
Qed.

Lemma parseColor_hex6 : forall v, hex6 v -> parseColor v = Ok v.
Proof using CSS_COLORS_names.
  clear parseFloat Math_pow Number_toString decodeURIComponent CSS_COLORS_hex.
  intros v Hv. pose proof (hex6_normal v Hv) as Hn.
  destruct Hv as (h & -> & Hl & Hh).
  assert (CSS_COLORS ("#"%char :: h) = None) as Ht.
  { apply (CSS_COLORS_only_names _ "#"%char); [now left | reflexivity]. }
  assert (matchHex ("#"%char :: h) = Some h) as Hm.
  { apply matchHex_spec. repeat split; auto. }
  unfold parseColor. rewrite Hn. cbv beta iota.
  assert (str_eqb ("#"%char :: h) (lit "t") = false) as ->
    by (apply str_eqb_neq; discriminate).
  assert (str_eqb ("#"%char :: h) (lit "transparent") = false) as ->
    by (apply str_eqb_neq; discriminate).
  cbn [orb]. rewrite Ht, Hm, Hl. reflexivity.
Qed.

Lemma expandHex_length : forall v, length (expandHex v) = (2 * length v)%nat.
Proof.
  induction v as [|c v IH]; [reflexivity|].
  unfold expandHex in *. simpl. rewrite IH. lia.
Qed.

Lemma expandHex_all : forall (P : ascii -> Prop) v, Forall P v -> Forall P (expandHex v).
Proof.
  induction v as [|c v IH]; intros H; [constructor|].
  inversion H; subst. unfold expandHex in *. simpl. auto.
Qed.

Lemma hexResult_hex6 : forall n v, hexForm n v -> hex6 (hexResult v).
Proof.
  intros n v (_ & Hv & Hl). unfold hexResult, hex6.
  destruct Hl as [Hl|Hl]; rewrite Hl; simpl.
  - exists (expandHex v). repeat split.
    + rewrite expandHex_length. lia.
    + now apply expandHex_all.
  - exists v. auto.
Qed.

(** The characters of the rejoined components are those of the content,
    the comma and the blank. *)
Lemma splitOn_incl : forall c s p x, In p (splitOn c s) -> In x p -> In x s.
Proof.
  induction s as [|y s IH]; intros p x Hp Hx; simpl in Hp.
  - destruct Hp as [<-|[]]. contradiction.
  - destruct (ascii_dec y c).
    + destruct Hp as [<-|Hp]; [contradiction|]. right. eauto.
    + rewrite (splitOn_cons c s) in Hp. destruct Hp as [<-|Hp].
      * destruct Hx as [<-|Hx]; [now left|]. right.
        apply (IH (hd [] (splitOn c s))); [|assumption].
        rewrite (splitOn_cons c s). now left.
      * right. apply (IH p); [|assumption].
        rewrite (splitOn_cons c s). now right.
Qed.

Lemma splitOn_no_separator : forall c s p, In p (splitOn c s) -> ~ In c p.
Proof.
  induction s as [|y s IH]; intros p Hp; simpl in Hp.
  - destruct Hp as [<-|[]]. auto.
  - destruct (ascii_dec y c).
    + destruct Hp as [<-|Hp]; [auto | now apply IH].
    + rewrite (splitOn_cons c s) in Hp. destruct Hp as [<-|Hp].
      * intros [H|H]; [congruence|].
        apply (IH (hd [] (splitOn c s))); [|assumption].
        rewrite (splitOn_cons c s). now left.
      * apply IH. rewrite (splitOn_cons c s). now right.
Qed.

Lemma join_incl : forall sep parts x,
  In x (join sep parts) -> In x sep \/ exists p, In p parts /\ In x p.
Proof.
  induction parts as [|p parts IH]; intros x H; [contradiction|].
  destruct parts as [|q parts].
  - right. exists p. split; [now left | assumption].
  - change (join sep (p :: q :: parts)) with (p ++ sep ++ join sep (q :: parts)) in H.
    apply in_app_or in H. destruct H as [H|H].
    + right. exists p. split; [now left | assumption].
    + apply in_app_or in H. destruct H as [H|H]; [now left|].
      destruct (IH x H) as [H'|(p' & Hp' & Hx)]; [now left|].
      right. exists p'. split; [now right | assumption].
Qed.

Lemma joinComponents_incl : forall content x,
  In x (joinComponents content) ->
  x = ","%char \/ x = " "%char \/ In x content.
Proof.
  intros content x H. unfold joinComponents in H.
  apply join_incl in H. destruct H as [H|(p & Hp & Hx)].
  - simpl in H. destruct H as [<-|[<-|[]]]; auto.
  - apply in_map_iff in Hp. destruct Hp as (p0 & <- & Hp0).
    right. right. apply (splitOn_incl ","%char content p0); [assumption|].
    now apply trim_incl.
Qed.

(** Splitting the rejoined components gives them back, each after the
    first with the blank before it. *)
Lemma splitOn_join : forall parts w,
  ~ In ","%char w ->
  Forall (fun p => ~ In ","%char p) parts -> parts <> [] ->
  splitOn ","%char (w ++ join (lit ", ") parts)
  = (w ++ hd [] parts) :: map (cons " "%char) (tl parts).
Proof.
  induction parts as [|p parts IH]; intros w Hw Hp Hne; [congruence|].
  inversion Hp; subst. destruct parts as [|q parts].
  - simpl. apply splitOn_whole. intros H. apply in_app_or in H.
    destruct H as [H|H]; [exact (Hw H) | exact (H1 H)].
  - change (join (lit ", ") (p :: q :: parts))
      with (p ++ ","%char :: [" "%char] ++ join (lit ", ") (q :: parts)).
    rewrite app_assoc. rewrite splitOn_prefix.
    2:{ intros H. apply in_app_or in H. destruct H as [H|H]; [exact (Hw H) | exact (H1 H)]. }
    cbn [splitOn]. destruct (ascii_dec ","%char ","%char); [|congruence].
    cbn [hd tl]. rewrite app_nil_r.
    rewrite IH; [reflexivity | | assumption | discriminate].
    intros [H|[]]. discriminate.
Qed.

Lemma joinComponents_idem : forall content,
  joinComponents (joinComponents content) = joinComponents content.
Proof.
  intros content. unfold joinComponents at 1 3.
  set (parts := map trim (splitOn ","%char content)).
  assert (Forall (fun p => ~ In ","%char p) parts) as Hc.
  { apply Forall_forall. intros p Hp. apply in_map_iff in Hp.
    destruct Hp as (p0 & <- & Hp0). intros H. apply trim_incl in H.
    exact (splitOn_no_separator _ _ _ Hp0 H). }
  assert (Forall (fun p => trim p = p) parts) as Ht.
  { apply Forall_forall. intros p Hp. apply in_map_iff in Hp.
    destruct Hp as (p0 & <- & _). apply trim_idem. }
  assert (parts <> []) as Hne.
  { unfold parts. rewrite (splitOn_cons ","%char content). discriminate. }
  unfold joinComponents. fold parts.
  pose proof (splitOn_join parts [] (fun H => H) Hc Hne) as E.
  cbn [app] in E. rewrite E. f_equal.
  destruct parts as [|p ps]; [congruence|]. cbn [hd tl map].
  inversion Ht; subst. rewrite H1. f_equal.
  clear - H2. induction ps as [|q ps IH]; [reflexivity|].
  inversion H2; subst. cbn [map]. rewrite IH by assumption. f_equal.
  change (" "%char :: q) with ([" "%char] ++ q).
  rewrite trim_skips_leading; [assumption|]. repeat constructor.
Qed.

Lemma functionalForm_unique : forall name n o c o' c',
  functionalForm name n o c -> functionalForm name n o' c' -> o = o' /\ c = c'.
Proof.
  intros name n o c o' c' (Ho & Hn & _) (Ho' & Hn' & _).
  rewrite Hn in Hn'. clear Hn.
  destruct Ho as [-> | ->], Ho' as [-> | ->];
    rewrite <- !app_assoc in Hn'; apply app_inv_head in Hn'.
  - apply app_inv_head in Hn'. apply app_inv_tail in Hn'. auto.
  - discriminate Hn'.
  - discriminate Hn'.
  - apply app_inv_head in Hn'. apply app_inv_tail in Hn'. auto.
Qed.

Lemma functionalForm_head : forall name n o c,
  functionalForm name n o c -> exists rest, n = name ++ rest.
Proof.
  intros name n o c (Ho & Hn & _).
  destruct Ho as [-> | ->]; rewrite Hn, <- app_assoc; eauto.
Qed.

Lemma join_splitOn : forall c s, join [c] (splitOn c s) = s.
Proof.
  intros c. induction s as [|x s IH]; [reflexivity|].
  cbn [splitOn]. destruct (ascii_dec x c) as [->|Hx].
  - rewrite (splitOn_cons c s). rewrite (splitOn_cons c s) in IH.
    change (join [c] ([] :: hd [] (splitOn c s) :: tl (splitOn c s)))
      with (c :: join [c] (hd [] (splitOn c s) :: tl (splitOn c s))).
    now rewrite IH.
  - destruct (splitOn c s) as [|p [|q r]].
    + cbn [join] in *. now subst.
    + cbn [join] in *. now subst.
    + change (join [c] ((x :: p) :: q :: r)) with (x :: join [c] (p :: q :: r)).
      now rewrite IH.
Qed.

(** Splitting at the commas gives back the pieces that the commas join. *)
Lemma splitOn_pieces : forall pieces,
  Forall (fun piece => ~ In ","%char piece) pieces -> pieces <> [] ->
  splitOn ","%char (join (lit ",") pieces) = pieces.
Proof.
  induction pieces as [|p pieces IH]; intros Hc Hne; [congruence|].
  inversion Hc as [|? ? Hp Hrest]; subst. destruct pieces as [|q pieces].
  - cbn [join]. now apply splitOn_whole.
  - change (join (lit ",") (p :: q :: pieces))
      with (p ++ ","%char :: join (lit ",") (q :: pieces)).
    rewrite splitOn_prefix by assumption. cbn [splitOn].
    destruct (ascii_dec ","%char ","%char); [|congruence].
    cbn [hd tl]. rewrite app_nil_r. now rewrite IH.
Qed.

Lemma functionalForm_names : forall n o c o' c',
  functionalForm (lit "rgb") n o c -> functionalForm (lit "hsl") n o' c' -> False.
Proof.
  intros n o c o' c' H1 H2.
  destruct (functionalForm_head _ _ _ _ H1) as (r1 & E1).
  destruct (functionalForm_head _ _ _ _ H2) as (r2 & E2).
  rewrite E1 in E2. discriminate E2.
Qed.

Ltac functional_example normalized :=
  let Hn := fresh "Hn" in
  assert (CSS_COLORS normalized = None) as Hn
    by (apply (CSS_COLORS_only_names _ "("%char); [simpl; tauto | reflexivity]);
  unfold parseColor;
  match goal with
  | |- context [toLowerCase (trim ?x)] => change (toLowerCase (trim x)) with normalized
  end;
  cbv beta iota; rewrite Hn; reflexivity.

(** C2.  [parseColor] resolves the trimmed, lower-cased input [n] in
    this order: the words [t] and [transparent] give [transparent]; then a
    name of the table gives its value; then [#] and three or six hex
    digits give [#] and six digits, the three doubled one by one; then
    [rgb(...)], [rgba(...)], and then [hsl(...)], [hsla(...)] are kept,
    with the pieces between their commas trimmed and joined again by a
    comma and a blank.  It fails, with [InvalidColor], exactly when [n] is
    empty or of none of these forms.  In particular [#0f0] gives
    [#00ff00], [rgb( 1 ,2,  3 )] gives [rgb(1, 2, 3)] and [#zzz] fails. *)
Theorem parseColor_resolution : forall input : str,
  let n := toLowerCase (trim input) in
  ((n = [] /\ parseColor input = Throw InvalidColor)
   \/ (isKeyword n /\ parseColor input = Ok (lit "transparent"))
   \/ (n <> [] /\ ~ isKeyword n
       /\ exists v, CSS_COLORS n = Some v /\ parseColor input = Ok v /\ hex6 v)
   \/ (~ isKeyword n /\ CSS_COLORS n = None
       /\ exists v, hexForm n v /\ parseColor input = Ok (hexResult v))
   \/ (~ isKeyword n /\ CSS_COLORS n = None
       /\ exists opening pieces,
            functionalForm (lit "rgb") n opening (join (lit ",") pieces)
            /\ Forall (fun piece => ~ In ","%char piece) pieces
            /\ parseColor input
               = Ok (opening ++ join (lit ", ") (map trim pieces) ++ lit ")"))
   \/ (~ isKeyword n /\ CSS_COLORS n = None
       /\ exists opening pieces,
            functionalForm (lit "hsl") n opening (join (lit ",") pieces)
            /\ Forall (fun piece => ~ In ","%char piece) pieces
            /\ parseColor input
               = Ok (opening ++ join (lit ", ") (map trim pieces) ++ lit ")"))
   \/ (unresolvable n /\ parseColor input = Throw InvalidColor))
  /\ (parseColor input = Throw InvalidColor <-> unresolvable n)
  /\ (forall e, parseColor input = Throw e -> e = InvalidColor)
  /\ (forall name opening pieces,
        name = lit "rgb" \/ name = lit "hsl" ->
        functionalForm name n opening (join (lit ",") pieces) ->
        Forall (fun piece => ~ In ","%char piece) pieces ->
        parseColor input = Ok (opening ++ join (lit ", ") (map trim pieces) ++ lit ")"))
  /\ parseColor (lit "#0f0") = Ok (lit "#00ff00")
  /\ parseColor (lit "#zzz") = Throw InvalidColor
  /\ parseColor (lit " RGB( 1 ,2,  3 ) ") = Ok (lit "rgb(1, 2, 3)")
  /\ parseColor (lit "rgba(0,0,0,0.5)") = Ok (lit "rgba(0, 0, 0, 0.5)")
  /\ parseColor (lit "hsl(210,50%,40%)") = Ok (lit "hsl(210, 50%, 40%)")
  /\ parseColor (lit "HSLA( 210 , 50% , 40% , 1 )") = Ok (lit "hsla(210, 50%, 40%, 1)").
Proof using CSS_COLORS_names CSS_COLORS_hex.
  clear parseFloat Math_pow Number_toString decodeURIComponent.
  intros input n. pose proof (parseColor_cases input) as C. fold n in C.
  assert (forall opening content,
            exists pieces,
              content = join (lit ",") pieces
              /\ Forall (fun piece => ~ In ","%char piece) pieces
              /\ opening ++ joinComponents content ++ lit ")"
                 = opening ++ join (lit ", ") (map trim pieces) ++ lit ")") as Hpieces.
  { intros opening content. exists (splitOn ","%char content).
    split; [symmetry; apply join_splitOn|]. split; [|reflexivity].
    apply Forall_forall. intros piece Hp. exact (splitOn_no_separator _ _ _ Hp). }
  split; [|split; [|split; [|split; [|split; [|split; [|split; [|split; [|split]]]]]]]].
  - destruct C as [C|[C|[C|[C|[C|[C|C]]]]]]; auto 10.
    + destruct C as (Hne & Hk & v & Hv & Hp).
      do 2 right. left. repeat split; auto. exists v. repeat split; auto.
      exact (CSS_COLORS_hex _ _ Hv).
    + destruct C as (Hk & Ht & opening & content & Hf & Hp).
      destruct (Hpieces opening content) as (pieces & -> & Hc & E).
      do 4 right. left. split; [exact Hk|]. split; [exact Ht|].
      exists opening, pieces. split; [exact Hf|]. split; [exact Hc|].
      rewrite Hp. now rewrite E.
    + destruct C as (Hk & Ht & opening & content & Hf & Hp).
      destruct (Hpieces opening content) as (pieces & -> & Hc & E).
      do 5 right. left. split; [exact Hk|]. split; [exact Ht|].
      exists opening, pieces. split; [exact Hf|]. split; [exact Hc|].
      rewrite Hp. now rewrite E.
    + destruct C as (Hne & Hk & Ht & Hh & Hr & Hs & Hp).
      do 6 right. split; [|assumption]. right. auto.
  - split.
    + intros H. destruct C as [C|[C|[C|[C|[C|[C|C]]]]]].
      * left. tauto.
      * destruct C as (_ & C). congruence.
      * destruct C as (_ & _ & v & _ & C). congruence.
      * destruct C as (_ & _ & v & _ & C). congruence.
      * destruct C as (_ & _ & o & c & _ & C). congruence.
      * destruct C as (_ & _ & o & c & _ & C). congruence.
      * right. tauto.
    + intros U. destruct C as [C|[C|[C|[C|[C|[C|C]]]]]]; try tauto; exfalso.
      * destruct C as (Hk & _). destruct U as [U|U]; [|tauto].
        now apply (isKeyword_nonempty n).
      * destruct C as (Hne & _ & v & Hv & _). destruct U as [U|(_ & U & _)]; congruence.
      * destruct C as (_ & _ & v & Hv & _). destruct U as [U|(_ & _ & U & _)].
        -- now apply (hexForm_nonempty n v).
        -- now apply (U v).
      * destruct C as (_ & _ & o & c & Hf & _). destruct U as [U|(_ & _ & _ & U & _)].
        -- now apply (functionalForm_nonempty _ n o c Hf).
        -- now apply (U o c).
      * destruct C as (_ & _ & o & c & Hf & _). destruct U as [U|(_ & _ & _ & _ & U)].
        -- now apply (functionalForm_nonempty _ n o c Hf).
        -- now apply (U o c).
  - intros e H. destruct C as [C|[C|[C|[C|[C|[C|C]]]]]].
    + destruct C as (_ & C). congruence.
    + destruct C as (_ & C). congruence.
    + destruct C as (_ & _ & v & _ & C). congruence.
    + destruct C as (_ & _ & v & _ & C). congruence.
    + destruct C as (_ & _ & o & c & _ & C). congruence.
    + destruct C as (_ & _ & o & c & _ & C). congruence.
    + destruct C as (_ & _ & _ & _ & _ & _ & C). congruence.
  - intros name opening pieces Hname Hf Hc.
    assert (pieces <> []) as Hne.
    { intros ->. destruct Hf as (_ & _ & Hf & _). now apply Hf. }
    assert (joinComponents (join (lit ",") pieces) = join (lit ", ") (map trim pieces))
      as Hj by (unfold joinComponents; now rewrite splitOn_pieces).
    assert (In "("%char n) as Hin.
    { destruct Hf as (Ho & -> & _). apply in_or_app. left.
      destruct Hname as [-> | ->], Ho as [-> | ->]; simpl; tauto. }
    destruct C as [C|[C|[C|[C|[C|[C|C]]]]]].
    + exfalso. destruct C as (C & _). now apply (functionalForm_nonempty _ _ _ _ Hf).
    + exfalso. destruct C as ([C|C] & _); rewrite C in Hin; simpl in Hin;
        repeat (destruct Hin as [Hin|Hin]; [discriminate Hin|]); exact Hin.
    + exfalso. destruct C as (_ & _ & v & Hv & _).
      rewrite (CSS_COLORS_only_names n "("%char Hin eq_refl) in Hv. discriminate Hv.
    + exfalso. destruct C as (_ & _ & v & (Hv & Hh & _) & _). rewrite Hv in Hin.
      destruct Hin as [Hin|Hin]; [discriminate Hin|].
      rewrite Forall_forall in Hh. apply Hh in Hin. discriminate Hin.
    + destruct C as (_ & _ & o & c & Hf' & ->).
      destruct Hname as [-> | ->].
      * destruct (functionalForm_unique _ _ _ _ _ _ Hf Hf') as [<- <-].
        now rewrite Hj.
      * exfalso. exact (functionalForm_names _ _ _ _ _ Hf' Hf).
    + destruct C as (_ & _ & o & c & Hf' & ->).
      destruct Hname as [-> | ->].
      * exfalso. exact (functionalForm_names _ _ _ _ _ Hf Hf').
      * destruct (functionalForm_unique _ _ _ _ _ _ Hf Hf') as [<- <-].
        now rewrite Hj.
    + exfalso. destruct C as (_ & _ & _ & _ & Hr & Hs & _).
      destruct Hname as [-> | ->]; [exact (Hr _ _ Hf) | exact (Hs _ _ Hf)].
  - assert (CSS_COLORS (lit "#0f0") = None) as Hn.
    { apply (CSS_COLORS_only_names _ "#"%char); [now left | reflexivity]. }
    unfold parseColor.
    change (toLowerCase (trim (lit "#0f0"))) with (lit "#0f0").
    cbv beta iota. rewrite Hn. reflexivity.
  - assert (CSS_COLORS (lit "#zzz") = None) as Hn.
    { apply (CSS_COLORS_only_names _ "#"%char); [now left | reflexivity]. }
    unfold parseColor.
    change (toLowerCase (trim (lit "#zzz"))) with (lit "#zzz").
    cbv beta iota. rewrite Hn. reflexivity.
  - functional_example (lit "rgb( 1 ,2,  3 )").
  - functional_example (lit "rgba(0,0,0,0.5)").
  - functional_example (lit "hsl(210,50%,40%)").
  - functional_example (lit "hsla( 210 , 50% , 40% , 1 )").
Qed.

Lemma functional_result_fixed : forall name n opening content,
  name = lit "rgb" \/ name = lit "hsl" ->
  Forall (fun c => lowerChar c = c) n ->
  functionalForm name n opening content ->
  joinComponents content <> [] ->
  parseColor (opening ++ joinComponents content ++ lit ")")
  = Ok (opening ++ joinComponents content ++ lit ")").
Proof using CSS_COLORS_names.
  clear parseFloat Math_pow Number_toString decodeURIComponent CSS_COLORS_hex.
  intros name n opening content Hname Hfix Hf Hj.
  set (J := joinComponents content) in *.
  set (v := opening ++ J ++ lit ")").
  destruct Hf as (Ho & Hn & Hne & Hc).
  assert (functionalForm name v opening J) as Hv.
  { repeat split; auto. intros H. apply joinComponents_incl in H.
    destruct H as [H|[H|H]]; [discriminate H | discriminate H | auto]. }
  assert (Forall (fun c => lowerChar c = c) v) as Hvfix.
  { rewrite Hn in Hfix. apply Forall_app in Hfix. destruct Hfix as [H1 H2].
    apply Forall_app in H2. destruct H2 as [H2 H3].
    unfold v. apply Forall_app. split; [assumption|].
    apply Forall_app. split; [|assumption].
    apply Forall_forall. intros x Hx. apply joinComponents_incl in Hx.
    destruct Hx as [->|[->|Hx]]; [reflexivity | reflexivity |].
    rewrite Forall_forall in H2. now apply H2. }
  assert (toLowerCase (trim v) = v) as Hnorm.
  { rewrite trim_clean; [now apply toLowerCase_fixed| |].
    - unfold v. destruct Hname as [-> | ->], Ho as [-> | ->];
        now apply startsClean_cons.
    - unfold v. rewrite app_assoc. now apply endsClean_snoc. }
  assert (CSS_COLORS v = None) as Ht.
  { apply (CSS_COLORS_only_names _ "("%char); [|reflexivity].
    unfold v. apply in_or_app. left.
    destruct Hname as [-> | ->], Ho as [-> | ->]; simpl; auto 10. }
  pose proof (parseColor_cases v) as C. cbv zeta in C. rewrite Hnorm in C.
  destruct (functionalForm_head _ _ _ _ Hv) as (rest & Hrest).
  destruct C as [C|[C|[C|[C|[C|[C|C]]]]]].
  - destruct C as (C & _). exfalso. exact (functionalForm_nonempty _ _ _ _ Hv C).
  - destruct C as (C & _). exfalso. rewrite Hrest in C.
    destruct Hname as [-> | ->], C as [C|C]; discriminate C.
  - destruct C as (_ & _ & x & C & _). congruence.
  - destruct C as (_ & _ & x & (C & _) & _). exfalso. rewrite Hrest in C.
    destruct Hname as [-> | ->]; discriminate C.
  - destruct C as (_ & _ & o & c & Hf & Hp).
    destruct Hname as [-> | ->].
    + destruct (functionalForm_unique _ _ _ _ _ _ Hf Hv) as [-> ->].
      rewrite Hp. unfold J. now rewrite joinComponents_idem.
    + exfalso. destruct (functionalForm_head _ _ _ _ Hf) as (r' & Hr').
      rewrite Hrest in Hr'. discriminate Hr'.
  - destruct C as (_ & _ & o & c & Hf & Hp).
    destruct Hname as [-> | ->].
    + exfalso. destruct (functionalForm_head _ _ _ _ Hf) as (r' & Hr').
      rewrite Hrest in Hr'. discriminate Hr'.
    + destruct (functionalForm_unique _ _ _ _ _ _ Hf Hv) as [-> ->].
      rewrite Hp. unfold J. now rewrite joinComponents_idem.
  - destruct C as (_ & _ & _ & _ & Hr & Hs & _). exfalso.
    destruct Hname as [-> | ->]; [exact (Hr _ _ Hv) | exact (Hs _ _ Hv)].
Qed.

Lemma empty_components : forall name n opening content,
  name = lit "rgb" \/ name = lit "hsl" ->
  functionalForm name n opening content ->
  joinComponents content = [] ->
  In (opening ++ joinComponents content ++ lit ")") emptyFunctional.
Proof.
  intros name n opening content Hname (Ho & _) ->.
  destruct Hname as [-> | ->], Ho as [-> | ->]; simpl; auto.
Qed.

(** C10, as amended.  For every input on which [parseColor] succeeds with
    a result other than [rgb()], [rgba()], [hsl()] and [hsla()], that result
    is a fixed point: [parseColor] maps it to itself.  The four results
    left out are what [parseColor] returns when only white space stands
    between the parentheses, and [parseColor] rejects each of them. *)
Theorem parseColor_idempotent : forall s v : str,
  parseColor s = Ok v ->
  ~ In v emptyFunctional ->
  parseColor v = Ok v
  /\ (forall e, In e emptyFunctional -> parseColor e = Throw InvalidColor).
Proof using CSS_COLORS_names CSS_COLORS_hex.
  clear parseFloat Math_pow Number_toString decodeURIComponent.
  intros s v Hs Hv. split.
  - pose proof (parseColor_cases s) as C. cbv zeta in C.
    pose proof (toLowerCase_is_fixed (trim s)) as Hfix.
    destruct C as [C|[C|[C|[C|[C|[C|C]]]]]].
    + destruct C as (_ & C). congruence.
    + destruct C as (_ & C). assert (v = lit "transparent") as -> by congruence.
      reflexivity.
    + destruct C as (_ & _ & x & Hx & C). assert (v = x) as -> by congruence.
      apply parseColor_hex6. exact (CSS_COLORS_hex _ _ Hx).
    + destruct C as (_ & _ & x & Hx & C).
      assert (v = hexResult x) as -> by congruence.
      apply parseColor_hex6. exact (hexResult_hex6 _ _ Hx).
    + destruct C as (_ & _ & o & c & Hf & C).
      assert (v = o ++ joinComponents c ++ lit ")") as -> by congruence.
      destruct (list_eq_dec ascii_dec (joinComponents c) []) as [Ej|Ej].
      * exfalso. apply Hv.
        apply (empty_components (lit "rgb") (toLowerCase (trim s)) o c); auto.
      * apply (functional_result_fixed (lit "rgb") (toLowerCase (trim s)) o c); auto.
    + destruct C as (_ & _ & o & c & Hf & C).
      assert (v = o ++ joinComponents c ++ lit ")") as -> by congruence.
      destruct (list_eq_dec ascii_dec (joinComponents c) []) as [Ej|Ej].
      * exfalso. apply Hv.
        apply (empty_components (lit "hsl") (toLowerCase (trim s)) o c); auto.
      * apply (functional_result_fixed (lit "hsl") (toLowerCase (trim s)) o c); auto.
    + destruct C as (_ & _ & _ & _ & _ & _ & C). congruence.
  - intros e He. unfold emptyFunctional in He. simpl in He.
    assert (forall k, In "("%char k -> CSS_COLORS k = None) as Ht.
    { intros k Hk. now apply (CSS_COLORS_only_names k "("%char). }
    destruct He as [<-|[<-|[<-|[<-|[]]]]]; unfold parseColor;
      match goal with
      | |- context [toLowerCase (trim ?l)] =>
          let l' := eval vm_compute in (toLowerCase (trim l)) in
          change (toLowerCase (trim l)) with l'; cbv beta iota;
          rewrite (Ht l') by (simpl; auto 10)
      end; reflexivity.
Qed.

(** ** C3: autoContrast *)

Hypothesis Math_pow_one : Math_pow 1 2.4 = 1%float.

Lemma rgbToLuminance_spec : forall c, rgbToLuminance c = luminanceSpec c.
Proof. intros [[r g] b]. reflexivity. Qed.

Lemma lowerHex_isHex : forall c, isLowerHex c = true -> isHex c = true.
Proof. intros c H. unfold isHex. now rewrite H. Qed.

Lemma matchHex_matchHexI : forall s v, matchHex s = Some v -> matchHexI s = Some v.
Proof.
  intros s v H. apply matchHex_spec in H. destruct H as (-> & Hv & Hl).
  unfold matchHexI.
  assert (forallb isHex v = true) as ->.
  { apply forallb_Forall. eapply Forall_impl; [|exact Hv]. apply lowerHex_isHex. }
  destruct Hl as [-> | ->]; reflexivity.
Qed.

Lemma hexToRgb_total : forall s v, matchHex s = Some v -> exists c, hexToRgb s = Ok c.
Proof.
  intros s v H. unfold hexToRgb, normalizeHex.
  rewrite (matchHex_matchHexI s v H).
  destruct (length v =? 3)%nat; simpl; eauto.
Qed.

Lemma hex6_matchHex : forall v, hex6 v -> exists h, matchHex v = Some h.
Proof.
  intros v (h & -> & Hl & Hh). exists h. apply matchHex_spec. repeat split; auto.
Qed.

Lemma colorToRgb_total : forall color, exists c, colorToRgb color = Ok c.
Proof using CSS_COLORS_hex.
  clear CSS_COLORS_names Math_pow_one.
  intros color. unfold colorToRgb.
  destruct (str_eqb _ _); [eauto|].
  destruct (matchHex _) as [v|] eqn:Eh.
  { destruct (hexToRgb_total _ _ Eh) as (c & ->). simpl. eauto. }
  destruct (matchFunctional (lit "rgb") _) as [g|].
  { destruct (map parseRgbPart _) as [|[r|] [|[g'|] [|[b|] [|? ?]]]]; eauto. }
  destruct (matchFunctional (lit "hsl") _) as [g|].
  { destruct (map trim _) as [|p0 [|p1 [|p2 ?]]]; eauto.
    destruct (_ || _); eauto. }
  destruct (CSS_COLORS _) as [hex|] eqn:Et; [|eauto].
  apply CSS_COLORS_hex in Et. destruct (hex6_matchHex _ Et) as (h & Hh).
  destruct (hexToRgb_total _ _ Hh) as (c & ->). simpl. eauto.
Qed.

(** ** C5: the scale in buildSVG *)

Lemma SFcompare_antisym : forall x y,
  SFcompare y x = match SFcompare x y with
                  | Some c => Some (CompOpp c)
                  | None => None
                  end.
Proof.
  intros [sx| sx| |sx mx ex] [sy| sy| |sy my ey]; simpl;
    try (destruct sx); try (destruct sy); try reflexivity;
    rewrite (Z.compare_antisym ex ey); destruct (ex ?= ey)%Z; simpl; try reflexivity;
    rewrite (Pos.compare_cont_antisym mx my Eq); simpl;
    destruct (Pos.compare_cont Eq mx my); reflexivity.
Qed.

Lemma SFcompare_Some : forall x y,
  x <> S754_nan -> y <> S754_nan -> exists c, SFcompare x y = Some c.
Proof.
  intros [sx| sx| |sx mx ex] [sy| sy| |sy my ey] Hx Hy; simpl; try congruence; eauto.
Qed.

Lemma Prim2SF_not_nan : forall x, is_nan x = false -> Prim2SF x <> S754_nan.
Proof.
  intros x H. unfold Prim2SF. rewrite H.
  destruct (is_zero x); [discriminate|].
  destruct (is_infinity x); [discriminate|].
  destruct (Z.frexp x) as [r e].
  destruct (shr_fexp _ _ _ _ _) as [sh e'].
  destruct (shr_m sh); discriminate.
Qed.

Lemma ltb_leb : forall x y, (x <? y)%float = true -> (x <=? y)%float = true.
Proof.
  intros x y. rewrite ltb_spec, leb_spec. unfold SFltb, SFleb.
  destruct (SFcompare _ _) as [[]|]; congruence.
Qed.

Lemma not_ltb_leb : forall x y,
  is_nan x = false -> is_nan y = false ->
  (y <? x)%float = false -> (x <=? y)%float = true.
Proof.
  intros x y Hx Hy. rewrite ltb_spec, leb_spec. unfold SFltb, SFleb.
  rewrite (SFcompare_antisym (Prim2SF x) (Prim2SF y)).
  destruct (SFcompare_Some _ _ (Prim2SF_not_nan x Hx) (Prim2SF_not_nan y Hy)) as (c & ->).
  destruct c; simpl; congruence.
Qed.

(** For every scale that is a number, the clamped scale is in [1, 4]. *)
Lemma clampedScale_range : forall scale,
  is_nan scale = false ->
  (1 <=? clampedScaleOf scale)%float = true
  /\ (clampedScaleOf scale <=? 4)%float = true.
Proof.
  intros scale Hs. unfold clampedScaleOf.
  assert (is_nan (Math_min scale 4) = false
          /\ (Math_min scale 4 <=? 4)%float = true) as [Hm Hm4].
  { unfold Math_min. rewrite Hs. cbn [orb].
    change (is_nan 4) with false. cbv iota.
    destruct (scale <? 4)%float eqn:E1; [split; [assumption | now apply ltb_leb]|].
    destruct (4 <? scale)%float eqn:E2; [split; reflexivity|].
    destruct (get_sign scale); [|split; reflexivity].
    split; [assumption|]. now apply not_ltb_leb. }
  unfold Math_max. rewrite Hm. change (is_nan 1) with false. cbn [orb]. cbv iota.
  destruct (1 <? Math_min scale 4)%float eqn:E1; [split; [now apply ltb_leb | assumption]|].
  destruct (Math_min scale 4 <? 1)%float eqn:E2; [split; reflexivity|].
  change (get_sign 1) with false. cbv iota. split; reflexivity.
Qed.

(** The root element for a scale that is a number: the attributes
    [width] and [height] are the dimensions as given, and the [viewBox]
    is the canvas of the clamped scale. *)
Lemma buildSVG_scale_clamped : forall o,
  is_nan (orDefault (SvgOptions.scale o) 1%float) = false ->
  (1 <=? scaleOf o)%float = true
  /\ (scaleOf o <=? 4)%float = true
  /\ canvasWidth o = intMax 1 (Math_round (SvgOptions.width o * scaleOf o)%float)
  /\ canvasHeight o = intMax 1 (Math_round (SvgOptions.height o * scaleOf o)%float)
  /\ exists label rest,
       buildSVG o
       = lit "<svg xmlns=" ++ quoted (lit "http://www.w3.org/2000/svg")
         ++ lit " width=" ++ quoted (num (SvgOptions.width o))
         ++ lit " height=" ++ quoted (num (SvgOptions.height o))
         ++ lit " viewBox="
         ++ quoted (lit "0 0 " ++ num (ofInt (canvasWidth o)) ++ lit " "
                    ++ num (ofInt (canvasHeight o)))
         ++ lit " role=" ++ quoted (lit "img")
         ++ lit " aria-label=" ++ quoted label ++ lit ">" ++ rest.
Proof.
  intros o Hs. destruct (clampedScale_range _ Hs) as [H1 H4].
  repeat split; auto.
  exists (escapeXML (labelOf o)), (filterDefsOf o ++ rectOf o ++ textPartOf o ++ lit "</svg>").
  rewrite buildSVG_structure. unfold svgOpen.
  repeat rewrite <- app_assoc. reflexivity.
Qed.

(** C5 fails at the scale NaN: [Math.min] and [Math.max] let NaN
    through, the clamped scale is NaN and not a number of [1, 4], and the
    [viewBox] is made of two NaN. *)
Theorem buildSVG_scale_NaN :
  let o := plainOptions 600 300 (Some nan) in
  is_nan (scaleOf o) = true
  /\ (1 <=? scaleOf o)%float = false
  /\ (scaleOf o <=? 4)%float = false
  /\ canvasWidth o = NaNi
  /\ canvasHeight o = NaNi
  /\ buildSVG o
     = lit "<svg xmlns=" ++ quoted (lit "http://www.w3.org/2000/svg")
       ++ lit " width=" ++ quoted (num 600)
       ++ lit " height=" ++ quoted (num 300)
       ++ lit " viewBox=" ++ quoted (lit "0 0 " ++ num nan ++ lit " " ++ num nan)
       ++ lit " role=" ++ quoted (lit "img")
       ++ lit " aria-label=" ++ quoted (escapeXML (num 600 ++ lit "x" ++ num 300))
       ++ lit "><rect width=" ++ quoted (num nan) ++ lit " height=" ++ quoted (num nan)
       ++ lit " fill=" ++ quoted (lit "#dddddd") ++ lit " /></svg>".
Proof.
  cbv zeta. repeat split.
  rewrite buildSVG_structure.
  unfold svgOpen, filterDefsOf, rectOf, textPartOf, captionLines, labelOf, buildRect,
    roundCornerAttr, strokeAttributes, shadowAttr, quoted.
  change (canvasWidth (plainOptions 600 300 (Some nan))) with NaNi.
  change (canvasHeight (plainOptions 600 300 (Some nan))) with NaNi.
  cbn -[num escapeXML].
  repeat (rewrite <- app_assoc; cbn -[num escapeXML]).
  reflexivity.
Qed.

(** ** C6: the fingerprint *)

Lemma bigEndian_length : forall n x, length (bigEndian n x) = n.
Proof. induction n as [|n IH]; intros x; simpl; [reflexivity | now rewrite IH]. Qed.

Lemma bigEndian_bytes : forall n x, Forall (fun b => 0 <= b < 256) (bigEndian n x).
Proof.
  induction n as [|n IH]; intros x; cbn [bigEndian]; constructor; [|apply IH].
  apply Z.mod_pos_bound. lia.
Qed.

Lemma sha256_length : forall msg, length (sha256 msg) = 32%nat.
Proof.
  intros msg. unfold sha256.
  destruct (sha_blocks _ _ _) as [[[[[[[a b] c] d] e] f] g] h].
  cbn [flat_map]. rewrite !length_app, !bigEndian_length. reflexivity.
Qed.

Lemma sha256_bytes : forall msg, Forall (fun b => 0 <= b < 256) (sha256 msg).
Proof.
  intros msg. unfold sha256.
  destruct (sha_blocks _ _ _) as [[[[[[[a b] c] d] e] f] g] h].
  cbn [flat_map]. repeat (apply Forall_app; split); try apply bigEndian_bytes.
  constructor.
Qed.

Lemma byte_cases : forall b, 0 <= b < 256 -> In b (map Z.of_nat (seq 0 256)).
Proof.
  intros b Hb. apply in_map_iff. exists (Z.to_nat b). split; [lia|].
  apply in_seq. lia.
Qed.

Lemma hexByte_shape : forall b, 0 <= b < 256 ->
  length (hexByte b) = 2%nat /\ Forall (fun c => isLowerHex c = true) (hexByte b).
Proof.
  intros b Hb.
  assert (forallb (fun b => (length (hexByte b) =? 2)%nat && forallb isLowerHex (hexByte b))
            (map Z.of_nat (seq 0 256)) = true) as H by (vm_compute; reflexivity).
  rewrite forallb_forall in H. specialize (H b (byte_cases b Hb)).
  apply andb_true_iff in H. destruct H as [H1 H2].
  apply Nat.eqb_eq in H1. apply forallb_Forall in H2. auto.
Qed.

Lemma hex_of_bytes : forall bytes,
  Forall (fun b => 0 <= b < 256) bytes ->
  length (join [] (map hexByte bytes)) = (2 * length bytes)%nat
  /\ Forall (fun c => isLowerHex c = true) (join [] (map hexByte bytes)).
Proof.
  intros bytes H. rewrite join_nil_concat.
  induction H as [|b bytes Hb _ [IH1 IH2]]; [split; [reflexivity | constructor]|].
  destruct (hexByte_shape b Hb) as [H1 H2].
  cbn [map concat length]. rewrite length_app, H1, IH1. split; [lia|].
  apply Forall_app. auto.
Qed.

Lemma slice_prefix : forall {A} (l : list A) (n : nat),
  (n <= length l)%nat -> slice l 0 (Z.of_nat n) = firstn n l.
Proof.
  intros A l n H. unfold slice, sliceIndex.
  assert ((0 <? 0) = false) as -> by reflexivity.
  assert ((Z.of_nat n <? 0) = false) as -> by (apply Z.ltb_ge; lia).
  rewrite Nat2Z.id. change (Z.to_nat 0) with 0%nat.
  rewrite Nat.min_0_r, Nat.sub_0_r. cbn [skipn].
  now rewrite Nat.min_r by lia.
Qed.

Lemma Forall_firstn : forall {A} (P : A -> Prop) n l, Forall P l -> Forall P (firstn n l).
Proof.
  intros A P n l H. rewrite <- (firstn_skipn n l) in H.
  apply Forall_app in H. tauto.
Qed.

Lemma Forall_skipn : forall {A} (P : A -> Prop) n l, Forall P l -> Forall P (skipn n l).
Proof.
  intros A P n l H. rewrite <- (firstn_skipn n l) in H.
  apply Forall_app in H. tauto.
Qed.

Lemma hashString_shape : forall value,
  length (hashString value) = 32%nat
  /\ Forall (fun c => isLowerHex c = true) (hashString value).
Proof.
  intros value. unfold hashString.
  destruct (hex_of_bytes _ (sha256_bytes (utf8Encode value))) as [H1 H2].
  rewrite sha256_length in H1.
  change 32 with (Z.of_nat 32). rewrite slice_prefix by (rewrite H1; lia).
  split.
  - rewrite length_firstn, H1. reflexivity.
  - now apply Forall_firstn.
Qed.

Lemma fieldwiseEqual_eq : forall a b, fieldwiseEqual a b -> a = b.
Proof.
  intros [] [] H. unfold fieldwiseEqual in H. cbn in H.
  repeat match goal with H : _ /\ _ |- _ => destruct H end. subst. reflexivity.
Qed.

(** [respond] first resolves the configuration, from the path and the
    query alone; every response it then builds carries the quoted
    fingerprint of that configuration as its ETag. *)
Lemma respond_etag : forall request dims rest,
  lookupOf request = Ok (dims :: rest) ->
  match resolveRequest dims rest (Request.searchParams request) with
  | Ok c =>
      exists response,
        respond request = Ok response
        /\ etagOf response = Some (quoted (fingerprint c))
  | Throw e => respond request = Throw e
  end.
Proof.
  intros request dims rest Hl. unfold respond, resolveRequest. rewrite Hl.
  cbn [bind].
  destruct (parseDims dims) as [d|e]; [|reflexivity]. cbn [bind].
  destruct (if truthy (nth_error rest 0) then _ else _) as [background|e];
    [|reflexivity]. cbn [bind].
  destruct (if truthy (nth_error rest 1) then _ else _) as [foreground|e];
    [|reflexivity]. cbn [bind].
  unfold renderSvg.
  destruct (resolveConfig _) as [c|e]; [|reflexivity]. cbn [bind].
  fold (fingerprint c).
  destruct (match headersGet (Request.headers request) (lit "If-None-Match") with
            | Some v => str_eqb v (quoted (fingerprint c))
            | None => false
            end);
    [|destruct (str_eqb (Request.method request) (lit "HEAD"))];
    eexists; (split; [reflexivity|]); reflexivity.
Qed.

Lemma fetch_etag : forall request dims rest,
  lookupOf request = Ok (dims :: rest) ->
  Request.method request <> lit "OPTIONS" ->
  etagOf (fetch request)
  = match resolveRequest dims rest (Request.searchParams request) with
    | Ok c => Some (quoted (fingerprint c))
    | Throw _ => None
    end.
Proof.
  intros request dims rest Hl Hm. unfold fetch.
  apply str_eqb_neq in Hm. rewrite Hm.
  pose proof (respond_etag request dims rest Hl) as H.
  destruct (resolveRequest dims rest (Request.searchParams request)) as [c|e].
  - destruct H as (response & -> & He). exact He.
  - rewrite H. reflexivity.
Qed.

(** C6.  The fingerprint of a resolved configuration is 32 characters of
    [0-9a-f]; two configurations whose fields are equal one by one have
    the same fingerprint.  The ETag of a response is the quoted
    fingerprint of the configuration resolved from the decoded path
    segments and the query, so two requests with the same path and query
    get the same ETag whatever their headers and their method (the method
    OPTIONS apart, which is answered without any rendering). *)
Theorem fingerprint_spec :
  (forall c,
     length (fingerprint c) = 32%nat
     /\ Forall (fun ch => isLowerHex ch = true) (fingerprint c))
  /\ (forall a b, fieldwiseEqual a b -> fingerprint a = fingerprint b)
  /\ (forall request dims rest,
        lookupOf request = Ok (dims :: rest) ->
        Request.method request <> lit "OPTIONS" ->
        etagOf (fetch request)
        = match resolveRequest dims rest (Request.searchParams request) with
          | Ok c => Some (quoted (fingerprint c))
          | Throw _ => None
          end)
  /\ (forall r1 r2,
        lookupOf r1 = lookupOf r2 ->
        Request.searchParams r1 = Request.searchParams r2 ->
        Request.method r1 <> lit "OPTIONS" ->
        Request.method r2 <> lit "OPTIONS" ->
        etagOf (fetch r1) = etagOf (fetch r2)).
Proof.
  split; [|split; [|split]].
  - intros c. apply hashString_shape.
  - intros a b H. now rewrite (fieldwiseEqual_eq a b H).
  - exact fetch_etag.
  - intros r1 r2 Hl Hp H1 H2.
    destruct (lookupOf r1) as [[|dims rest]|e] eqn:E1.
    + unfold fetch, respond. rewrite <- Hl, E1.
      apply str_eqb_neq in H1, H2. rewrite H1, H2. reflexivity.
    + rewrite (fetch_etag r1 dims rest E1 H1).
      rewrite (fetch_etag r2 dims rest (eq_sym Hl) H2).
      now rewrite Hp.
    + unfold fetch, respond. rewrite <- Hl, E1.
      apply str_eqb_neq in H1, H2. rewrite H1, H2. cbn [bind].
      destruct e; reflexivity.
Qed.

(** ** C4 and C8: text wrapping *)

Lemma dropWhile_length : forall {A} (p : A -> bool) l,
  (length (dropWhile p l) <= length l)%nat.
Proof.
  induction l as [|x l IH]; simpl; [lia|]. destruct (p x); simpl; lia.
Qed.

Lemma startsClean_head : forall c s, startsClean (c :: s) <-> isWhiteSpace c = false.
Proof.
  intros c s. split; [|apply startsClean_cons].
  unfold startsClean. simpl. destruct (isWhiteSpace c); [|reflexivity].
  intros H. pose proof (dropWhile_length isWhiteSpace s) as L.
  rewrite H in L. simpl in L. lia.
Qed.

Lemma endsClean_last : forall s c, endsClean (s ++ [c]) <-> isWhiteSpace c = false.
Proof.
  intros s c. unfold endsClean. rewrite rev_app_distr. simpl.
  apply (startsClean_head c (rev s)).
Qed.

Lemma endsClean_tail : forall c s, s <> [] -> endsClean (c :: s) -> endsClean s.
Proof.
  intros c s Hne H. destruct (exists_last Hne) as (m & z & ->).
  change (c :: m ++ [z]) with ((c :: m) ++ [z]) in H.
  apply endsClean_last in H. now apply endsClean_last.
Qed.

Lemma noSpace_clean : forall w, w <> [] -> noSpace w -> cleanLine w.
Proof.
  intros w Hne Hw. split; [assumption|]. split.
  - destruct w as [|c w]; [congruence|]. inversion Hw; subst. now apply startsClean_cons.
  - destruct (exists_last Hne) as (m & z & ->). apply endsClean_last.
    unfold noSpace in Hw. rewrite Forall_forall in Hw. apply Hw.
    apply in_or_app. right. now left.
Qed.

Lemma cleanLine_trim : forall l, cleanLine l -> trim l = l.
Proof. intros l (_ & Hs & He). now apply trim_clean. Qed.

Lemma trim_cleanLine : forall s, trim s <> [] -> cleanLine (trim s).
Proof.
  intros s H. split; [assumption|]. split; [apply trim_startsClean | apply trim_endsClean].
Qed.

(** The words of a trimmed text. *)
Lemma splitWhiteSpace_step : forall x s,
  splitWhiteSpace (x :: s)
  = if isWhiteSpace x then
      match s with
      | y :: _ => if isWhiteSpace y then splitWhiteSpace s else [] :: splitWhiteSpace s
      | [] => [[]; []]
      end
    else match splitWhiteSpace s with
         | p :: ps => (x :: p) :: ps
         | [] => [[x]]
         end.
Proof. reflexivity. Qed.

Lemma splitWhiteSpace_nonnil : forall s, splitWhiteSpace s <> [].
Proof.
  induction s as [|x s IH]; [discriminate|].
  cbn [splitWhiteSpace]. destruct (isWhiteSpace x).
  - destruct s as [|y s]; [discriminate|].
    destruct (isWhiteSpace y); [exact IH | discriminate].
  - destruct (splitWhiteSpace s); discriminate.
Qed.

Lemma splitWhiteSpace_cons : forall s,
  splitWhiteSpace s = hd [] (splitWhiteSpace s) :: tl (splitWhiteSpace s).
Proof.
  intros s. pose proof (splitWhiteSpace_nonnil s) as H.
  destruct (splitWhiteSpace s); [congruence | reflexivity].
Qed.

Lemma splitWhiteSpace_noSpace : forall s, Forall noSpace (splitWhiteSpace s).
Proof.
  induction s as [|x s IH]; [repeat constructor|].
  simpl. destruct (isWhiteSpace x) eqn:Ex.
  - destruct s as [|y s]; [repeat constructor|].
    destruct (isWhiteSpace y); [assumption|]. constructor; [constructor | assumption].
  - rewrite (splitWhiteSpace_cons s) in IH |- *. inversion IH; subst.
    constructor; [|assumption]. constructor; assumption.
Qed.

Lemma splitWhiteSpace_head : forall x s,
  isWhiteSpace x = false -> hd [] (splitWhiteSpace (x :: s)) <> [].
Proof.
  intros x s H. simpl. rewrite H. rewrite (splitWhiteSpace_cons s). discriminate.
Qed.

Lemma splitWhiteSpace_tail : forall s,
  s <> [] -> endsClean s -> Forall (fun w => w <> []) (tl (splitWhiteSpace s)).
Proof.
  induction s as [|x s IH]; intros Hne He; [congruence|].
  destruct s as [|y s].
  - apply (endsClean_last [] x) in He. simpl. rewrite He. constructor.
  - assert (endsClean (y :: s)) as He' by (apply (endsClean_tail x); [discriminate | assumption]).
    specialize (IH ltac:(discriminate) He').
    rewrite splitWhiteSpace_step. destruct (isWhiteSpace x) eqn:Ex.
    + destruct (isWhiteSpace y) eqn:Ey; [exact IH|].
      cbn [tl]. rewrite (splitWhiteSpace_cons (y :: s)).
      constructor; [now apply splitWhiteSpace_head | exact IH].
    + rewrite (splitWhiteSpace_cons (y :: s)). cbn [tl]. exact IH.
Qed.

Lemma words_of_line : forall s,
  cleanLine s ->
  Forall (fun w => w <> [] /\ noSpace w) (splitWhiteSpace s).
Proof.
  intros s (Hne & Hs & He).
  pose proof (splitWhiteSpace_noSpace s) as Hn.
  pose proof (splitWhiteSpace_tail s Hne He) as Ht.
  destruct s as [|x s]; [congruence|].
  apply startsClean_head in Hs.
  pose proof (splitWhiteSpace_head x s Hs) as Hh.
  rewrite (splitWhiteSpace_cons (x :: s)) in Hn |- *.
  inversion Hn; subst. constructor; [split; assumption|].
  now apply Forall_and.
Qed.

Lemma splitWhiteSpace_word : forall w, noSpace w -> splitWhiteSpace w = [w].
Proof.
  induction w as [|x w IH]; intros H; [reflexivity|].
  inversion H; subst. simpl. rewrite H2, (IH H3). reflexivity.
Qed.

(** Slices at natural indices. *)
Lemma sliceIndex_nat : forall len i, sliceIndex len (Z.of_nat i) = Nat.min len i.
Proof.
  intros len i. unfold sliceIndex.
  assert ((Z.of_nat i <? 0) = false) as -> by (apply Z.ltb_ge; lia).
  now rewrite Nat2Z.id.
Qed.

Lemma slice_nat : forall {A} (l : list A) a b,
  slice l (Z.of_nat a) (Z.of_nat b)
  = firstn (Nat.min (length l) b - Nat.min (length l) a) (skipn (Nat.min (length l) a) l).
Proof. intros A l a b. unfold slice. now rewrite !sliceIndex_nat. Qed.

Lemma firstn_plus : forall {A} (l : list A) a b,
  firstn (a + b) l = firstn a l ++ firstn b (skipn a l).
Proof.
  induction l as [|x l IH]; intros a b.
  - now rewrite !firstn_nil, skipn_nil, firstn_nil.
  - destruct a as [|a]; [reflexivity|]. simpl. now rewrite IH.
Qed.

(** The pieces of [chunkWord]. *)
Lemma chunk_piece : forall (P : ascii -> Prop) word size index,
  Forall P word -> (1 <= size)%nat -> (index < length word)%nat ->
  let piece := slice word (Z.of_nat index) (Z.of_nat (index + size)) in
  piece <> [] /\ (length piece <= size)%nat /\ Forall P piece
  /\ firstn (index + size) word = firstn index word ++ piece.
Proof.
  intros P word size index Hw Hs Hi piece. unfold piece. rewrite slice_nat.
  rewrite (Nat.min_r _ index) by lia.
  set (k := (Nat.min (length word) (index + size) - index)%nat).
  assert (length (firstn k (skipn index word)) = k) as Hl.
  { rewrite length_firstn, length_skipn. unfold k. lia. }
  split; [|split; [|split]].
  - intros E. rewrite E in Hl. simpl in Hl. unfold k in Hl. lia.
  - rewrite Hl. unfold k. lia.
  - apply Forall_firstn. now apply Forall_skipn.
  - rewrite firstn_plus. f_equal.
    destruct (Nat.le_gt_cases (index + size) (length word)) as [H|H].
    + unfold k. rewrite Nat.min_r by lia. f_equal. lia.
    + unfold k. rewrite Nat.min_l by lia.
      rewrite !firstn_all2; auto; rewrite length_skipn; lia.
Qed.

Lemma chunkLoop_pieces : forall (P : ascii -> Prop) (G : str -> Prop) word size,
  Forall P word -> (1 <= size)%nat ->
  (forall piece, piece <> [] -> (length piece <= size)%nat -> Forall P piece -> G piece) ->
  forall fuel index result,
  Forall G result -> Forall G (chunkLoop fuel word size index result).
Proof.
  intros P G word size Hw Hs HG.
  induction fuel as [|fuel IH]; intros index result Hr; [assumption|].
  cbn [chunkLoop]. destruct (index <? length word)%nat eqn:E; [|assumption].
  apply Nat.ltb_lt in E. apply IH. apply Forall_app. split; [assumption|].
  destruct (chunk_piece P word size index Hw Hs E) as (H1 & H2 & H3 & _).
  constructor; [|constructor]. now apply HG.
Qed.

(** [length word] rounds are enough: more fuel changes nothing. *)
Lemma chunkLoop_fuel : forall word size, (1 <= size)%nat ->
  forall fuel index result k,
  (length word <= index + fuel)%nat ->
  chunkLoop (fuel + k) word size index result = chunkLoop fuel word size index result.
Proof.
  intros word size Hs. induction fuel as [|fuel IH]; intros index result k H.
  - destruct k as [|k]; [reflexivity|]. cbn [Nat.add chunkLoop].
    assert ((index <? length word)%nat = false) as -> by (apply Nat.ltb_ge; lia).
    reflexivity.
  - cbn [Nat.add chunkLoop]. destruct (index <? length word)%nat; [|reflexivity].
    apply IH. lia.
Qed.

(** The pieces, one after the other, are the word. *)
Lemma chunkLoop_concat : forall word size, (1 <= size)%nat ->
  forall fuel index result,
  (length word <= index + fuel)%nat ->
  concat result = firstn index word ->
  concat (chunkLoop fuel word size index result) = word.
Proof.
  intros word size Hs. induction fuel as [|fuel IH]; intros index result H Hr.
  - cbn [chunkLoop]. rewrite Hr. apply firstn_all2. lia.
  - cbn [chunkLoop]. destruct (index <? length word)%nat eqn:E.
    + apply Nat.ltb_lt in E. apply IH; [lia|].
      rewrite concat_app. cbn [concat]. rewrite app_nil_r, Hr.
      destruct (chunk_piece (fun _ => True) word size index) as (_ & _ & _ & H4); auto.
      apply Forall_forall. auto.
    + apply Nat.ltb_ge in E. rewrite Hr. now apply firstn_all2.
Qed.

Lemma chunkWord_concat : forall word size, concat (chunkWord word size) = word.
Proof.
  intros word size. unfold chunkWord.
  apply chunkLoop_concat; [lia | lia | reflexivity].
Qed.

Lemma chunkWord_good : forall word n,
  noSpace word ->
  Forall (goodLine (BChars n)) (chunkWord word n).
Proof.
  intros word n Hw. unfold chunkWord.
  apply (chunkLoop_pieces (fun c => isWhiteSpace c = false)); auto; [lia|].
  intros piece H1 H2 H3. split; [now apply noSpace_clean | exact H2].
Qed.

Lemma cleanLine_first : forall l, cleanLine l ->
  exists c t, l = c :: t /\ isWhiteSpace c = false.
Proof.
  intros [|c t] (Hne & Hs & _); [congruence|].
  exists c, t. split; [reflexivity|]. now apply startsClean_head in Hs.
Qed.

Lemma cleanLine_last : forall l, cleanLine l ->
  exists m z, l = m ++ [z] /\ isWhiteSpace z = false.
Proof.
  intros l (Hne & _ & He). destruct (exists_last Hne) as (m & z & ->).
  exists m, z. split; [reflexivity|]. now apply endsClean_last in He.
Qed.

Lemma cleanLine_between : forall a mid b,
  cleanLine a -> cleanLine b -> cleanLine (a ++ mid ++ b).
Proof.
  intros a mid b Ha Hb.
  destruct (cleanLine_first a Ha) as (c & t & -> & Hc).
  destruct (cleanLine_last b Hb) as (m & z & -> & Hz).
  split; [discriminate|]. split.
  - now apply startsClean_cons.
  - rewrite !app_assoc. now apply endsClean_last.
Qed.

Lemma join_clean : forall ls,
  ls <> [] -> Forall cleanLine ls -> cleanLine (join (lit " ") ls).
Proof.
  induction ls as [|l ls IH]; intros Hne H; [congruence|].
  inversion H; subst. destruct ls as [|l2 ls]; [assumption|].
  change (join (lit " ") (l :: l2 :: ls))
    with (l ++ lit " " ++ join (lit " ") (l2 :: ls)).
  apply cleanLine_between; [assumption|]. apply IH; [discriminate | assumption].
Qed.

Lemma isEmpty_true : forall s, isEmpty s = true <-> s = [].
Proof. intros [|c s]; split; simpl; congruence. Qed.

Lemma isEmpty_false : forall s, isEmpty s = false <-> s <> [].
Proof. intros [|c s]; split; simpl; congruence. Qed.

Lemma pushCurrent_good : forall b st,
  packState b st ->
  Forall (goodLine b) (fst (pushCurrent st)) /\ snd (pushCurrent st) = [].
Proof.
  intros b [lines current] [Hl Hc]. simpl in *. unfold pushCurrent.
  destruct current as [|c t]; simpl; [auto|].
  split; [|reflexivity]. apply Forall_app. split; [assumption|].
  destruct Hc as [Hc|Hc]; [discriminate|]. auto.
Qed.

Lemma wrapStep_good : forall b st w,
  packState b st -> w <> [] -> noSpace w -> packState b (wrapStep b st w).
Proof.
  intros b st w Hst Hne Hw. unfold wrapStep.
  pose proof (pushCurrent_good b st Hst) as [Hp1 Hp2].
  pose proof (noSpace_clean w Hne Hw) as Hclean.
  destruct (overBudget (length w) b) eqn:Eo.
  - destruct (pushCurrent st) as [lines current]. simpl in *. subst current.
    split; simpl; [|now left].
    apply Forall_app. split; [assumption|].
    destruct b as [| |n]; try constructor. now apply chunkWord_good.
  - destruct st as [lines current]. destruct Hst as [Hl Hc]. simpl in Hl, Hc.
    cbv beta iota zeta.
    match goal with
    | |- context [withinBudget (length ?c) b] => set (candidate := c)
    end.
    assert (cleanLine candidate) as Hcand.
    { unfold candidate. destruct current as [|c t]; simpl isEmpty; cbv iota; [assumption|].
      destruct Hc as [Hc|[Hc _]]; [discriminate|].
      now apply cleanLine_between. }
    assert (goodLine b w) as Hgw.
    { split; [assumption|]. destruct b as [| |n]; auto.
      simpl in Eo. apply Nat.ltb_ge in Eo. exact Eo. }
    destruct (withinBudget (length candidate) b) eqn:Ew.
    + split; simpl; [assumption|]. right. split; [assumption|].
      destruct b as [| |n]; auto; simpl in Ew; [discriminate|].
      now apply Nat.leb_le in Ew.
    + destruct (pushCurrent (lines, current)) as [lines' current'] eqn:Ep.
      simpl in Hp1. split; simpl; [assumption | now right].
Qed.

Lemma pack_fold : forall b words st,
  Forall (fun w => w <> [] /\ noSpace w) words ->
  packState b st -> packState b (fold_left (wrapStep b) words st).
Proof.
  intros b. induction words as [|w words IH]; intros st Hw Hst; [assumption|].
  inversion Hw; subst. destruct H1 as [H1 H1']. cbn [fold_left].
  apply IH; [assumption|]. now apply wrapStep_good.
Qed.

Lemma packLines_good : forall b trimmed,
  cleanLine trimmed -> Forall (goodLine b) (packLines b trimmed).
Proof.
  intros b trimmed H. unfold packLines.
  apply pushCurrent_good. apply pack_fold; [now apply words_of_line|].
  split; simpl; [constructor | now left].
Qed.

Lemma goodLine_clean : forall b ls, Forall (goodLine b) ls -> Forall cleanLine ls.
Proof. intros b ls H. eapply Forall_impl; [|exact H]. intros l [Hl _]. exact Hl. Qed.

(** The collapsed line. *)
Lemma dots_length : forall n, length (dots n) = n.
Proof. intros n. apply repeat_length. Qed.

Lemma collapse_chars : forall t n,
  ((length t <= Pos.to_nat n)%nat -> collapseWithEllipsis t (BChars n) = t)
  /\ ((Pos.to_nat n < length t)%nat -> (Pos.to_nat n <= 3)%nat ->
      collapseWithEllipsis t (BChars n) = dots (Pos.to_nat n))
  /\ ((Pos.to_nat n < length t)%nat -> (3 < Pos.to_nat n)%nat ->
      collapseWithEllipsis t (BChars n) = firstn (Pos.to_nat n - 3) t ++ lit "...")
  /\ (length (collapseWithEllipsis t (BChars n)) <= Pos.to_nat n)%nat.
Proof.
  intros t n. unfold collapseWithEllipsis. cbn [withinBudget].
  destruct (length t <=? Pos.to_nat n)%nat eqn:E.
  - apply Nat.leb_le in E. repeat split; auto; lia.
  - apply Nat.leb_gt in E.
    destruct (n <=? 3)%positive eqn:E3.
    + apply Pos.leb_le in E3. repeat split; try lia.
      rewrite dots_length. lia.
    + apply Pos.leb_gt in E3.
      assert (slice t 0 (Z.pos n - 3) = firstn (Pos.to_nat n - 3) t) as ->.
      { replace (Z.pos n - 3) with (Z.of_nat (Pos.to_nat n - 3)) by lia.
        apply slice_prefix. lia. }
      repeat split; try lia.
      rewrite length_app, length_firstn. simpl. lia.
Qed.

Lemma collapse_good : forall t n,
  cleanLine t -> goodLine (BChars n) (collapseWithEllipsis t (BChars n)).
Proof.
  intros t n Ht. destruct (collapse_chars t n) as (H1 & H2 & H3 & H4).
  split; [|exact H4].
  destruct (Nat.le_gt_cases (length t) (Pos.to_nat n)) as [L|L].
  - now rewrite H1.
  - destruct (Nat.le_gt_cases (Pos.to_nat n) 3) as [L3|L3].
    + rewrite H2 by assumption. apply noSpace_clean.
      * pose proof (Pos2Nat.is_pos n). destruct (Pos.to_nat n); [lia | discriminate].
      * apply Forall_forall. intros x Hx. apply repeat_spec in Hx. now subst x.
    + rewrite H3 by assumption.
      destruct (cleanLine_first t Ht) as (c & r & -> & Hc).
      destruct (Pos.to_nat n - 3)%nat as [|k] eqn:Ek; [lia|].
      cbn [firstn app]. split; [discriminate|]. split.
      * now apply startsClean_cons.
      * replace (c :: firstn k r ++ lit "...")
          with ((c :: firstn k r ++ lit "..") ++ ["."%char])
          by (simpl; rewrite <- app_assoc; reflexivity).
        now apply endsClean_last.
Qed.

Lemma collapse_nan : forall t, collapseWithEllipsis t BNaN = lit "...".
Proof.
  intros t. unfold collapseWithEllipsis. cbn [withinBudget].
  change 0 with (Z.of_nat 0). rewrite slice_prefix by lia. reflexivity.
Qed.

(** The two slices and the assignment of the overflow branch. *)
Lemma overflow_lines : forall (lines : list str) m v,
  (m < length lines)%nat ->
  arraySet (slice lines 0 (Z.of_nat m)) (Z.of_nat m - 1) v
  = match m with
    | O => []
    | S k => firstn k lines ++ [v]
    end.
Proof.
  intros lines m v H. rewrite slice_prefix by lia. unfold arraySet.
  destruct m as [|k].
  - reflexivity.
  - assert ((Z.of_nat (S k) - 1 <? 0) = false) as -> by (apply Z.ltb_ge; lia).
    replace (Z.to_nat (Z.of_nat (S k) - 1)) with k by lia.
    assert ((k <? length (firstn (S k) lines))%nat = true) as ->.
    { apply Nat.ltb_lt. rewrite length_firstn. lia. }
    rewrite firstn_firstn, Nat.min_l by lia.
    rewrite skipn_all2 by (rewrite length_firstn; lia). reflexivity.
Qed.

Lemma overflow_rest : forall (lines : list str) k,
  (S k < length lines)%nat ->
  sliceFrom lines (Z.of_nat (S k) - 1) = skipn k lines.
Proof.
  intros lines k H. unfold sliceFrom.
  replace (Z.of_nat (S k) - 1) with (Z.of_nat k) by lia.
  rewrite sliceIndex_nat, Nat.min_r by lia. reflexivity.
Qed.

(** [wrapText], branch by branch. *)
Lemma wrapText_cases : forall text maxWidth fontSize wrap m,
  wrapText text maxWidth fontSize wrap (Some m)
  = wrappedLines text maxWidth fontSize wrap m.
Proof.
  intros text maxWidth fontSize wrap m. unfold wrapText, wrappedLines.
  destruct (isEmpty (trim text)) eqn:Ee; [reflexivity|].
  destruct (negb wrap); [reflexivity|].
  destruct (withinBudget _ _); [reflexivity|].
  set (b := charsPerLineOf maxWidth fontSize).
  set (packed := packLines b (trim text)).
  destruct (length packed <=? m)%nat eqn:El; [reflexivity|].
  apply Nat.leb_gt in El. rewrite overflow_lines by assumption.
  destruct m as [|k]; [reflexivity|].
  rewrite overflow_rest by assumption.
  rewrite cleanLine_trim; [reflexivity|].
  apply join_clean.
  - intros E. apply (f_equal (@length str)) in E. rewrite length_skipn in E.
    simpl in E. lia.
  - apply Forall_skipn. apply (goodLine_clean b). apply packLines_good.
    apply trim_cleanLine. now apply isEmpty_false.
Qed.

Lemma wrapText_default : forall text maxWidth fontSize wrap,
  wrapText text maxWidth fontSize wrap None
  = wrapText text maxWidth fontSize wrap (Some 2%nat).
Proof. reflexivity. Qed.

(** The budget is the value of
    [Math.max(1, Math.floor(maxWidth / (fontSize * 0.6)))]. *)
Lemma charsPerLine_formula : forall maxWidth fontSize,
  match intMax 1 (Math_floor (maxWidth / (fontSize * 0.6))%float) with
  | NaNi => charsPerLineOf maxWidth fontSize = BNaN
  | PosInf => charsPerLineOf maxWidth fontSize = BInf
  | NegInf => False
  | Int z => 1 <= z /\ charsPerLineOf maxWidth fontSize = BChars (Z.to_pos z)
  end.
Proof.
  intros maxWidth fontSize. unfold charsPerLineOf.
  destruct (Math_floor _) as [| | |z]; cbn [intMax]; auto.
  - split; [lia | reflexivity].
  - split; [lia | reflexivity].
Qed.

Lemma in_firstn : forall {A} (x : A) n l, In x (firstn n l) -> In x l.
Proof.
  intros A x n l H. rewrite <- (firstn_skipn n l). apply in_or_app. now left.
Qed.

(** Past the two early returns, every line of the result is good, and
    the limit is not 0 when there is a line at all. *)
Lemma wrappedLines_good : forall text maxWidth fontSize m L,
  trim text <> [] ->
  withinBudget (length (trim text)) (charsPerLineOf maxWidth fontSize) = false ->
  In L (wrappedLines text maxWidth fontSize true m) ->
  goodLine (charsPerLineOf maxWidth fontSize) L
  /\ (1 <= m)%nat
  /\ charsPerLineOf maxWidth fontSize <> BInf.
Proof.
  intros text maxWidth fontSize m L Hne Hfit HL.
  unfold wrappedLines in HL. apply isEmpty_false in Hne as He.
  rewrite He, Hfit in HL. cbn [negb] in HL.
  set (b := charsPerLineOf maxWidth fontSize) in *.
  assert (b <> BInf) as Hb by (intros E; rewrite E in Hfit; discriminate).
  pose proof (packLines_good b (trim text) (trim_cleanLine text Hne)) as Hgood.
  set (packed := packLines b (trim text)) in *.
  rewrite Forall_forall in Hgood.
  destruct (length packed <=? m)%nat eqn:El.
  - apply Nat.leb_le in El. split; [now apply Hgood|]. split; [|assumption].
    destruct packed; [contradiction | simpl in El; lia].
  - apply Nat.leb_gt in El. destruct m as [|k]; [contradiction|].
    split; [|split; [lia | assumption]].
    apply in_app_or in HL. destruct HL as [HL|[<-|[]]].
    + apply Hgood. now apply (in_firstn L k).
    + destruct b as [| |n]; [| congruence |].
      * rewrite collapse_nan. split; [|repeat constructor].
        apply noSpace_clean; [discriminate | repeat constructor].
      * apply collapse_good. apply join_clean.
        -- intros E. apply (f_equal (@length str)) in E.
           rewrite length_skipn in E. simpl in E. lia.
        -- apply Forall_skipn. apply Forall_forall. intros l Hl.
           exact (proj1 (Hgood l Hl)).
Qed.

(** Wrapping a line again. *)
Lemma rewrap_fits : forall L maxWidth fontSize wrap m,
  cleanLine L ->
  wrap = false \/ withinBudget (length L) (charsPerLineOf maxWidth fontSize) = true ->
  wrapText L maxWidth fontSize wrap (Some m) = [L].
Proof.
  intros L maxWidth fontSize wrap m HL H. rewrite wrapText_cases. unfold wrappedLines.
  rewrite (cleanLine_trim L HL).
  destruct HL as (Hne & _). apply isEmpty_false in Hne. rewrite Hne.
  destruct H as [-> | H]; [reflexivity|].
  destruct (negb wrap); [reflexivity|]. now rewrite H.
Qed.

Lemma packLines_word : forall w, w <> [] -> noSpace w -> packLines BNaN w = [w].
Proof.
  intros w Hne Hw. unfold packLines. rewrite (splitWhiteSpace_word w Hw).
  cbn [fold_left]. unfold wrapStep. cbn [overBudget withinBudget isEmpty pushCurrent fst].
  destruct w as [|c w]; [congruence | reflexivity].
Qed.

Lemma rewrap_word : forall L maxWidth fontSize m,
  charsPerLineOf maxWidth fontSize = BNaN ->
  L <> [] -> noSpace L -> (1 <= m)%nat ->
  wrapText L maxWidth fontSize true (Some m) = [L].
Proof.
  intros L maxWidth fontSize m Hb Hne Hw Hm.
  rewrite wrapText_cases. unfold wrappedLines.
  rewrite (cleanLine_trim L (noSpace_clean L Hne Hw)), Hb.
  apply isEmpty_false in Hne as He. rewrite He. cbn [negb withinBudget].
  rewrite (packLines_word L Hne Hw). cbn [length].
  apply Nat.leb_le in Hm. now rewrite Hm.
Qed.

Lemma rewrap_line : forall text maxWidth fontSize wrap m L,
  In L (wrapText text maxWidth fontSize wrap (Some m)) ->
  wrapText L maxWidth fontSize wrap (Some m) = [L]
  /\ (wrap = true -> charsPerLineOf maxWidth fontSize <> BNaN ->
      withinBudget (length L) (charsPerLineOf maxWidth fontSize) = true).
Proof.
  intros text maxWidth fontSize wrap m L HL. rewrite wrapText_cases in HL.
  destruct (isEmpty (trim text)) eqn:Ee.
  { unfold wrappedLines in HL. rewrite Ee in HL. contradiction. }
  apply isEmpty_false in Ee as Hne.
  destruct wrap.
  2:{ unfold wrappedLines in HL. rewrite Ee in HL. cbn [negb] in HL.
      destruct HL as [<-|[]]. split; [|discriminate].
      apply rewrap_fits; [now apply trim_cleanLine | now left]. }
  destruct (withinBudget (length (trim text)) (charsPerLineOf maxWidth fontSize)) eqn:Ef.
  { unfold wrappedLines in HL. rewrite Ee, Ef in HL. cbn [negb] in HL.
    destruct HL as [<-|[]]. split; [|auto].
    apply rewrap_fits; [now apply trim_cleanLine | now right]. }
  destruct (wrappedLines_good text maxWidth fontSize m L Hne Ef HL) as ([Hc Hg] & Hm & Hb).
  destruct (charsPerLineOf maxWidth fontSize) as [| |n] eqn:Eb; [| congruence |].
  - split; [|congruence].
    apply rewrap_word; auto. exact (proj1 Hc).
  - assert (withinBudget (length L) (BChars n) = true) as Hw by (now apply Nat.leb_le).
    split; [|auto]. apply rewrap_fits; [assumption|]. right. now rewrite Eb.
Qed.

(** C8.  Every line that [wrapText] returns is wrapped to itself by
    [wrapText] with the same width, font size, wrap flag and line limit.
    With wrapping enabled every returned line is within the budget
    [Math.max(1, Math.floor(maxWidth / (fontSize * 0.6)))], whenever that
    budget is a number. *)
Theorem wrapText_rewrap : forall text maxWidth fontSize wrap maxLines (L : str),
  In L (wrapText text maxWidth fontSize wrap maxLines) ->
  wrapText L maxWidth fontSize wrap maxLines = [L]
  /\ (wrap = true -> charsPerLineOf maxWidth fontSize <> BNaN ->
      withinBudget (length L) (charsPerLineOf maxWidth fontSize) = true)
  /\ match intMax 1 (Math_floor (maxWidth / (fontSize * 0.6))%float) with
     | NaNi => charsPerLineOf maxWidth fontSize = BNaN
     | PosInf => charsPerLineOf maxWidth fontSize = BInf
     | NegInf => False
     | Int z => 1 <= z /\ charsPerLineOf maxWidth fontSize = BChars (Z.to_pos z)
     end.
Proof.
  intros text maxWidth fontSize wrap maxLines L HL.
  pose proof (charsPerLine_formula maxWidth fontSize) as Hf.
  destruct maxLines as [m|].
  - destruct (rewrap_line text maxWidth fontSize wrap m L HL) as [H1 H2].
    split; [exact H1 | split; [exact H2 | exact Hf]].
  - rewrite wrapText_default in HL |- *.
    destruct (rewrap_line text maxWidth fontSize wrap 2 L HL) as [H1 H2].
    split; [exact H1 | split; [exact H2 | exact Hf]].
Qed.

(** C4, as amended.  With a line limit of at least 1 (2 when absent),
    [wrapText] returns at most that many lines.  When the packing gives
    more lines than the limit, all lines before the last place of the
    limit are kept, and the last line is the rest joined by single blanks
    and collapsed to the budget: kept as it is when it fits, replaced by
    that many dots when the budget is at most 3, and otherwise cut to the
    budget less 3 with three dots appended. *)
Theorem wrapText_line_limit : forall text maxWidth fontSize wrap (maxLines : nat),
  (1 <= maxLines)%nat ->
  let out := wrapText text maxWidth fontSize wrap (Some maxLines) in
  let charsPerLine := charsPerLineOf maxWidth fontSize in
  let packed := packLines charsPerLine (trim text) in
  (length out <= maxLines)%nat
  /\ (wrap = true -> trim text <> [] ->
      withinBudget (length (trim text)) charsPerLine = false ->
      ((length packed <= maxLines)%nat -> out = packed)
      /\ ((maxLines < length packed)%nat ->
          out = firstn (maxLines - 1) packed
                ++ [collapseWithEllipsis
                      (join (lit " ") (skipn (maxLines - 1) packed)) charsPerLine]))
  /\ (forall t n,
        ((length t <= Pos.to_nat n)%nat -> collapseWithEllipsis t (BChars n) = t)
        /\ ((Pos.to_nat n < length t)%nat -> (Pos.to_nat n <= 3)%nat ->
            collapseWithEllipsis t (BChars n) = dots (Pos.to_nat n))
        /\ ((Pos.to_nat n < length t)%nat -> (3 < Pos.to_nat n)%nat ->
            collapseWithEllipsis t (BChars n)
            = firstn (Pos.to_nat n - 3) t ++ lit "...")
        /\ (length (collapseWithEllipsis t (BChars n)) <= Pos.to_nat n)%nat)
  /\ (forall t, collapseWithEllipsis t BNaN = lit "...")
  /\ wrapText text maxWidth fontSize wrap None
     = wrapText text maxWidth fontSize wrap (Some 2%nat).
Proof.
  intros text maxWidth fontSize wrap maxLines Hm out charsPerLine packed.
  unfold out. rewrite wrapText_cases. unfold wrappedLines.
  fold charsPerLine. fold packed.
  split; [|split; [|split; [exact collapse_chars | split; [exact collapse_nan | reflexivity]]]].
  - destruct (isEmpty (trim text)); [simpl; lia|].
    destruct (negb wrap); [simpl; lia|].
    destruct (withinBudget _ _); [simpl; lia|].
    destruct (length packed <=? maxLines)%nat eqn:El; [now apply Nat.leb_le in El|].
    apply Nat.leb_gt in El. destruct maxLines as [|k]; [lia|].
    rewrite length_app, length_firstn. simpl. lia.
  - intros -> Hne Hf. apply isEmpty_false in Hne. rewrite Hne, Hf. cbn [negb].
    split; intros H.
    + apply Nat.leb_le in H. now rewrite H.
    + apply Nat.leb_gt in H. rewrite H.
      destruct maxLines as [|k]; [lia|].
      replace (S k - 1)%nat with k by lia. reflexivity.
Qed.

(** C4, as stated, fails.  With the limit 0 and wrapping disabled
    [wrapText] returns one line.  And when the rest that is joined into the
    last line fits the budget, it is kept whole, with no ellipsis: here the
    budget is 5 and the packing gives three lines. *)
Lemma wrapText_limit_zero_and_short_rest :
  wrapText (lit "a") 100 10 false (Some 0%nat) = [lit "a"]
  /\ charsPerLineOf 15 5 = BChars 5
  /\ packLines (BChars 5) (lit "abcdefg i") = [lit "abcde"; lit "fg"; lit "i"]
  /\ wrapText (lit "abcdefg i") 15 5 true (Some 2%nat) = [lit "abcde"; lit "fg i"].
Proof. vm_compute. repeat split. Qed.

(** ** index.ts: the guards of the query parameters *)

(** Forget the parameters and the assumptions that a statement does not
    mention. *)
Ltac forget_parameters :=
  try clear CSS_COLORS_names; try clear CSS_COLORS_hex; try clear Math_pow_one;
  try clear CSS_COLORS; try clear parseFloat; try clear Math_pow;
  try clear Number_toString; try clear decodeURIComponent.

Lemma is_nan_Prim2SF : forall x, is_nan x = true -> Prim2SF x = S754_nan.
Proof. intros x H. unfold Prim2SF. now rewrite H. Qed.

Lemma leb_not_nan : forall x y,
  (x <=? y)%float = true -> is_nan x = false /\ is_nan y = false.
Proof.
  intros x y. rewrite leb_spec. unfold SFleb. intros H. split.
  - destruct (is_nan x) eqn:E; [|reflexivity].
    rewrite (is_nan_Prim2SF x E) in H. discriminate.
  - destruct (is_nan y) eqn:E; [|reflexivity].
    rewrite (is_nan_Prim2SF y E) in H. destruct (Prim2SF x); discriminate.
Qed.

Lemma ltb_not_nan : forall x y,
  (x <? y)%float = true -> is_nan x = false /\ is_nan y = false.
Proof. intros x y H. apply leb_not_nan. now apply ltb_leb. Qed.

Lemma ltb_asym : forall x y, (x <? y)%float = true -> (y <? x)%float = false.
Proof.
  intros x y. rewrite !ltb_spec. unfold SFltb.
  rewrite (SFcompare_antisym (Prim2SF x) (Prim2SF y)).
  destruct (SFcompare _ _) as [[]|]; simpl; congruence.
Qed.

Lemma ltb_irrefl : forall x, (x <? x)%float = false.
Proof.
  intros x. destruct (x <? x)%float eqn:E; [|reflexivity].
  now rewrite (ltb_asym x x E) in E.
Qed.

Lemma leb_refl : forall x, is_nan x = false -> (x <=? x)%float = true.
Proof. intros x H. apply not_ltb_leb; auto. apply ltb_irrefl. Qed.

(** [Math.max] and [Math.min] of two numbers: one of the two, above
    (below) both. *)
Lemma Math_max_bounds : forall a b,
  is_nan a = false -> is_nan b = false ->
  (Math_max a b = a \/ Math_max a b = b)
  /\ (a <=? Math_max a b)%float = true
  /\ (b <=? Math_max a b)%float = true.
Proof.
  intros a b Ha Hb. unfold Math_max. rewrite Ha, Hb. cbn [orb].
  destruct (a <? b)%float eqn:E1.
  { split; [now right|]. split; [now apply ltb_leb | now apply leb_refl]. }
  destruct (b <? a)%float eqn:E2.
  { split; [now left|]. split; [now apply leb_refl | now apply ltb_leb]. }
  destruct (get_sign a).
  - split; [now right|]. split; [now apply not_ltb_leb | now apply leb_refl].
  - split; [now left|]. split; [now apply leb_refl | now apply not_ltb_leb].
Qed.

Lemma Math_min_bounds : forall a b,
  is_nan a = false -> is_nan b = false ->
  (Math_min a b = a \/ Math_min a b = b)
  /\ (Math_min a b <=? a)%float = true
  /\ (Math_min a b <=? b)%float = true.
Proof.
  intros a b Ha Hb. unfold Math_min. rewrite Ha, Hb. cbn [orb].
  destruct (a <? b)%float eqn:E1.
  { split; [now left|]. split; [now apply leb_refl | now apply ltb_leb]. }
  destruct (b <? a)%float eqn:E2.
  { split; [now right|]. split; [now apply ltb_leb | now apply leb_refl]. }
  destruct (get_sign a).
  - split; [now left|]. split; [now apply leb_refl | now apply not_ltb_leb].
  - split; [now right|]. split; [now apply not_ltb_leb | now apply leb_refl].
Qed.

(** The result of [clampNumber] for bounds in order. *)
Lemma clampNumber_within : forall value min max,
  (min <=? max)%float = true ->
  (min <=? clampNumber value min max)%float = true
  /\ (clampNumber value min max <=? max)%float = true.
Proof.
  intros value min max H. destruct (leb_not_nan _ _ H) as [Hmin Hmax].
  unfold clampNumber. destruct (is_nan value) eqn:Ev.
  { split; [now apply leb_refl | assumption]. }
  destruct (Math_max_bounds value min Ev Hmin) as (Hm & _ & Hm2).
  assert (is_nan (Math_max value min) = false) as Hn
    by (destruct Hm as [-> | ->]; assumption).
  destruct (Math_min_bounds (Math_max value min) max Hn Hmax) as (Hr & _ & Hr2).
  split; [|assumption].
  destruct Hr as [-> | ->]; assumption.
Qed.

(** X1.  For bounds in order, [clampNumber] returns a number of
    [min, max] whatever the value: NaN gives [min], every other value
    gives the value itself, [min] or [max], and a value strictly between
    the bounds is returned as it is. *)
Theorem clampNumber_range : forall value min max,
  (min <=? max)%float = true ->
  (min <=? clampNumber value min max)%float = true
  /\ (clampNumber value min max <=? max)%float = true
  /\ is_nan (clampNumber value min max) = false
  /\ (is_nan value = true -> clampNumber value min max = min)
  /\ (clampNumber value min max = value
      \/ clampNumber value min max = min
      \/ clampNumber value min max = max)
  /\ ((min <? value)%float = true -> (value <? max)%float = true ->
      clampNumber value min max = value).
Proof.
  intros value min max H.
  destruct (clampNumber_within value min max H) as [H1 H2].
  destruct (leb_not_nan _ _ H) as [Hmin Hmax].
  split; [exact H1|]. split; [exact H2|].
  split; [exact (proj1 (leb_not_nan _ _ H2))|].
  split; [|split].
  - intros Hv. unfold clampNumber. now rewrite Hv.
  - unfold clampNumber. destruct (is_nan value) eqn:Ev; [now (right; left)|].
    destruct (Math_max_bounds value min Ev Hmin) as (Hm & _ & _).
    assert (is_nan (Math_max value min) = false) as Hn
      by (destruct Hm as [-> | ->]; assumption).
    destruct (Math_min_bounds (Math_max value min) max Hn Hmax) as ([-> | ->] & _ & _);
      [|now (right; right)].
    destruct Hm as [-> | ->]; [now left | now (right; left)].
  - intros Hlo Hhi. destruct (ltb_not_nan _ _ Hhi) as [Hv _].
    unfold clampNumber. rewrite Hv.
    assert (Math_max value min = value) as ->.
    { unfold Math_max. rewrite Hv, Hmin. cbn [orb].
      now rewrite (ltb_asym _ _ Hlo), Hlo. }
    unfold Math_min. rewrite Hv, Hmax. cbn [orb]. now rewrite Hhi.
Qed.

(** X2.  [clampText] returns at most 120 characters: a text of at most
    120 characters is returned as it is, a longer one is cut to its first
    117 characters followed by three dots.  Clamping twice changes
    nothing more. *)
Theorem clampText_spec : forall value,
  (length (clampText value) <= 120)%nat
  /\ ((length value <= 120)%nat -> clampText value = value)
  /\ ((120 < length value)%nat ->
      clampText value = firstn 117 value ++ lit "..."
      /\ length (clampText value) = 120%nat)
  /\ clampText (clampText value) = clampText value.
Proof.
  intros value.
  assert (forall v, (length v <= 120)%nat -> clampText v = v) as Hfit.
  { intros v Hv. unfold clampText, MAX_TEXT_LENGTH. destruct v as [|c v]; [reflexivity|].
    cbn [isEmpty]. assert ((Z.of_nat (length (c :: v)) <=? 120) = true) as ->
      by (apply Z.leb_le; lia). reflexivity. }
  assert ((120 < length value)%nat ->
          clampText value = firstn 117 value ++ lit "..."
          /\ length (clampText value) = 120%nat) as Hlong.
  { intros Hv. assert (clampText value = firstn 117 value ++ lit "...") as E.
    { unfold clampText, MAX_TEXT_LENGTH. destruct value as [|c v]; [simpl in Hv; lia|].
      cbn [isEmpty]. assert ((Z.of_nat (length (c :: v)) <=? 120) = false) as ->
        by (apply Z.leb_gt; lia).
      change (120 <=? 3) with false. cbv iota.
      change (120 - 3) with (Z.of_nat 117). now rewrite slice_prefix by lia. }
    split; [exact E|]. rewrite E, length_app, length_firstn.
    change (length (lit "...")) with 3%nat. lia. }
  assert (length (clampText value) <= 120)%nat as Hle.
  { destruct (Nat.le_gt_cases (length value) 120) as [Hv|Hv].
    - now rewrite Hfit.
    - destruct (Hlong Hv) as [_ ->]. lia. }
  split; [exact Hle|]. split; [apply Hfit|]. split; [exact Hlong|].
  now apply Hfit.
Qed.

Lemma toLowerCase_idem : forall s, toLowerCase (toLowerCase s) = toLowerCase s.
Proof. intros s. apply toLowerCase_fixed. apply toLowerCase_is_fixed. Qed.

(** X3.  [parseAlign] reads [left] and [right] whatever the case of the
    letters, and gives [center] for everything else, an absent value
    included: it reads back the name of every alignment, and a value that
    gives [left] or [right] is that word once lower-cased. *)
Theorem parseAlign_spec : forall value : option str,
  (forall a, parseAlign (Some (alignName a)) = a)
  /\ parseAlign (option_map toLowerCase value) = parseAlign value
  /\ (parseAlign value = Align.left
      <-> exists s, value = Some s /\ toLowerCase s = lit "left")
  /\ (parseAlign value = Align.right
      <-> exists s, value = Some s /\ toLowerCase s = lit "right")
  /\ parseAlign None = Align.center.
Proof.
  intros value. split; [intros []; reflexivity|].
  split; [destruct value as [s|]; [|reflexivity]; unfold parseAlign;
          cbn [option_map orDefault]; now rewrite toLowerCase_idem|].
  split; [|split; [|reflexivity]].
  - destruct value as [s|];
      [|change (parseAlign None) with Align.center;
        split; [discriminate | intros (s' & [=] & _)]].
    unfold parseAlign. cbn [orDefault].
    destruct (str_eqb (toLowerCase s) (lit "left")) eqn:E.
    + apply str_eqb_eq in E. split; [eauto | reflexivity].
    + apply str_eqb_neq in E. split.
      * destruct (str_eqb _ _); discriminate.
      * intros (s' & [= <-] & H). contradiction.
  - destruct value as [s|];
      [|change (parseAlign None) with Align.center;
        split; [discriminate | intros (s' & [=] & _)]].
    unfold parseAlign. cbn [orDefault].
    destruct (str_eqb (toLowerCase s) (lit "left")) eqn:E.
    + apply str_eqb_eq in E. split; [discriminate|].
      intros (s' & [= <-] & H). rewrite E in H. discriminate.
    + destruct (str_eqb (toLowerCase s) (lit "right")) eqn:E2.
      * apply str_eqb_eq in E2. split; [eauto | reflexivity].
      * apply str_eqb_neq in E2. split; [discriminate|].
        intros (s' & [= <-] & H). contradiction.
Qed.

(** X4.  [parseBoolean] is true exactly for the words [true], [1] and
    [yes], whatever the case of the letters; an absent or empty value, and
    every other word, is false. *)
Theorem parseBoolean_spec : forall value : option str,
  (parseBoolean value = true
   <-> exists s, value = Some s
                 /\ (toLowerCase s = lit "true" \/ toLowerCase s = lit "1"
                     \/ toLowerCase s = lit "yes"))
  /\ parseBoolean (option_map toLowerCase value) = parseBoolean value
  /\ parseBoolean None = false
  /\ parseBoolean (Some []) = false.
Proof.
  intros value. split; [|split; [|split; reflexivity]].
  - destruct value as [[|c s]|]; cbn [parseBoolean].
    + split; [discriminate | intros (s' & [= <-] & [H|[H|H]]); discriminate].
    + rewrite !orb_true_iff. split.
      * intros [[H|H]|H]; apply str_eqb_eq in H; eauto 6.
      * intros (s' & [= <-] & [H|[H|H]]); rewrite H; auto.
    + split; [discriminate | intros (s' & [=] & _)].
  - destruct value as [[|c s]|]; [reflexivity| |reflexivity].
    cbn [option_map]. change (toLowerCase (c :: s)) with (lowerChar c :: toLowerCase s).
    cbn [parseBoolean].
    change (lowerChar c :: toLowerCase s) with (toLowerCase (c :: s)).
    now rewrite toLowerCase_idem.
Qed.

(** ** Numbers: division and multiplication by a positive constant *)

Lemma shr_1_nonneg : forall mrs, 0 <= shr_m mrs -> 0 <= shr_m (shr_1 mrs).
Proof. intros [m r s] H. simpl in H. destruct m as [|[p|p|]|p]; simpl; lia. Qed.

Lemma iter_pos_nonneg : forall p mrs,
  0 <= shr_m mrs -> 0 <= shr_m (iter_pos shr_1 p mrs).
Proof.
  induction p as [p IH|p IH|]; intros mrs H; simpl.
  - apply IH, IH. now apply shr_1_nonneg.
  - now apply IH, IH.
  - now apply shr_1_nonneg.
Qed.

Lemma shr_fexp_nonneg : forall m e l,
  0 <= m -> 0 <= shr_m (fst (shr_fexp prec emax m e l)).
Proof.
  intros m e l H. unfold shr_fexp, shr.
  assert (0 <= shr_m (shr_record_of_loc m l)) as H0
    by (destruct l as [|[]]; exact H).
  destruct (fexp prec emax (Zdigits2 m + e) - e); simpl; auto.
  now apply iter_pos_nonneg.
Qed.

(** Rounding keeps the sign and never gives NaN. *)
Lemma binary_round_aux_signed : forall sx mx ex lx,
  0 <= mx -> signed sx (binary_round_aux prec emax sx mx ex lx).
Proof.
  intros sx mx ex lx H. unfold binary_round_aux.
  pose proof (shr_fexp_nonneg mx ex lx H) as H1.
  destruct (shr_fexp prec emax mx ex lx) as [mrs' e']. simpl in H1.
  assert (0 <= round_nearest_even (shr_m mrs') (loc_of_shr_record mrs')) as H2.
  { unfold round_nearest_even.
    destruct (loc_of_shr_record mrs') as [|[]]; try lia.
    destruct (IntDef.Z.even _); lia. }
  pose proof (shr_fexp_nonneg _ e' loc_Exact H2) as H3.
  destruct (shr_fexp prec emax _ e' loc_Exact) as [mrs'' e'']. simpl in H3.
  destruct (shr_m mrs''); simpl; [reflexivity| |lia].
  destruct (e'' <=? _); reflexivity.
Qed.

Lemma SFdiv_signed : forall s x my ey,
  signed s x -> signed s (SFdiv prec emax x (S754_finite false my ey)).
Proof.
  intros s [sx|sx| |sx mx ex] my ey H; simpl in H; try contradiction; subst;
    cbn [SFdiv]; try (destruct s; reflexivity).
  destruct (SFdiv_core_binary prec emax (Z.pos mx) ex (Z.pos my) ey)
    as [[mz ez] lz] eqn:E.
  assert (xorb s false = s) as -> by (destruct s; reflexivity).
  apply binary_round_aux_signed.
  unfold SFdiv_core_binary in E.
  set (m' := match _ with 0 => Z.pos mx | Z.pos _ => _ | Z.neg _ => 0 end) in E.
  assert (0 <= m') as Hm.
  { unfold m'. destruct (_ - _ - _) eqn:Es; try lia.
    apply Z.shiftl_nonneg. lia. }
  pose proof (Z_div_mod m' (Z.pos my) ltac:(lia)) as D.
  change IntDef.Z.div_eucl with Z.div_eucl in E.
  destruct (Z.div_eucl m' (Z.pos my)) as [q r]. injection E as <- _ _. nia.
Qed.

Lemma SFmul_signed : forall s x my ey,
  signed s x -> signed s (SFmul prec emax x (S754_finite false my ey)).
Proof.
  intros s [sx|sx| |sx mx ex] my ey H; simpl in H; try contradiction; subst;
    cbn [SFmul]; try (destruct s; reflexivity).
  assert (xorb s false = s) as -> by (destruct s; reflexivity).
  apply binary_round_aux_signed. lia.
Qed.

Lemma not_nan_signed : forall x, is_nan x = false -> exists s, signed s (Prim2SF x).
Proof.
  intros x H. apply Prim2SF_not_nan in H.
  destruct (Prim2SF x) as [s|s| |s m e]; simpl; eauto. congruence.
Qed.

Lemma signed_not_nan : forall s x, signed s (Prim2SF x) -> is_nan x = false.
Proof.
  intros s x H. destruct (is_nan x) eqn:E; [|reflexivity].
  rewrite (is_nan_Prim2SF x E) in H. contradiction.
Qed.

(** Dividing or multiplying a number by a positive finite constant gives
    a number, never NaN. *)
Lemma div_not_nan : forall x y,
  positiveFinite y -> is_nan x = false -> is_nan (x / y) = false.
Proof.
  intros x y (m & e & Hy) Hx. destruct (not_nan_signed x Hx) as (s & Hs).
  apply (signed_not_nan s). rewrite div_spec, Hy. now apply SFdiv_signed.
Qed.

Lemma mul_not_nan : forall x y,
  positiveFinite y -> is_nan x = false -> is_nan (x * y) = false.
Proof.
  intros x y (m & e & Hy) Hx. destruct (not_nan_signed x Hx) as (s & Hs).
  apply (signed_not_nan s). rewrite mul_spec, Hy. now apply SFmul_signed.
Qed.

(** A number that is at least 0 stays so when divided or multiplied by a
    positive finite constant. *)
Lemma nonneg_cases : forall x,
  (0 <=? x)%float = true
  <-> (exists s, Prim2SF x = S754_zero s) \/ signed false (Prim2SF x).
Proof.
  forget_parameters.
  intros x. rewrite leb_spec. change (Prim2SF 0) with (S754_zero false).
  destruct (Prim2SF x) as [s|[]| |[] m e]; simpl; split;
    try discriminate; try tauto; eauto;
    intros [(s' & H)|H]; try discriminate; try contradiction; auto.
Qed.

Lemma div_nonneg : forall x y,
  positiveFinite y -> (0 <=? x)%float = true -> (0 <=? x / y)%float = true.
Proof.
  intros x y (m & e & Hy) Hx. apply nonneg_cases. apply nonneg_cases in Hx.
  rewrite div_spec, Hy. destruct Hx as [(s & ->)|Hx].
  - left. simpl. eauto.
  - right. now apply SFdiv_signed.
Qed.

Lemma mul_nonneg : forall x y,
  positiveFinite y -> (0 <=? x)%float = true -> (0 <=? x * y)%float = true.
Proof.
  intros x y (m & e & Hy) Hx. apply nonneg_cases. apply nonneg_cases in Hx.
  rewrite mul_spec, Hy. destruct Hx as [(s & ->)|Hx].
  - left. simpl. eauto.
  - right. now apply SFmul_signed.
Qed.

(** ** util.ts: escapeXML, read back *)

Lemma escapeChar_prefix : forall c d r r',
  escapeChar c ++ r = escapeChar d ++ r' -> c = d /\ r = r'.
Proof.
  forget_parameters.
  intros c d r r'. unfold escapeChar.
  repeat match goal with
         | |- context [ascii_dec ?a ?b] => destruct (ascii_dec a b)
         end;
    intros H; subst; try congruence;
    simpl in H; try discriminate H; injection H; intros; subst; split; congruence.
Qed.

Lemma escapeChar_length : forall c, (1 <= length (escapeChar c))%nat.
Proof. intros c. char_cases c; simpl; lia. Qed.

Lemma escapeChar_needs : forall c, escapeChar c = [c] <-> needsEscape c = false.
Proof. forget_parameters. intros c. char_cases c; split; (reflexivity || discriminate). Qed.

Lemma escapeXML_length : forall value, (length value <= length (escapeXML value))%nat.
Proof.
  intros value. rewrite escapeXML_chars.
  induction value as [|c v IH]; [reflexivity|].
  cbn [flat_map]. rewrite length_app. pose proof (escapeChar_length c).
  cbn [length]. lia.
Qed.

(** X5.  [escapeXML] loses nothing: two texts with the same escaped form
    are the same text.  The escaped form is never shorter than the text,
    and it is the text itself exactly when the text holds none of the
    five characters that are replaced. *)
Theorem escapeXML_injective :
  (forall a b, escapeXML a = escapeXML b -> a = b)
  /\ (forall value, (length value <= length (escapeXML value))%nat)
  /\ (forall value,
        escapeXML value = value <-> Forall (fun c => needsEscape c = false) value).
Proof.
  forget_parameters.
  split; [|split; [exact escapeXML_length|]].
  - intros a b. rewrite !escapeXML_chars. revert b.
    induction a as [|c a IH]; intros [|d b] H; cbn [flat_map] in H.
    + reflexivity.
    + pose proof (escapeChar_length d). destruct (escapeChar d); [simpl in *; lia|].
      discriminate H.
    + pose proof (escapeChar_length c). destruct (escapeChar c); [simpl in *; lia|].
      discriminate H.
    + apply escapeChar_prefix in H. destruct H as [-> H]. f_equal. now apply IH.
  - induction value as [|c v IH].
    + split; [constructor | reflexivity].
    + change (c :: v) with ([c] ++ v) at 1. rewrite escapeXML_app, escapeXML_char.
      split.
      * intros H. destruct (needsEscape c) eqn:En.
        -- exfalso. pose proof (escapeXML_length v) as Hl.
           apply (f_equal (@length ascii)) in H. rewrite length_app in H.
           cbn [length] in H.
           assert (2 <= length (escapeChar c))%nat
             by (revert En; clear; char_cases c; simpl; lia).
           lia.
        -- apply escapeChar_needs in En. rewrite En in H. injection H as H.
           constructor; [now apply escapeChar_needs | now apply IH].
      * intros H. inversion H as [|? ? Hc Hv]; subst.
        apply escapeChar_needs in Hc. rewrite Hc. simpl. f_equal. now apply IH.
Qed.

(** ** util.ts: chunkWord *)

Lemma chunkLoop_last : forall word size, (1 <= size)%nat ->
  forall fuel index result,
  Forall (fun piece : str => length piece = size) result ->
  (index < length word)%nat -> (length word <= index + fuel)%nat ->
  exists full last,
    chunkLoop fuel word size index result = full ++ [last]
    /\ Forall (fun piece : str => length piece = size) full
    /\ (1 <= length last <= size)%nat.
Proof.
  forget_parameters.
  intros word size Hs. induction fuel as [|fuel IH]; intros index result Hr Hi Hf;
    [lia|].
  cbn [chunkLoop]. assert ((index <? length word)%nat = true) as ->
    by (now apply Nat.ltb_lt).
  set (piece := slice word (Z.of_nat index) (Z.of_nat (index + size))).
  assert (length piece = Nat.min (length word) (index + size) - index)%nat as Hp.
  { unfold piece. rewrite slice_nat, length_firstn, length_skipn. lia. }
  destruct (Nat.lt_ge_cases (index + size) (length word)) as [Hlt|Hge].
  - apply IH; [|assumption|lia].
    apply Forall_app. split; [assumption|]. constructor; [lia | constructor].
  - exists result, piece. split; [|split; [assumption | lia]].
    destruct fuel as [|fuel]; [reflexivity|]. cbn [chunkLoop].
    assert ((index + size <? length word)%nat = false) as ->
      by (apply Nat.ltb_ge; lia).
    reflexivity.
Qed.

Lemma concat_full_length : forall size (full : list str),
  Forall (fun piece => length piece = size) full ->
  length (concat full) = (length full * size)%nat.
Proof.
  intros size full H. induction H as [|p full Hp _ IH]; [reflexivity|].
  cbn [concat length]. rewrite length_app, IH, Hp. lia.
Qed.

(** X6.  [chunkWord], for a size of at least 1, cuts a word into pieces
    that give the word back when put together: every piece but the last
    has exactly [size] characters, and the last has from 1 to [size].  An
    empty word gives no piece. *)
Theorem chunkWord_pieces : forall (word : str) (size : positive),
  concat (chunkWord word size) = word
  /\ (word = [] -> chunkWord word size = [])
  /\ (word <> [] ->
      exists full last,
        chunkWord word size = full ++ [last]
        /\ Forall (fun piece => length piece = Pos.to_nat size) full
        /\ (1 <= length last <= Pos.to_nat size)%nat
        /\ length word = (length full * Pos.to_nat size + length last)%nat).
Proof.
  forget_parameters.
  intros word size. split; [apply chunkWord_concat|]. split; [now intros ->|].
  intros Hw.
  destruct (chunkLoop_last word (Pos.to_nat size) ltac:(lia) (length word) 0%nat [])
    as (full & last & E & Hfull & Hlast).
  { constructor. }
  { destruct word; [contradiction | simpl; lia]. }
  { lia. }
  exists full, last. split; [exact E|]. split; [exact Hfull|]. split; [exact Hlast|].
  pose proof (chunkWord_concat word size) as Hc. unfold chunkWord in Hc.
  rewrite E in Hc. apply (f_equal (@length ascii)) in Hc.
  rewrite concat_app, length_app, (concat_full_length _ _ Hfull) in Hc.
  cbn [concat] in Hc. rewrite app_nil_r in Hc. lia.
Qed.

(** ** util.ts: normalizeHex, hexToRgb and relativeLuminance *)

Lemma isHex_lower : forall c, isHex c = true -> isLowerHex (lowerChar c) = true.
Proof. intros c H. char_cases c. Qed.

Lemma isHex_lowerChar : forall c, isHex (lowerChar c) = isHex c.
Proof. intros c. char_cases c. Qed.

Lemma lowerChar_hash : forall c, lowerChar c = "#"%char -> c = "#"%char.
Proof. intros c H. char_cases c. Qed.

Lemma hexValue_lowerChar : forall c, hexValue (lowerChar c) = hexValue c.
Proof. intros c. char_cases c. Qed.

Lemma toLowerCase_expandHex : forall g, toLowerCase (expandHex g) = expandHex (toLowerCase g).
Proof.
  induction g as [|c g IH]; [reflexivity|].
  unfold expandHex, toLowerCase in *. simpl. now rewrite IH.
Qed.

Lemma matchHexI_spec : forall value g, matchHexI value = Some g <-> hexShape value g.
Proof.
  forget_parameters.
  intros value g. unfold matchHexI, hexShape. split.
  - destruct value as [|c n]; [discriminate|].
    destruct (ascii_dec c "#"%char) as [->|Hc]; [|char_cases c; congruence].
    destruct (_ && _) eqn:E; [|discriminate].
    intros H; inversion H; subst n.
    apply andb_true_iff in E. destruct E as [E1 E2].
    apply forallb_Forall in E1. apply orb_true_iff in E2.
    repeat split; auto. destruct E2 as [E2|E2]; apply Nat.eqb_eq in E2; auto.
  - intros (-> & Hv & Hl).
    assert (forallb isHex g = true) as -> by now apply forallb_Forall.
    destruct Hl as [-> | ->]; reflexivity.
Qed.

Lemma matchHexI_toLowerCase : forall value,
  matchHexI (toLowerCase value) = option_map toLowerCase (matchHexI value).
Proof.
  forget_parameters.
  intros [|c g]; [reflexivity|].
  change (toLowerCase (c :: g)) with (lowerChar c :: toLowerCase g).
  destruct (ascii_dec c "#"%char) as [->|Hc].
  - change (lowerChar "#") with "#"%char. cbn [matchHexI].
    assert (forallb isHex (toLowerCase g) = forallb isHex g) as ->.
    { unfold toLowerCase. induction g as [|x g IH]; [reflexivity|].
      cbn [map forallb]. now rewrite isHex_lowerChar, IH. }
    assert (length (toLowerCase g) = length g) as ->
      by (unfold toLowerCase; apply length_map).
    destruct (_ && _); reflexivity.
  - assert (lowerChar c <> "#"%char) as Hl
      by (intros E; apply Hc; now apply lowerChar_hash).
    assert (forall x v, x <> "#"%char -> matchHexI (x :: v) = None) as Hn
      by (intros x v Hx; char_cases x; congruence).
    now rewrite !Hn.
Qed.

Lemma normalizeHex_shape : forall value g,
  hexShape value g ->
  normalizeHex value
  = Ok ("#"%char :: toLowerCase (if (length g =? 3)%nat then expandHex g else g)).
Proof.
  intros value g H. unfold normalizeHex.
  rewrite (proj2 (matchHexI_spec value g) H). destruct H as (-> & _ & _).
  destruct (length g =? 3)%nat; reflexivity.
Qed.

Lemma normalizeHex_hex6 : forall value h, normalizeHex value = Ok h -> hex6 h.
Proof.
  forget_parameters.
  intros value h H. unfold normalizeHex in H.
  destruct (matchHexI value) as [g|] eqn:E; [|discriminate].
  apply matchHexI_spec in E. destruct E as (-> & Hg & Hl).
  assert (Forall (fun c => isLowerHex c = true) (toLowerCase g)) as Hlow.
  { unfold toLowerCase. apply Forall_map. eapply Forall_impl; [|exact Hg].
    apply isHex_lower. }
  destruct Hl as [Hl|Hl]; rewrite Hl in H; cbn [Nat.eqb] in H; injection H as <-.
  - exists (toLowerCase (expandHex g)). split; [reflexivity|].
    rewrite toLowerCase_expandHex. split.
    + rewrite expandHex_length. unfold toLowerCase. rewrite length_map. lia.
    + now apply expandHex_all.
  - exists (toLowerCase g). split; [reflexivity|].
    split; [unfold toLowerCase; now rewrite length_map | assumption].
Qed.

Lemma normalizeHex_fixed : forall h, hex6 h -> normalizeHex h = Ok h.
Proof.
  forget_parameters.
  intros h (g & -> & Hl & Hg).
  rewrite (normalizeHex_shape ("#"%char :: g) g).
  - rewrite Hl. cbn [Nat.eqb]. f_equal. f_equal. apply toLowerCase_fixed.
    eapply Forall_impl; [|exact Hg]. apply lowerHex_lowerFixed.
  - split; [reflexivity|]. split; [|now right].
    eapply Forall_impl; [|exact Hg]. apply lowerHex_isHex.
Qed.

(** X7.  [normalizeHex] accepts exactly [#] followed by three or six hex
    digits in either case, with no trimming, and throws ['Invalid hex
    color'] for everything else.  Its result is [#] and six lowercase
    hex digits, the shorthand with each digit doubled; the result is
    accepted again and returned as it is, and the case of the input makes
    no difference. *)
Theorem normalizeHex_spec : forall value : str,
  (forall g, hexShape value g ->
     normalizeHex value
     = Ok ("#"%char :: toLowerCase (if (length g =? 3)%nat then expandHex g else g)))
  /\ ((forall g, ~ hexShape value g) -> normalizeHex value = Throw InvalidHexColor)
  /\ (forall h, normalizeHex value = Ok h ->
        hex6 h /\ normalizeHex h = Ok h /\ exists g, hexShape value g)
  /\ normalizeHex (toLowerCase value) = normalizeHex value.
Proof.
  forget_parameters.
  intros value. split; [apply normalizeHex_shape|]. split; [|split].
  - intros H. unfold normalizeHex. destruct (matchHexI value) as [g|] eqn:E;
      [|reflexivity].
    apply matchHexI_spec in E. now apply H in E.
  - intros h H. pose proof (normalizeHex_hex6 value h H) as H6.
    split; [exact H6|]. split; [now apply normalizeHex_fixed|].
    unfold normalizeHex in H. destruct (matchHexI value) as [g|] eqn:E; [|discriminate].
    exists g. now apply matchHexI_spec.
  - unfold normalizeHex. rewrite matchHexI_toLowerCase.
    destruct (matchHexI value) as [g|]; [|reflexivity]. cbn [option_map].
    assert (length (toLowerCase g) = length g) as ->
      by (unfold toLowerCase; apply length_map).
    destruct (length g =? 3)%nat.
    + now rewrite <- toLowerCase_expandHex, toLowerCase_idem.
    + now rewrite toLowerCase_idem.
Qed.

Lemma lowerHex_in : forall c,
  isLowerHex c = true -> In c (lit "0123456789abcdef").
Proof. intros c H. char_cases c; simpl; tauto. Qed.

(** Two lowercase hex digits, read by [parseInt] in radix 16. *)
Lemma parseInt_hex2 : forall a b,
  isLowerHex a = true -> isLowerHex b = true ->
  parseInt [a; b] 16 = Int (16 * hexValue a + hexValue b).
Proof.
  forget_parameters.
  intros a b Ha Hb. apply lowerHex_in in Ha, Hb. simpl in Ha, Hb.
  repeat (destruct Ha as [<-|Ha]; [|]); try contradiction;
    repeat (destruct Hb as [<-|Hb]; [|]); try contradiction; reflexivity.
Qed.

Lemma hexValue_range : forall c, isHex c = true -> 0 <= hexValue c <= 15.
Proof. intros c H. char_cases c; vm_compute; split; discriminate. Qed.

Lemma hexToRgb_six : forall a b c d e f,
  Forall (fun x => isHex x = true) [a; b; c; d; e; f] ->
  hexToRgb ("#"%char :: [a; b; c; d; e; f])
  = Ok (Int (16 * hexValue a + hexValue b),
        Int (16 * hexValue c + hexValue d),
        Int (16 * hexValue e + hexValue f)).
Proof.
  forget_parameters.
  intros a b c d e f H. unfold hexToRgb.
  rewrite (normalizeHex_shape _ [a; b; c; d; e; f]) by (repeat split; auto).
  cbn [length Nat.eqb bind toLowerCase map].
  change (sliceFrom ("#"%char :: [lowerChar a; lowerChar b; lowerChar c;
                                  lowerChar d; lowerChar e; lowerChar f]) 1)
    with [lowerChar a; lowerChar b; lowerChar c; lowerChar d; lowerChar e; lowerChar f].
  change (slice [lowerChar a; lowerChar b; lowerChar c; lowerChar d; lowerChar e;
                 lowerChar f] 0 2) with [lowerChar a; lowerChar b].
  change (slice [lowerChar a; lowerChar b; lowerChar c; lowerChar d; lowerChar e;
                 lowerChar f] 2 4) with [lowerChar c; lowerChar d].
  change (slice [lowerChar a; lowerChar b; lowerChar c; lowerChar d; lowerChar e;
                 lowerChar f] 4 6) with [lowerChar e; lowerChar f].
  repeat match goal with
         | H : Forall _ (_ :: _) |- _ => inversion H; subst; clear H
         end.
  rewrite !parseInt_hex2 by now apply isHex_lower.
  now rewrite !hexValue_lowerChar.
Qed.

Lemma hexToRgb_three : forall a b c,
  Forall (fun x => isHex x = true) [a; b; c] ->
  hexToRgb ("#"%char :: [a; b; c]) = hexToRgb ("#"%char :: [a; a; b; b; c; c]).
Proof.
  forget_parameters.
  intros a b c H. unfold hexToRgb.
  rewrite (normalizeHex_shape _ [a; b; c]) by (repeat split; auto).
  rewrite (normalizeHex_shape _ [a; a; b; b; c; c]).
  - reflexivity.
  - split; [reflexivity|]. split; [|now right].
    repeat match goal with
           | H : Forall _ (_ :: _) |- _ => inversion H; subst; clear H
           end.
    repeat constructor; assumption.
Qed.

Lemma hexToRgb_shape : forall hex g,
  hexShape hex g ->
  exists r gr b, hexToRgb hex = Ok (r, gr, b) /\ isChannel r /\ isChannel gr /\ isChannel b.
Proof.
  forget_parameters.
  intros hex g (-> & Hg & Hl).
  assert (forall a b c d e f,
            Forall (fun x => isHex x = true) [a; b; c; d; e; f] ->
            exists r gr bl, hexToRgb ("#"%char :: [a; b; c; d; e; f]) = Ok (r, gr, bl)
                            /\ isChannel r /\ isChannel gr /\ isChannel bl) as H6.
  { intros a b c d e f H. rewrite (hexToRgb_six a b c d e f H).
    repeat match goal with
           | H : Forall _ (_ :: _) |- _ => inversion H; subst; clear H
           end.
    repeat match goal with
           | H : isHex _ = true |- _ => apply hexValue_range in H
           end.
    do 3 eexists. split; [reflexivity|].
    repeat split; eexists; (split; [reflexivity | lia]). }
  destruct Hl as [Hl|Hl].
  - destruct g as [|a [|b [|c [|? ?]]]]; try discriminate.
    rewrite (hexToRgb_three a b c Hg). apply H6.
    inversion Hg as [|? ? Ha Hg1]; subst. inversion Hg1 as [|? ? Hb Hg2]; subst.
    inversion Hg2 as [|? ? Hc _]; subst. repeat constructor; assumption.
  - destruct g as [|a [|b [|c [|d [|e [|f [|? ?]]]]]]]; try discriminate.
    now apply H6.
Qed.

(** X8.  [hexToRgb] reads the three channels of [#] and six hex digits,
    two digits a channel, and of the shorthand [#abc] as of [#aabbcc];
    every channel is an integer from 0 to 255.  It throws ['Invalid hex
    color'] for every other string. *)
Theorem hexToRgb_channels :
  (forall a b c d e f,
     Forall (fun x => isHex x = true) [a; b; c; d; e; f] ->
     hexToRgb ("#"%char :: [a; b; c; d; e; f])
     = Ok (Int (16 * hexValue a + hexValue b),
           Int (16 * hexValue c + hexValue d),
           Int (16 * hexValue e + hexValue f)))
  /\ (forall a b c,
        Forall (fun x => isHex x = true) [a; b; c] ->
        hexToRgb ("#"%char :: [a; b; c])
        = Ok (Int (17 * hexValue a), Int (17 * hexValue b), Int (17 * hexValue c)))
  /\ (forall hex r g b,
        hexToRgb hex = Ok (r, g, b) ->
        isChannel r /\ isChannel g /\ isChannel b /\ exists digits, hexShape hex digits)
  /\ (forall hex, (forall digits, ~ hexShape hex digits) ->
        hexToRgb hex = Throw InvalidHexColor).
Proof.
  forget_parameters.
  split; [exact hexToRgb_six|]. split; [|split].
  - intros a b c H. rewrite (hexToRgb_three a b c H).
    rewrite hexToRgb_six.
    + replace (16 * hexValue a + hexValue a) with (17 * hexValue a) by lia.
      replace (16 * hexValue b + hexValue b) with (17 * hexValue b) by lia.
      replace (16 * hexValue c + hexValue c) with (17 * hexValue c) by lia.
      reflexivity.
    + inversion H as [|? ? Ha Hg1]; subst. inversion Hg1 as [|? ? Hb Hg2]; subst.
      inversion Hg2 as [|? ? Hc _]; subst. repeat constructor; assumption.
  - intros hex r g b H.
    assert (exists digits, hexShape hex digits) as (digits & Hd).
    { unfold hexToRgb, normalizeHex in H.
      destruct (matchHexI hex) as [d|] eqn:E; [|discriminate].
      exists d. now apply matchHexI_spec. }
    destruct (hexToRgb_shape hex digits Hd) as (r' & g' & b' & E & Hr & Hg & Hb).
    rewrite E in H. injection H as <- <- <-. eauto 6.
  - intros hex H. unfold hexToRgb, normalizeHex.
    destruct (matchHexI hex) as [d|] eqn:E; [|reflexivity].
    apply matchHexI_spec in E. now apply H in E.
Qed.

(** X9.  [relativeLuminance] reads hex colors only: for [#] and three or
    six hex digits it is the luminance of the channels that [hexToRgb]
    reads; for every other string, a color name and [transparent]
    included, it throws ['Invalid hex color'].  Black has the luminance
    0. *)
Theorem relativeLuminance_spec : forall hex : str,
  (forall digits, hexShape hex digits ->
     exists c, hexToRgb hex = Ok c /\ relativeLuminance hex = Ok (luminanceSpec c))
  /\ ((forall digits, ~ hexShape hex digits) ->
      relativeLuminance hex = Throw InvalidHexColor)
  /\ (colorName hex -> relativeLuminance hex = Throw InvalidHexColor)
  /\ relativeLuminance (lit "#000000") = Ok 0%float.
Proof.
  clear CSS_COLORS_names CSS_COLORS_hex Math_pow_one.
  intros hex.
  assert ((forall digits, ~ hexShape hex digits) ->
          relativeLuminance hex = Throw InvalidHexColor) as Hthrow.
  { intros H. unfold relativeLuminance, hexToRgb, normalizeHex.
    destruct (matchHexI hex) as [d|] eqn:E; [|reflexivity].
    apply matchHexI_spec in E. now apply H in E. }
  split; [|split; [exact Hthrow | split; [|reflexivity]]].
  - intros digits Hd.
    destruct (hexToRgb_shape hex digits Hd) as (r & g & b & E & _).
    exists (r, g, b). split; [exact E|].
    unfold relativeLuminance. rewrite E. cbn [bind].
    now rewrite rgbToLuminance_spec.
  - intros Hn. apply Hthrow. intros digits (-> & _ & _).
    inversion Hn as [|? ? Hc _]. discriminate Hc.
Qed.

(** ** util.ts: the components of rgb() and hsl() *)

Lemma clampF_within : forall value min max,
  is_nan value = false -> (min <=? max)%float = true ->
  (min <=? clampF value min max)%float = true
  /\ (clampF value min max <=? max)%float = true.
Proof.
  intros value min max Hv H. pose proof (clampNumber_within value min max H) as Hc.
  unfold clampNumber in Hc. now rewrite Hv in Hc.
Qed.

Lemma positiveFinite_100 : positiveFinite 100.
Proof. do 2 eexists. vm_compute. reflexivity. Qed.

Lemma positiveFinite_255 : positiveFinite 255.
Proof. do 2 eexists. vm_compute. reflexivity. Qed.

Lemma Math_round_number : forall x, is_nan x = false -> Math_round x <> NaNi.
Proof.
  intros x H. apply Prim2SF_not_nan in H. unfold Math_round.
  destruct (Prim2SF x) as [s|[]| |s m e]; try discriminate; try congruence.
  destruct (0 <=? e); discriminate.
Qed.

Lemma clamp_channel : forall n, n <> NaNi -> isChannel (clamp n 0 255).
Proof.
  intros [| | |z] H; [congruence| | |]; eexists; (split; [reflexivity|]); lia.
Qed.

(** X10.  [parsePercentage] gives NaN exactly when the value does not
    end with [%] or when [parseFloat] reads no number before the [%];
    every other result is a number from 0 to 1. *)
Theorem parsePercentage_range : forall value : str,
  (is_nan (parsePercentage value) = true
   <-> endsWith value (lit "%") = false
       \/ is_nan (parseFloat (dropLast value)) = true)
  /\ (is_nan (parsePercentage value) = false ->
      (0 <=? parsePercentage value)%float = true
      /\ (parsePercentage value <=? 1)%float = true).
Proof.
  clear CSS_COLORS_names CSS_COLORS_hex Math_pow_one.
  intros value. unfold parsePercentage.
  destruct (endsWith value (lit "%")); cbn [negb].
  2: { split; [split; [now left | reflexivity] | discriminate]. }
  destruct (is_nan (parseFloat (dropLast value))) eqn:En.
  { split; [split; [now right | reflexivity] | discriminate]. }
  pose proof (div_not_nan _ _ positiveFinite_100 En) as Hd.
  destruct (clampF_within (parseFloat (dropLast value) / 100) 0 1 Hd eq_refl) as [H0 H1].
  split; [|intros _; split; assumption].
  rewrite (proj1 (leb_not_nan _ _ H1)).
  split; [discriminate | intros [H|H]; discriminate].
Qed.


Lemma startsWith_matchFunctional : forall name s,
  startsWith s name = false -> matchFunctional name s = None.
Proof.
  intros name s H. unfold startsWith in H. unfold matchFunctional.
  destruct (stripPrefix name s); [discriminate | reflexivity].
Qed.

Lemma parseRgbPart_channel : forall value n,
  parseRgbPart value = Some n -> isChannel n.
Proof.
  intros value n H. unfold parseRgbPart in H.
  destruct (endsWith value (lit "%")).
  - destruct (is_nan (parseFloat (dropLast value))) eqn:En; [discriminate|].
    injection H as <-. apply clamp_channel, Math_round_number.
    apply mul_not_nan; [exact positiveFinite_255|].
    apply div_not_nan; [exact positiveFinite_100 | exact En].
  - destruct (parseInt value 10) as [| | |z]; [discriminate| | |];
      injection H as <-.
    + apply (clamp_channel PosInf); discriminate.
    + apply (clamp_channel NegInf); discriminate.
    + apply (clamp_channel (Int z)); discriminate.
Qed.

(** X12.  [colorToRgb] never throws.  It gives [null] for
    [transparent]; for every other name of the table it gives the
    channels of the hex value of the name; and for every color that is
    not written [hsl...] the channels it gives are integers from 0 to
    255. *)
Theorem colorToRgb_channels : forall color : str,
  (exists result, colorToRgb color = Ok result)
  /\ (toLowerCase (trim color) = lit "transparent" -> colorToRgb color = Ok None)
  /\ (forall hex, CSS_COLORS (toLowerCase (trim color)) = Some hex ->
        toLowerCase (trim color) <> lit "transparent" ->
        exists c, hexToRgb hex = Ok c /\ colorToRgb color = Ok (Some c))
  /\ (forall r g b,
        colorToRgb color = Ok (Some (r, g, b)) ->
        startsWith (toLowerCase (trim color)) (lit "hsl") = false ->
        isChannel r /\ isChannel g /\ isChannel b).
Proof using CSS_COLORS_names CSS_COLORS_hex.
  clear Math_pow_one.
  intros color. split; [apply colorToRgb_total|]. split; [|split].
  - intros H. unfold colorToRgb. now rewrite H.
  - intros hex Ht Hnt. pose proof (CSS_COLORS_names _ _ Ht) as Hn.
    pose proof (CSS_COLORS_hex _ _ Ht) as Hh.
    destruct (hex6_matchHex _ Hh) as (h & Hm).
    destruct (hexToRgb_total _ _ Hm) as (c & Hc).
    exists c. split; [exact Hc|].
    set (n := toLowerCase (trim color)) in *.
    unfold colorToRgb. fold n.
    destruct n as [|x n'] eqn:En.
    { cbn. rewrite Ht, Hc. reflexivity. }
    assert (isLowerLetter x = true) as Hx by (inversion Hn; assumption).
    assert (str_eqb (x :: n') (lit "transparent") = false) as ->
      by (now apply str_eqb_neq).
    assert (matchHex (x :: n') = None) as ->.
    { destruct (matchHex (x :: n')) as [v|] eqn:E; [|reflexivity].
      apply matchHex_spec in E. destruct E as (E & _). injection E as -> _.
      discriminate Hx. }
    assert (~ In ")"%char (x :: n')) as Hclose.
    { intros Hin. unfold colorName in Hn. rewrite Forall_forall in Hn.
      apply Hn in Hin. discriminate Hin. }
    assert (forall name, matchFunctional name (x :: n') = None) as Hf.
    { intros name. destruct (matchFunctional name (x :: n')) as [g|] eqn:E; [|reflexivity].
      apply matchFunctional_sound in E. destruct E as (o & c' & Hform & _).
      destruct Hform as (_ & E & _). exfalso. apply Hclose.
      rewrite E. apply in_or_app. right. apply in_or_app. right. now left. }
    rewrite !Hf, Ht, Hc. reflexivity.
  - intros r g b H Hs.
    unfold colorToRgb in H. set (n := toLowerCase (trim color)) in *.
    destruct (str_eqb n (lit "transparent")); [discriminate|].
    destruct (matchHex n) as [v|] eqn:Eh.
    { destruct (hexToRgb n) as [[[r' g'] b']|e] eqn:Ec; [|discriminate].
      cbn [bind] in H. injection H as <- <- <-.
      apply matchHex_matchHexI in Eh. apply matchHexI_spec in Eh.
      destruct (hexToRgb_shape n v Eh) as (r2 & g2 & b2 & E2 & Hr & Hg & Hb).
      rewrite Ec in E2. injection E2 as <- <- <-. auto. }
    destruct (matchFunctional (lit "rgb") n) as [group|].
    { destruct (map parseRgbPart _) as [|[r'|] [|[g'|] [|[b'|] [|? ?]]]] eqn:Em;
        try discriminate.
      injection H as <- <- <-.
      destruct (slice _ 0 3) as [|p0 [|p1 [|p2 [|? ?]]]]; try discriminate.
      cbn [map] in Em. injection Em as E0 E1 E2.
      split; [|split]; eapply parseRgbPart_channel; eassumption. }
    rewrite (startsWith_matchFunctional _ _ Hs) in H.
    destruct (CSS_COLORS n) as [hex|] eqn:Et; [|discriminate].
    destruct (hexToRgb hex) as [[[r' g'] b']|e] eqn:Ec; [|discriminate].
    cbn [bind] in H. injection H as <- <- <-.
    apply CSS_COLORS_hex in Et. destruct (hex6_matchHex _ Et) as (h & Hm).
    apply matchHex_matchHexI in Hm. apply matchHexI_spec in Hm.
    destruct (hexToRgb_shape hex h Hm) as (r2 & g2 & b2 & E2 & Hr & Hg & Hb).
    rewrite Ec in E2. injection E2 as <- <- <-. auto.
Qed.

(** ** index.ts: the configuration of a render *)

Lemma parseColor_error : forall s e, parseColor s = Throw e -> e = InvalidColor.
Proof.
  clear CSS_COLORS_names CSS_COLORS_hex Math_pow_one.
  intros s e H. unfold parseColor in H.
  destruct (toLowerCase (trim s)) as [|c n]; [congruence|].
  destruct (_ || _); [discriminate|].
  destruct (CSS_COLORS _); [discriminate|].
  destruct (matchHex _) as [v|]; [destruct (length v =? 3)%nat; discriminate|].
  destruct (matchFunctional (lit "rgb") _); [destruct (startsWith _ _); discriminate|].
  destruct (matchFunctional (lit "hsl") _); [destruct (startsWith _ _); discriminate|].
  congruence.
Qed.

Lemma positiveFinite_2 : positiveFinite 2.
Proof. do 2 eexists. vm_compute. reflexivity. Qed.

Lemma positiveFinite_5 : positiveFinite 5.
Proof. do 2 eexists. vm_compute. reflexivity. Qed.

(** The shorter of two sides that are at least 0, divided by a positive
    constant, is at least 0. *)
Lemma side_nonneg : forall width height y,
  positiveFinite y ->
  (0 <=? width)%float = true -> (0 <=? height)%float = true ->
  (0 <=? Math_min width height / y)%float = true.
Proof.
  intros width height y Hy Hw Hh. apply div_nonneg; [exact Hy|].
  destruct (Math_min_bounds width height (proj2 (leb_not_nan _ _ Hw))
              (proj2 (leb_not_nan _ _ Hh))) as ([-> | ->] & _); assumption.
Qed.

Lemma trimmedParam_nonempty : forall params key, trimmedParam params key <> Some [].
Proof.
  intros params key. unfold trimmedParam.
  destruct (searchGet params key) as [v|]; [|discriminate].
  destruct (trim v); discriminate.
Qed.

Lemma clampText_length : forall value, (length (clampText value) <= 120)%nat.
Proof.
  intros value. unfold clampText, MAX_TEXT_LENGTH.
  destruct value as [|c v]; [simpl; lia|]. cbn [isEmpty].
  destruct (Z.of_nat (length (c :: v)) <=? 120) eqn:E.
  - apply Z.leb_le in E. lia.
  - apply Z.leb_gt in E. change (120 <=? 3) with false. cbv iota.
    change (120 - 3) with (Z.of_nat 117). rewrite slice_prefix by lia.
    rewrite length_app, length_firstn. change (length (lit "...")) with 3%nat. lia.
Qed.

(** [renderSvg] fails only on the stroke color. *)
Lemma resolveConfig_throw : forall options e,
  resolveConfig options = Throw e
  <-> exists s, searchGet (RenderOptions.searchParams options) (lit "stroke") = Some s
                /\ s <> [] /\ parseColor s = Throw e.
Proof.
  clear CSS_COLORS_names CSS_COLORS_hex Math_pow_one.
  intros options e. unfold resolveConfig.
  destruct (searchGet (RenderOptions.searchParams options) (lit "stroke")) as [[|c k]|].
  - cbn [bind]. split; [discriminate | intros (s & [= <-] & H & _); congruence].
  - destruct (parseColor (c :: k)) as [v|e'] eqn:Ep; cbn [bind].
    + split; [discriminate | intros (s & [= <-] & _ & H); congruence].
    + split.
      * intros [= <-]. exists (c :: k). repeat split; [discriminate | assumption].
      * intros (s & [= <-] & _ & H). congruence.
  - cbn [bind]. split; [discriminate | intros (s & [=] & _)].
Qed.

(** X13.  [renderSvg] throws exactly when the query has a [stroke] value
    that is not empty and that [parseColor] rejects, and then with
    ['Invalid color']: no other parameter of the query can make a render
    fail. *)
Theorem renderSvg_throws : forall (options : RenderOptions.t) (e : error),
  renderSvg options = Throw e
  <-> e = InvalidColor
      /\ badColor (searchGet (RenderOptions.searchParams options) (lit "stroke")).
Proof.
  clear CSS_COLORS_names CSS_COLORS_hex Math_pow_one.
  intros options e.
  assert (renderSvg options = Throw e <-> resolveConfig options = Throw e) as ->.
  { unfold renderSvg. destruct (resolveConfig options); cbn [bind];
      split; congruence. }
  rewrite resolveConfig_throw. unfold badColor. split.
  - intros (s & Hs & Hne & Hp). pose proof (parseColor_error s e Hp) as ->. eauto.
  - intros (-> & s & Hs & Hne & Hp). eauto.
Qed.

(** X14.  In every configuration that [renderSvg] resolves, the font
    size is a number from 12 to 128 and the text has at most 120
    characters; a font family and a font weight are absent or not empty;
    the dimensions, the colors and the scale are those of the options.
    When the width and the height are at least 0, the padding is from 0
    to half the shorter side, the radius is the scale times a number of
    that range, and the stroke width is absent or the scale times a
    number that is not 0, from 0 to a fifth of the shorter side. *)
Theorem resolveConfig_bounds : forall (options : RenderOptions.t) (c : RenderConfig.t),
  resolveConfig options = Ok c ->
  let width := RenderOptions.width options in
  let height := RenderOptions.height options in
  let scale := RenderOptions.scale options in
  ((12 <=? RenderConfig.fontSize c)%float = true
   /\ (RenderConfig.fontSize c <=? 128)%float = true)
  /\ (length (RenderConfig.text c) <= 120)%nat
  /\ RenderConfig.fontFamily c <> Some []
  /\ RenderConfig.fontWeight c <> Some []
  /\ (RenderConfig.width c = width /\ RenderConfig.height c = height
      /\ RenderConfig.background c = RenderOptions.background options
      /\ RenderConfig.foreground c = RenderOptions.foreground options
      /\ RenderConfig.scale c = scale)
  /\ ((0 <=? width)%float = true -> (0 <=? height)%float = true ->
      ((0 <=? RenderConfig.pad c)%float = true
       /\ (RenderConfig.pad c <=? halfSide width height)%float = true)
      /\ (exists radius,
            RenderConfig.radius c = (radius * scale)%float
            /\ (0 <=? radius)%float = true
            /\ (radius <=? halfSide width height)%float = true)
      /\ match RenderConfig.strokeWidth c with
         | None => True
         | Some w =>
             exists strokeWidth,
               w = (strokeWidth * scale)%float
               /\ is_zero strokeWidth = false
               /\ (0 <=? strokeWidth)%float = true
               /\ (strokeWidth <=? fifthSide width height)%float = true
         end).
Proof.
  clear CSS_COLORS_names CSS_COLORS_hex Math_pow_one.
  intros options c H width height scale. unfold resolveConfig in H.
  destruct (match searchGet (RenderOptions.searchParams options) (lit "stroke") with
            | Some (ch :: k) => _
            | _ => _
            end) as [strokeColor|e]; [|discriminate].
  cbn [bind] in H. injection H as <-. cbn.
  split; [apply clampNumber_within; reflexivity|].
  split; [apply clampText_length|].
  split; [apply trimmedParam_nonempty|].
  split; [apply trimmedParam_nonempty|].
  split; [repeat split|].
  intros Hw Hh. fold width height scale.
  pose proof (side_nonneg width height 2 positiveFinite_2 Hw Hh) as H2.
  pose proof (side_nonneg width height 5 positiveFinite_5 Hw Hh) as H5.
  split; [apply clampNumber_within; exact H2|].
  split; [eexists; split; [reflexivity|]; apply clampNumber_within; exact H2|].
  match goal with
  | |- context [truthyNumber ?x] => set (strokeWidth := x)
  end.
  destruct (truthyNumber strokeWidth) eqn:Et; [|exact I].
  exists strokeWidth. split; [reflexivity|].
  unfold truthyNumber in Et. apply negb_true_iff, orb_false_iff in Et.
  split; [exact (proj2 Et)|].
  apply clampNumber_within. exact H5.
Qed.

(** ** index.ts: the responses of fetch *)

Lemma buildHeaders_image : forall etag,
  buildHeaders
    [ (lit "Content-Type", lit "image/svg+xml; charset=utf-8");
      (lit "Cache-Control", lit "public, max-age=31536000, immutable");
      (lit "ETag", etag) ]
  = imageHeaders etag.
Proof. reflexivity. Qed.

Lemma usageResponse_plain :
  usageResponse None
  = {| Response.status := 400; Response.headers := textHeaders;
       Response.body := Some usageText |}.
Proof. reflexivity. Qed.

Lemma usageResponse_message : forall c m,
  usageResponse (Some (c :: m))
  = {| Response.status := 400; Response.headers := textHeaders;
       Response.body := Some (usageText ++ newline ++ lit "Error: " ++ c :: m) |}.
Proof. reflexivity. Qed.

Lemma message_nonempty : forall e, exists c m, message e = c :: m.
Proof. intros []; do 2 eexists; reflexivity. Qed.

(** What [respond] returns once the configuration is resolved. *)
(** The slashes at the start and at the end of a path leave no segment. *)
Lemma segments_leading : forall s,
  filter (fun piece => negb (isEmpty piece)) (splitOn "/"%char (dropWhile isSlash s))
  = filter (fun piece => negb (isEmpty piece)) (splitOn "/"%char s).
Proof.
  forget_parameters.
  induction s as [|x s IH]; [reflexivity|].
  cbn [dropWhile]. unfold isSlash at 1.
  destruct (ascii_dec x "/"%char) as [->|Hx]; [|reflexivity].
  rewrite IH. cbn [splitOn].
  destruct (ascii_dec "/"%char "/"%char); [reflexivity | congruence].
Qed.

Lemma segments_trailing : forall s w,
  Forall (fun c => isSlash c = true) w ->
  hd [] (splitOn "/"%char (s ++ w)) = hd [] (splitOn "/"%char s)
  /\ filter (fun piece => negb (isEmpty piece)) (tl (splitOn "/"%char (s ++ w)))
     = filter (fun piece => negb (isEmpty piece)) (tl (splitOn "/"%char s)).
Proof.
  forget_parameters.
  induction s as [|x s IH]; intros w Hw.
  - cbn [app]. induction Hw as [|c w Hc Hw IHw]; [split; reflexivity|].
    unfold isSlash in Hc. destruct (ascii_dec c "/"%char) as [->|]; [|discriminate].
    cbn [splitOn]. destruct (ascii_dec "/"%char "/"%char); [|congruence].
    cbn [hd tl]. split; [reflexivity|].
    rewrite (splitOn_cons "/"%char w). cbn [filter].
    destruct IHw as [-> ->]. reflexivity.
  - destruct (IH w Hw) as [H1 H2]. cbn [app splitOn].
    destruct (ascii_dec x "/"%char).
    + cbn [hd tl]. split; [reflexivity|].
      rewrite (splitOn_cons "/"%char (s ++ w)), (splitOn_cons "/"%char s).
      cbn [filter]. now rewrite H1, H2.
    + rewrite (splitOn_cons "/"%char (s ++ w)), (splitOn_cons "/"%char s).
      cbn [hd tl]. now rewrite H1, H2.
Qed.

Lemma lookupOf_segments : forall request,
  lookupOf request = decodeAll (pathSegments request).
Proof.
  intros request. unfold lookupOf, pathSegments, stripSlashes. f_equal.
  rewrite <- (segments_leading (Request.pathname request)).
  set (t := dropWhile isSlash (Request.pathname request)).
  pose proof (takeWhile_dropWhile isSlash (rev t)) as E.
  apply (f_equal (@rev ascii)) in E. rewrite rev_app_distr, rev_involutive in E.
  rewrite <- E at 2.
  set (u := rev (dropWhile isSlash (rev t))).
  destruct (segments_trailing u (rev (takeWhile isSlash (rev t)))) as [H1 H2].
  { apply Forall_rev. apply takeWhile_all. }
  rewrite (splitOn_cons "/"%char u).
  rewrite (splitOn_cons "/"%char (u ++ rev (takeWhile isSlash (rev t)))).
  cbn [filter]. now rewrite H1, H2.
Qed.

Lemma decodeAll_malformed : forall segments,
  (exists segment, In segment segments /\ decodeURIComponent segment = None) ->
  decodeAll segments = Throw URIMalformed.
Proof.
  induction segments as [|s rest IH]; intros (segment & Hin & Hd); [contradiction|].
  cbn [decodeAll]. destruct (decodeURIComponent s) as [d|] eqn:Es; [|reflexivity].
  destruct Hin as [->|Hin]; [congruence|].
  rewrite IH by eauto. reflexivity.
Qed.

Lemma decodeAll_decoded : forall segments,
  (forall segment, In segment segments -> decodeURIComponent segment <> None) ->
  exists lookup, decodeAll segments = Ok lookup
                 /\ Forall2 (fun segment decoded =>
                               decodeURIComponent segment = Some decoded)
                      segments lookup.
Proof.
  induction segments as [|s rest IH]; intros H.
  - exists []. split; [reflexivity | constructor].
  - destruct IH as (lookup & Hl & Hf); [intros x Hx; apply H; now right|].
    cbn [decodeAll]. destruct (decodeURIComponent s) as [d|] eqn:Es.
    + exists (d :: lookup). rewrite Hl. split; [reflexivity|]. now constructor.
    + exfalso. apply (H s); [now left | exact Es].
Qed.

Lemma lookupOf_malformed : forall request,
  (exists segment, In segment (pathSegments request)
                   /\ decodeURIComponent segment = None) ->
  lookupOf request = Throw URIMalformed.
Proof. intros request H. rewrite lookupOf_segments. now apply decodeAll_malformed. Qed.

Lemma lookupOf_decoded : forall request,
  (forall segment, In segment (pathSegments request) ->
                   decodeURIComponent segment <> None) ->
  exists lookup, lookupOf request = Ok lookup
                 /\ Forall2 (fun segment decoded =>
                               decodeURIComponent segment = Some decoded)
                      (pathSegments request) lookup.
Proof. intros request H. rewrite lookupOf_segments. now apply decodeAll_decoded. Qed.

Lemma decodeAll_error : forall segments e,
  decodeAll segments = Throw e -> e = URIMalformed.
Proof.
  induction segments as [|segment rest IH]; intros e H; [discriminate H|].
  cbn [decodeAll] in H. destruct (decodeURIComponent segment); [|congruence].
  destruct (decodeAll rest) as [others|e']; [discriminate H|].
  cbn [bind] in H. injection H as <-. now apply IH.
Qed.

Lemma respond_image : forall request dims rest c,
  lookupOf request = Ok (dims :: rest) ->
  resolveRequest dims rest (Request.searchParams request) = Ok c ->
  respond request
  = Ok (if match headersGet (Request.headers request) (lit "If-None-Match") with
           | Some v => str_eqb v (quoted (fingerprint c))
           | None => false
           end
        then {| Response.status := 304;
                Response.headers := imageHeaders (quoted (fingerprint c));
                Response.body := None |}
        else if str_eqb (Request.method request) (lit "HEAD")
        then {| Response.status := 200;
                Response.headers := imageHeaders (quoted (fingerprint c));
                Response.body := None |}
        else {| Response.status := 200;
                Response.headers := imageHeaders (quoted (fingerprint c));
                Response.body := Some (buildSVG (svgOptionsOf c)) |}).
Proof.
  intros request dims rest c Hl Hc. unfold respond, resolveRequest in *. rewrite Hl.
  cbn [bind] in *.
  destruct (parseDims dims) as [d|e]; [|discriminate]. cbn [bind] in *.
  destruct (if truthy (nth_error rest 0) then _ else _) as [background|e];
    [|discriminate]. cbn [bind] in *.
  destruct (if truthy (nth_error rest 1) then _ else _) as [foreground|e];
    [|discriminate]. cbn [bind] in *.
  unfold renderSvg. rewrite Hc. cbn [bind]. fold (fingerprint c).
  rewrite buildHeaders_image.
  destruct (match headersGet (Request.headers request) (lit "If-None-Match") with
            | Some v => str_eqb v (quoted (fingerprint c))
            | None => false
            end); [reflexivity|].
  destruct (str_eqb (Request.method request) (lit "HEAD")); reflexivity.
Qed.

Lemma respond_throw : forall request dims rest e,
  lookupOf request = Ok (dims :: rest) ->
  resolveRequest dims rest (Request.searchParams request) = Throw e ->
  respond request = Throw e.
Proof.
  intros request dims rest e Hl He.
  pose proof (respond_etag request dims rest Hl) as H. now rewrite He in H.
Qed.

(** The kinds of response. *)
Lemma fetch_cases : forall request,
  (Request.method request = lit "OPTIONS"
   /\ fetch request
      = {| Response.status := 204;
           Response.headers := [(lit "Access-Control-Allow-Origin", lit "*")];
           Response.body := None |})
  \/ (Request.method request <> lit "OPTIONS"
      /\ lookupOf request = Ok []
      /\ fetch request
         = {| Response.status := 400; Response.headers := textHeaders;
              Response.body := Some usageText |})
  \/ (Request.method request <> lit "OPTIONS"
      /\ exists dims rest e,
           lookupOf request = Ok (dims :: rest)
           /\ resolveRequest dims rest (Request.searchParams request) = Throw e
           /\ fetch request
              = {| Response.status := 400; Response.headers := textHeaders;
                   Response.body :=
                     Some (usageText ++ newline ++ lit "Error: " ++ message e) |})
  \/ (Request.method request <> lit "OPTIONS"
      /\ exists dims rest c body,
           lookupOf request = Ok (dims :: rest)
           /\ resolveRequest dims rest (Request.searchParams request) = Ok c
           /\ fetch request
              = {| Response.status :=
                     if match headersGet (Request.headers request) (lit "If-None-Match") with
                        | Some v => str_eqb v (quoted (fingerprint c))
                        | None => false
                        end
                     then 304 else 200;
                   Response.headers := imageHeaders (quoted (fingerprint c));
                   Response.body := body |}
           /\ body
              = if match headersGet (Request.headers request) (lit "If-None-Match") with
                   | Some v => str_eqb v (quoted (fingerprint c))
                   | None => false
                   end
                then None
                else if str_eqb (Request.method request) (lit "HEAD") then None
                else Some (buildSVG (svgOptionsOf c)))
  \/ (Request.method request <> lit "OPTIONS"
      /\ lookupOf request = Throw URIMalformed
      /\ fetch request
         = {| Response.status := 400; Response.headers := textHeaders;
              Response.body :=
                Some (usageText ++ newline ++ lit "Error: URI malformed") |}).
Proof.
  intros request. unfold fetch.
  destruct (str_eqb (Request.method request) (lit "OPTIONS")) eqn:Em.
  { left. apply str_eqb_eq in Em. split; [exact Em | reflexivity]. }
  apply str_eqb_neq in Em. right.
  destruct (lookupOf request) as [[|dims rest]|e] eqn:El.
  { left. split; [exact Em|]. split; [reflexivity|].
    unfold respond. rewrite El. apply usageResponse_plain. }
  2:{ do 3 right. split; [exact Em|].
      assert (e = URIMalformed) as -> by (exact (decodeAll_error _ _ El)).
      split; [reflexivity|]. unfold respond. rewrite El. reflexivity. }
  right.
  destruct (resolveRequest dims rest (Request.searchParams request)) as [c|e] eqn:Er.
  - right. left. split; [exact Em|].
    rewrite (respond_image request dims rest c El Er).
    exists dims, rest, c. eexists. split; [reflexivity|]. split; [exact Er|].
    split; [|reflexivity].
    destruct (match headersGet (Request.headers request) (lit "If-None-Match") with
              | Some v => str_eqb v (quoted (fingerprint c))
              | None => false
              end); [reflexivity|].
    destruct (str_eqb (Request.method request) (lit "HEAD")); reflexivity.
  - left. split; [exact Em|]. exists dims, rest, e.
    split; [reflexivity|]. split; [exact Er|].
    rewrite (respond_throw request dims rest e El Er).
    destruct (message_nonempty e) as (ch & m & ->). apply usageResponse_message.
Qed.

(** X15.  Every response of [fetch] allows every origin: whatever the
    request, the header [Access-Control-Allow-Origin] of the response is
    [*]. *)
Theorem fetch_allows_every_origin : forall request : Request.t,
  headersGet (Response.headers (fetch request)) (lit "Access-Control-Allow-Origin")
  = Some (lit "*")
  /\ headersGet (Response.headers (fetch request)) (lit "access-control-allow-origin")
     = Some (lit "*").
Proof.
  intros request.
  destruct (fetch_cases request)
    as [(_ & ->)|[(_ & _ & ->)|[(_ & d & r & e & _ & _ & ->)
                               |[(_ & d & r & c & b & _ & _ & -> & _)
                                |(_ & _ & ->)]]]];
    split; reflexivity.
Qed.

(** X16.  The status of a response is 204, 200, 304 or 400, and 204
    exactly for the method OPTIONS.  A response has no body exactly when
    its status is 204 or 304, or 200 in answer to HEAD.  It has an ETag
    exactly when its status is 200 or 304, and then its content type is
    [image/svg+xml] and it may be cached for a year; a 400 is plain
    text. *)
Theorem fetch_status : forall request : Request.t,
  let response := fetch request in
  let status := Response.status response in
  (status = 204 \/ status = 200 \/ status = 304 \/ status = 400)
  /\ (status = 204 <-> Request.method request = lit "OPTIONS")
  /\ (Response.body response = None
      <-> status = 204 \/ status = 304
          \/ (status = 200 /\ Request.method request = lit "HEAD"))
  /\ (etagOf response <> None <-> status = 200 \/ status = 304)
  /\ (status = 200 \/ status = 304 ->
      exists etag, Response.headers response = imageHeaders etag)
  /\ (status = 400 -> Response.headers response = textHeaders).
Proof.
  intros request response status. unfold status, response.
  destruct (fetch_cases request)
    as [(Hm & ->)|[(Hm & _ & ->)|[(Hm & d & r & e & _ & _ & ->)
                                 |[(Hm & d & r & c & b & _ & _ & -> & Hb)
                                  |(Hm & _ & ->)]]]];
    cbn [Response.status Response.body Response.headers].
  - split; [auto|]. split; [tauto|]. split; [tauto|].
    split; [split; [intros H; now contradiction H | intros [H|H]; discriminate]|].
    split; [intros [H|H]; discriminate | discriminate].
  - split; [auto|]. split; [split; [discriminate | tauto]|].
    split; [split; [discriminate | intros [H|[H|[H _]]]; discriminate]|].
    split; [split; [intros H; now contradiction H | intros [H|H]; discriminate]|].
    split; [intros [H|H]; discriminate | reflexivity].
  - split; [auto|]. split; [split; [discriminate | tauto]|].
    split; [split; [discriminate | intros [H|[H|[H _]]]; discriminate]|].
    split; [split; [intros H; now contradiction H | intros [H|H]; discriminate]|].
    split; [intros [H|H]; discriminate | reflexivity].
  - unfold etagOf. cbn [Response.headers].
    change (headersGet (imageHeaders (quoted (fingerprint c))) (lit "ETag"))
      with (Some (quoted (fingerprint c))).
    destruct (match headersGet (Request.headers request) (lit "If-None-Match") with
              | Some v => str_eqb v (quoted (fingerprint c))
              | None => false
              end).
    + subst b. split; [auto|]. split; [split; [discriminate | tauto]|].
      split; [split; auto|]. split; [split; [auto | discriminate]|].
      split; [eauto | discriminate].
    + split; [auto|]. split; [split; [discriminate | tauto]|].
      split; [|split; [split; [auto | discriminate]|split; [eauto | discriminate]]].
      destruct (str_eqb (Request.method request) (lit "HEAD")) eqn:Eh; subst b.
      * apply str_eqb_eq in Eh. split; auto.
      * apply str_eqb_neq in Eh.
        split; [discriminate | intros [H|[H|[_ H]]]; [discriminate..|contradiction]].
  - split; [auto|]. split; [split; [discriminate | tauto]|].
    split; [split; [discriminate | intros [H|[H|[H _]]]; discriminate]|].
    split; [split; [intros H; now contradiction H | intros [H|H]; discriminate]|].
    split; [intros [H|H]; discriminate | reflexivity].
Qed.

Lemma parseDims_range : forall token d,
  parseDims token = Ok d ->
  exists w h,
    d = {| Dimensions.width := Int w; Dimensions.height := Int h |}
    /\ 1 <= w <= 8000 /\ 1 <= h <= 8000.
Proof.
  forget_parameters.
  intros token d H. unfold parseDims in H.
  destruct (matchDims (trim token)) as [[w h]|] eqn:E; [|discriminate].
  apply matchDims_spec in E. destruct E as (_ & Hw & Hh).
  rewrite (parseInt_digits w (digits1to4_nonempty w Hw) (proj2 Hw)) in H.
  rewrite (parseInt_digits h (digits1to4_nonempty h Hh) (proj2 Hh)) in H.
  unfold clamp, intnum_ltb, MIN_DIMENSION, MAX_DIMENSION in H.
  destruct (_ || _); [discriminate|]. injection H as <-.
  do 2 eexists. split; [reflexivity|]. lia.
Qed.

Lemma parseDims_error : forall token e, parseDims token = Throw e -> e = InvalidDimensions.
Proof.
  intros token e H. unfold parseDims in H.
  destruct (matchDims (trim token)) as [[w h]|]; [|congruence].
  destruct (_ || _); congruence.
Qed.

Lemma autoContrast_total : forall bg, exists v, autoContrast bg = Ok v.
Proof using CSS_COLORS_hex.
  clear CSS_COLORS_names Math_pow_one.
  intros bg. unfold autoContrast. destruct (str_eqb bg (lit "transparent")); [eauto|].
  destruct (colorToRgb_total bg) as ([c|] & ->); cbn [bind]; [|eauto].
  destruct (0.55 <? rgbToLuminance c)%float; eauto.
Qed.

(** The color of a path segment: the segment itself when it is there and
    not empty. *)
Lemma segment_color : forall (segment : option str) (fallback : result str) e,
  (if truthy segment then parseColor (orDefault segment []) else fallback) = Throw e ->
  (e = InvalidColor /\ badColor segment) \/ (truthy segment = false /\ fallback = Throw e).
Proof.
  clear CSS_COLORS_names CSS_COLORS_hex Math_pow_one.
  intros [[|c s]|] fallback e H; cbn [truthy orDefault] in H; auto.
  left. pose proof (parseColor_error _ _ H) as ->. split; [reflexivity|].
  exists (c :: s). repeat split; [discriminate | assumption].
Qed.

Lemma segment_bad : forall (segment : option str) (fallback : result str),
  badColor segment ->
  (if truthy segment then parseColor (orDefault segment []) else fallback)
  = Throw InvalidColor.
Proof.
  intros segment fallback (s & -> & Hne & Hp).
  destruct s as [|c s]; [contradiction|]. exact Hp.
Qed.

(** When the dimensions are read, the configuration fails to resolve
    exactly when a color is bad, and then with ['Invalid color']. *)
Lemma resolveRequest_colors : forall dims rest params d,
  parseDims dims = Ok d ->
  let failing :=
    badColor (nth_error rest 0) \/ badColor (nth_error rest 1)
    \/ badColor (searchGet params (lit "stroke")) in
  (failing -> resolveRequest dims rest params = Throw InvalidColor)
  /\ (forall e, resolveRequest dims rest params = Throw e -> e = InvalidColor /\ failing).
Proof using CSS_COLORS_hex.
  clear CSS_COLORS_names Math_pow_one.
  intros dims rest params d Hd failing.
  assert (forall e, resolveRequest dims rest params = Throw e -> e = InvalidColor /\ failing)
    as Hthrow.
  { intros e H. unfold resolveRequest in H. rewrite Hd in H. cbn [bind] in H.
    destruct (if truthy (nth_error rest 0) then _ else _) as [background|e1] eqn:E1.
    2: { cbn [bind] in H. injection H as ->.
         apply segment_color in E1. destruct E1 as [[-> Hb]|[_ E1]]; [|discriminate].
         split; [reflexivity | now left]. }
    cbn [bind] in H.
    destruct (if truthy (nth_error rest 1) then _ else _) as [foreground|e2] eqn:E2.
    2: { cbn [bind] in H. injection H as ->.
         apply segment_color in E2. destruct E2 as [[-> Hb]|[_ E2]].
         - split; [reflexivity | right; now left].
         - destruct (autoContrast_total background) as (v & Hv). congruence. }
    cbn [bind] in H. apply resolveConfig_throw in H. cbn in H.
    destruct H as (s & Hs & Hne & Hp). pose proof (parseColor_error _ _ Hp) as ->.
    split; [reflexivity|]. right. right. exists s. auto. }
  split; [|exact Hthrow].
  intros Hf.
  destruct (resolveRequest dims rest params) as [c|e] eqn:Er.
  2: { destruct (Hthrow e eq_refl) as [-> _]. reflexivity. }
  exfalso. unfold resolveRequest in Er. rewrite Hd in Er. cbn [bind] in Er.
  destruct (if truthy (nth_error rest 0) then _ else _) as [background|e1] eqn:E1;
    [|discriminate].
  cbn [bind] in Er.
  destruct (if truthy (nth_error rest 1) then _ else _) as [foreground|e2] eqn:E2;
    [|discriminate].
  cbn [bind] in Er.
  destruct Hf as [Hb|[Hb|Hb]].
  - rewrite (segment_bad _ _ Hb) in E1. discriminate.
  - rewrite (segment_bad _ _ Hb) in E2. discriminate.
  - destruct Hb as (s & Hs & Hne & Hp).
    assert (resolveConfig
              {| RenderOptions.width := ofInt (Dimensions.width d);
                 RenderOptions.height := ofInt (Dimensions.height d);
                 RenderOptions.background := background;
                 RenderOptions.foreground := foreground;
                 RenderOptions.scale := ofZ (parseScale (searchGet params (lit "scale")));
                 RenderOptions.searchParams := params |} = Throw InvalidColor) as Hr.
    { apply resolveConfig_throw. exists s. auto. }
    congruence.
Qed.

(** X17.  The error responses.  A request whose path has a segment
    that [decodeURIComponent] cannot decode, wherever the segment stands,
    gets the usage text and the line [Error: URI malformed], with the
    status 400.  Of the others, a request without a path segment gets the
    two lines of the usage text; one whose first segment is not a
    dimensions token gets the usage text and the line [Error: Invalid
    dimensions]; one whose dimensions are read but whose background
    segment, foreground segment or [stroke] value is not empty and not a
    color gets the line [Error: Invalid color].  In every other case the
    status is 200 or 304. *)
Theorem fetch_errors : forall request : Request.t,
  Request.method request <> lit "OPTIONS" ->
  ((exists segment, In segment (pathSegments request)
                    /\ decodeURIComponent segment = None) ->
   fetch request
   = {| Response.status := 400; Response.headers := textHeaders;
        Response.body := Some (usageText ++ newline ++ lit "Error: URI malformed") |})
  /\ ((forall segment, In segment (pathSegments request) ->
                       decodeURIComponent segment <> None) ->
      exists lookup, lookupOf request = Ok lookup
                     /\ Forall2 (fun segment decoded =>
                                   decodeURIComponent segment = Some decoded)
                          (pathSegments request) lookup)
  /\ (lookupOf request = Ok [] ->
      fetch request
      = {| Response.status := 400; Response.headers := textHeaders;
           Response.body := Some usageText |})
  /\ (forall dims rest,
        lookupOf request = Ok (dims :: rest) ->
        let failing :=
          badColor (nth_error rest 0) \/ badColor (nth_error rest 1)
          \/ badColor (searchGet (Request.searchParams request) (lit "stroke")) in
        (parseDims dims = Throw InvalidDimensions ->
         fetch request
         = {| Response.status := 400; Response.headers := textHeaders;
              Response.body :=
                Some (usageText ++ newline ++ lit "Error: Invalid dimensions") |})
        /\ (parseDims dims <> Throw InvalidDimensions -> failing ->
            fetch request
            = {| Response.status := 400; Response.headers := textHeaders;
                 Response.body :=
                   Some (usageText ++ newline ++ lit "Error: Invalid color") |})
        /\ (parseDims dims <> Throw InvalidDimensions -> ~ failing ->
            Response.status (fetch request) = 200
            \/ Response.status (fetch request) = 304)).
Proof using CSS_COLORS_hex.
  clear CSS_COLORS_names Math_pow_one.
  intros request Hm.
  split; [|split].
  { intros Hbad. apply lookupOf_malformed in Hbad.
    destruct (fetch_cases request)
      as [(Hm' & _)|[(_ & Hl & _)|[(_ & d & r & e & Hl & _)
                                  |[(_ & d & r & c & b & Hl & _)|(_ & _ & Hf)]]]];
      [contradiction|congruence|congruence|congruence|exact Hf]. }
  { intros Hgood. now apply lookupOf_decoded. }
  destruct (fetch_cases request)
    as [(Hm' & _)|[(_ & Hl & Hf)|[(_ & d & r & e & Hl & He & Hf)
                                 |[(_ & d & r & c & b & Hl & Hc & Hf & _)
                                  |(_ & Hl & Hf)]]]];
    [contradiction| | | |].
  - split; [intros _; exact Hf|]. intros dims rest Hl'. congruence.
  - split; [congruence|]. intros dims rest Hl'.
    rewrite Hl' in Hl. injection Hl as <- <-. intros failing.
    destruct (parseDims dims) as [dd|ed] eqn:Ed.
    + destruct (resolveRequest_colors dims rest (Request.searchParams request) dd Ed)
        as [_ H2].
      destruct (H2 e He) as [-> Hfail].
      split; [discriminate|]. split; [intros _ _; exact Hf|].
      intros _ Hn. contradiction.
    + pose proof (parseDims_error _ _ Ed) as ->.
      assert (e = InvalidDimensions) as ->.
      { unfold resolveRequest in He. rewrite Ed in He. cbn [bind] in He. congruence. }
      split; [intros _; exact Hf|]. split; intros H; now contradiction H.
  - split; [congruence|]. intros dims rest Hl'.
    rewrite Hl' in Hl. injection Hl as <- <-. intros failing.
    destruct (parseDims dims) as [dd|ed] eqn:Ed.
    + destruct (resolveRequest_colors dims rest (Request.searchParams request) dd Ed)
        as [H1 _].
      split; [discriminate|]. split.
      * intros _ Hfail. apply H1 in Hfail. congruence.
      * intros _ _. rewrite Hf. cbn [Response.status].
        destruct (match headersGet _ _ with Some v => _ | None => false end); auto.
    + unfold resolveRequest in Hc. rewrite Ed in Hc. discriminate.
  - split; [congruence|]. intros dims rest Hl'. congruence.
Qed.

Lemma filter_none : forall {A} (p : A -> bool) l,
  Forall (fun x => p x = false) l -> filter p l = [].
Proof.
  induction l as [|x l IH]; intros H; [reflexivity|].
  inversion H; subst. cbn [filter]. rewrite H2. now apply IH.
Qed.

(** X18.  A conditional request.  When a response carries an ETag, the
    same request sent again is answered 304, with no body and with the
    headers of the first response, when [If-None-Match] reads that ETag,
    and 200 again when it reads anything else.  It reads the ETag when the
    ETag is sent in the only header of that name; it does not when a
    second header of that name comes with it, since the values of the two
    are read joined by a comma and a blank. *)
Theorem fetch_not_modified : forall (request : Request.t) (etag : str)
    (headers : list (str * str)),
  etagOf (fetch request) = Some etag ->
  let again := withHeaders request headers in
  (headersGet headers (lit "If-None-Match") = Some etag ->
   Response.status (fetch again) = 304
   /\ Response.body (fetch again) = None
   /\ Response.headers (fetch again) = Response.headers (fetch request)
   /\ etagOf (fetch again) = Some etag)
  /\ (headersGet headers (lit "If-None-Match") <> Some etag ->
      Response.status (fetch again) = 200
      /\ Response.headers (fetch again) = Response.headers (fetch request))
  /\ (forall before after,
        Forall (fun kv => sameName (fst kv) (lit "If-None-Match") = false) before ->
        Forall (fun kv => sameName (fst kv) (lit "If-None-Match") = false) after ->
        headersGet (before ++ (lit "If-None-Match", etag) :: after) (lit "If-None-Match")
        = Some etag)
  /\ (forall name second others,
        sameName name (lit "If-None-Match") = true ->
        headersGet ((lit "If-None-Match", etag) :: (name, second) :: others)
          (lit "If-None-Match")
        <> Some etag).
Proof.
  intros request etag headers H again.
  split; [|split; [|split]].
  3:{ intros before after Hb Ha. unfold headersGet. rewrite filter_app.
      rewrite (filter_none _ before Hb). cbn [app filter fst].
      change (sameName (lit "If-None-Match") (lit "If-None-Match")) with true.
      cbv beta iota. rewrite (filter_none _ after Ha). reflexivity. }
  3:{ intros name second others Hn. unfold headersGet. cbn [filter fst].
      change (sameName (lit "If-None-Match") (lit "If-None-Match")) with true.
      cbv beta iota. rewrite Hn. cbn [map snd].
      set (rest := filter _ others).
      change (join (lit ", ") (etag :: second :: map snd rest))
        with (etag ++ lit ", " ++ join (lit ", ") (second :: map snd rest)).
      intros E. injection E as E. rewrite <- (app_nil_r etag) in E at 2.
      apply app_inv_head in E. discriminate E. }
  all: destruct (fetch_cases request)
    as [(_ & Hf)|[(_ & _ & Hf)|[(_ & d & r & e & _ & _ & Hf)
                                |[(Hm & d & r & c & b & Hl & Hc & Hf & _)
                                 |(_ & _ & Hf)]]]];
    rewrite Hf in H |- *; try discriminate H;
    unfold etagOf in H; cbn [Response.headers] in H;
    change (headersGet (imageHeaders (quoted (fingerprint c))) (lit "ETag"))
      with (Some (quoted (fingerprint c))) in H;
    injection H as <-; intros Hg;
    assert (fetch again = match respond again with
                          | Ok response => response
                          | Throw e => usageResponse (Some (message e))
                          end) as ->
      by (unfold fetch; change (Request.method again) with (Request.method request);
          apply str_eqb_neq in Hm; now rewrite Hm);
    rewrite (respond_image again d r c Hl Hc);
    change (Request.headers again) with headers.
  - rewrite Hg.
    assert (str_eqb (quoted (fingerprint c)) (quoted (fingerprint c)) = true) as ->
      by (now apply str_eqb_eq).
    repeat split.
  - assert (match headersGet headers (lit "If-None-Match") with
            | Some v => str_eqb v (quoted (fingerprint c))
            | None => false
            end = false) as ->.
    { destruct (headersGet headers (lit "If-None-Match")) as [v|]; [|reflexivity].
      apply str_eqb_neq. congruence. }
    destruct (str_eqb (Request.method again) (lit "HEAD")); split; reflexivity.
Qed.

(** X19.  HEAD.  A request that is answered 200 or 304 gets, when sent
    with the method HEAD, the same status and the same headers, and no
    body; a request that is answered 400 gets the same response, body
    included. *)
Theorem fetch_head : forall request : Request.t,
  Request.method request <> lit "OPTIONS" ->
  let head := withMethod request (lit "HEAD") in
  Response.status (fetch head) = Response.status (fetch request)
  /\ Response.headers (fetch head) = Response.headers (fetch request)
  /\ (Response.status (fetch request) <> 400 -> Response.body (fetch head) = None)
  /\ (Response.status (fetch request) = 400 -> fetch head = fetch request).
Proof.
  intros request Hm head.
  assert (Request.method head <> lit "OPTIONS") as Hh by discriminate.
  destruct (fetch_cases request)
    as [(Hm' & _)|[(_ & Hl & Hf)|[(_ & d & r & e & Hl & He & Hf)
                                 |[(_ & d & r & c & b & Hl & Hc & Hf & Hb)
                                  |(_ & Hl & Hf)]]]];
    [contradiction| | | |];
    destruct (fetch_cases head)
      as [(Hm' & _)|[(_ & Hl' & Hf')|[(_ & d' & r' & e' & Hl' & He' & Hf')
                                     |[(_ & d' & r' & c' & b' & Hl' & Hc' & Hf' & Hb')
                                      |(_ & Hl' & Hf')]]]];
    try contradiction;
    change (lookupOf head) with (lookupOf request) in Hl';
    change (Request.searchParams head) with (Request.searchParams request) in *;
    try congruence.
  - rewrite Hf, Hf'. repeat split. intros H. now contradiction H.
  - rewrite Hl in Hl'. injection Hl' as <- <-.
    rewrite He in He'. injection He' as <-.
    rewrite Hf, Hf'. repeat split. intros H. now contradiction H.
  - rewrite Hl in Hl'. injection Hl' as <- <-.
    rewrite Hc in Hc'. injection Hc' as <-.
    rewrite Hf, Hf'. cbn [Response.status Response.headers Response.body].
    change (Request.headers head) with (Request.headers request) in *.
    split; [reflexivity|]. split; [reflexivity|]. split.
    + intros _. rewrite Hb'.
      destruct (match headersGet _ _ with Some v => _ | None => false end);
        reflexivity.
    + destruct (match headersGet _ _ with Some v => _ | None => false end);
        discriminate.
  - rewrite Hf, Hf'. repeat split. intros H. now contradiction H.
Qed.

Lemma ofZ_dimension : forall w, 1 <= w <= 8000 ->
  (1 <=? ofZ w)%float = true /\ (ofZ w <=? 8000)%float = true.
Proof.
  forget_parameters.
  assert (forallb (fun n => ((1 <=? ofZ (Z.of_nat n)) && (ofZ (Z.of_nat n) <=? 8000))%float)
            (seq 1 (Z.to_nat 8000)) = true) as H by (vm_compute; reflexivity).
  intros w Hw. rewrite forallb_forall in H. specialize (H (Z.to_nat w)).
  rewrite Z2Nat.id in H by lia. apply andb_true_iff. apply H. apply in_seq. lia.
Qed.

(** X20.  The configuration that [fetch] resolves from a path and a
    query.  The width and the height are the integers of the first
    segment, from 1 to 8000; the scale is 1 or 2; the background is the
    color of the second segment, or [#dddddd] when that segment is
    absent or empty; the foreground is the color of the third segment,
    or the contrast color of the background when that segment is absent
    or empty; the rest is resolved by [renderSvg] from these and the
    query. *)
Theorem fetch_configuration : forall (dims : str) (rest : list str)
    (searchParams : URLSearchParams) (c : RenderConfig.t),
  resolveRequest dims rest searchParams = Ok c ->
  exists w h,
    parseDims dims
    = Ok {| Dimensions.width := Int w; Dimensions.height := Int h |}
    /\ (1 <= w <= 8000 /\ 1 <= h <= 8000)
    /\ (RenderConfig.width c = ofZ w /\ RenderConfig.height c = ofZ h)
    /\ ((1 <=? RenderConfig.width c)%float = true
        /\ (RenderConfig.width c <=? 8000)%float = true
        /\ (1 <=? RenderConfig.height c)%float = true
        /\ (RenderConfig.height c <=? 8000)%float = true)
    /\ (RenderConfig.scale c = 1%float \/ RenderConfig.scale c = 2%float)
    /\ (if truthy (nth_error rest 0)
        then parseColor (orDefault (nth_error rest 0) []) = Ok (RenderConfig.background c)
        else RenderConfig.background c = lit "#dddddd")
    /\ (if truthy (nth_error rest 1)
        then parseColor (orDefault (nth_error rest 1) []) = Ok (RenderConfig.foreground c)
        else autoContrast (RenderConfig.background c) = Ok (RenderConfig.foreground c))
    /\ resolveConfig
         {| RenderOptions.width := ofZ w;
            RenderOptions.height := ofZ h;
            RenderOptions.background := RenderConfig.background c;
            RenderOptions.foreground := RenderConfig.foreground c;
            RenderOptions.scale := RenderConfig.scale c;
            RenderOptions.searchParams := searchParams |}
       = Ok c.
Proof.
  clear CSS_COLORS_names CSS_COLORS_hex Math_pow_one.
  intros dims rest searchParams c H. unfold resolveRequest in H.
  destruct (parseDims dims) as [d|e] eqn:Ed; [|discriminate]. cbn [bind] in H.
  destruct (parseDims_range dims d Ed) as (w & h & -> & Hw & Hh).
  destruct (if truthy (nth_error rest 0) then _ else _) as [background|e1] eqn:E1;
    [|discriminate].
  cbn [bind] in H.
  destruct (if truthy (nth_error rest 1) then _ else _) as [foreground|e2] eqn:E2;
    [|discriminate].
  cbn [bind Dimensions.width Dimensions.height ofInt] in H.
  assert (RenderConfig.width c = ofZ w /\ RenderConfig.height c = ofZ h
          /\ RenderConfig.background c = background
          /\ RenderConfig.foreground c = foreground
          /\ RenderConfig.scale c = ofZ (parseScale (searchGet searchParams (lit "scale"))))
    as (Ew & Eh & Eb & Ef & Es).
  { unfold resolveConfig in H.
    destruct (match searchGet _ (lit "stroke") with
              | Some (ch :: k) => _
              | _ => _
              end) as [strokeColor|e]; [|discriminate].
    cbn [bind] in H. injection H as <-. repeat split. }
  exists w, h. split; [reflexivity|]. split; [auto|]. split; [auto|].
  rewrite Ew, Eh, Eb, Ef, Es.
  destruct (ofZ_dimension w Hw) as [Hw1 Hw2]. destruct (ofZ_dimension h Hh) as [Hh1 Hh2].
  split; [auto|]. split.
  { unfold parseScale. destruct (searchGet searchParams (lit "scale")) as [[|ch r]|];
      [now left| |now left].
    destruct (parseInt (ch :: r) 10) as [| | |z]; try now left.
    destruct (z =? 2); [now right | now left]. }
  split.
  { destruct (truthy (nth_error rest 0)); [exact E1|].
    unfold DEFAULT_BACKGROUND in E1. congruence. }
  split.
  { destruct (truthy (nth_error rest 1)); exact E2. }
  exact H.
Qed.

(** ** util.ts: what the packing keeps of the text *)

Lemma letters_app : forall a b, letters (a ++ b) = letters a ++ letters b.
Proof. intros a b. unfold letters. apply filter_app. Qed.

Lemma letters_concat : forall ls, letters (concat ls) = concat (map letters ls).
Proof.
  induction ls as [|l ls IH]; [reflexivity|].
  cbn [concat map]. now rewrite letters_app, IH.
Qed.

Lemma letters_dropWhile : forall s, letters (dropWhile isWhiteSpace s) = letters s.
Proof.
  induction s as [|c s IH]; [reflexivity|].
  cbn [dropWhile]. destruct (isWhiteSpace c) eqn:E; [|reflexivity].
  unfold letters in *. cbn [filter]. now rewrite E.
Qed.

Lemma letters_trim : forall s, letters (trim s) = letters s.
Proof.
  intros s. unfold trim, trimEnd, trimStart.
  unfold letters at 1. rewrite filter_rev. fold (letters (dropWhile isWhiteSpace
    (rev (dropWhile isWhiteSpace s)))).
  rewrite letters_dropWhile. unfold letters at 1. rewrite filter_rev, rev_involutive.
  apply letters_dropWhile.
Qed.

Lemma letters_words : forall s, concat (map letters (splitWhiteSpace s)) = letters s.
Proof.
  induction s as [|x s IH]; [reflexivity|].
  cbn [splitWhiteSpace]. unfold letters at 2. cbn [filter]. fold (letters s).
  destruct (isWhiteSpace x) eqn:Ex; cbn [negb].
  - destruct s as [|y s]; [reflexivity|].
    destruct (isWhiteSpace y); [exact IH | exact IH].
  - rewrite (splitWhiteSpace_cons s) in IH |- *. cbn [map concat] in IH |- *.
    unfold letters at 1. cbn [filter]. rewrite Ex. cbn [negb].
    fold (letters (hd [] (splitWhiteSpace s))). cbn [app]. now rewrite IH.
Qed.

Lemma pushCurrent_letters : forall st, lettersOf (pushCurrent st) = lettersOf st.
Proof.
  intros [lines [|c current]]; [reflexivity|].
  unfold pushCurrent, lettersOf. cbn [isEmpty fst snd].
  rewrite map_app, concat_app. cbn [map concat].
  now rewrite !app_nil_r.
Qed.

Lemma wrapStep_letters : forall b st w,
  lettersOf (wrapStep b st w) = lettersOf st ++ letters w.
Proof.
  forget_parameters.
  intros b st w. unfold wrapStep.
  destruct (overBudget (length w) b) eqn:Eo.
  - pose proof (pushCurrent_letters st) as Hp.
    assert (snd (pushCurrent st) = []) as Hs
      by (destruct st as [lines [|c t]]; reflexivity).
    destruct (pushCurrent st) as [lines current]. cbn [snd] in Hs. subst current.
    rewrite <- Hp. unfold lettersOf. cbn [fst snd].
    change (letters []) with (@nil ascii). rewrite !app_nil_r.
    rewrite map_app, concat_app. f_equal.
    destruct b as [| |n]; try discriminate Eo.
    now rewrite <- letters_concat, chunkWord_concat.
  - destruct st as [lines current]. cbv beta iota zeta.
    match goal with
    | |- context [withinBudget (length ?c) b] => set (candidate := c)
    end.
    assert (letters candidate = letters current ++ letters w) as Hc.
    { unfold candidate. destruct current as [|c t]; [reflexivity|].
      cbn [isEmpty]. now rewrite !letters_app. }
    destruct (withinBudget (length candidate) b).
    + unfold lettersOf. cbn [fst snd]. now rewrite Hc, app_assoc.
    + pose proof (pushCurrent_letters (lines, current)) as Hp.
      assert (snd (pushCurrent (lines, current)) = []) as Hs
        by (destruct current; reflexivity).
      destruct (pushCurrent (lines, current)) as [lines' current'].
      cbn [snd] in Hs. subst current'.
      rewrite <- Hp. unfold lettersOf. cbn [fst snd].
      change (letters []) with (@nil ascii). now rewrite app_nil_r.
Qed.

Lemma fold_letters : forall b words st,
  lettersOf (fold_left (wrapStep b) words st)
  = lettersOf st ++ concat (map letters words).
Proof.
  intros b. induction words as [|w words IH]; intros st.
  - cbn. now rewrite app_nil_r.
  - cbn [fold_left map concat]. now rewrite IH, wrapStep_letters, app_assoc.
Qed.

(** The packed lines hold the characters of the text, white space apart. *)
Lemma packLines_letters : forall b trimmed,
  concat (map letters (packLines b trimmed)) = letters trimmed.
Proof.
  intros b trimmed. unfold packLines.
  set (st := fold_left (wrapStep b) (splitWhiteSpace trimmed) ([], [])).
  pose proof (pushCurrent_letters st) as Hp.
  assert (snd (pushCurrent st) = []) as Hs by (destruct st as [lines [|c t]]; reflexivity).
  unfold lettersOf in Hp at 1. rewrite Hs in Hp.
  change (letters []) with (@nil ascii) in Hp. rewrite app_nil_r in Hp.
  rewrite Hp. unfold st. rewrite fold_letters. cbn [lettersOf fst snd map concat].
  change (letters []) with (@nil ascii). cbn [app]. apply letters_words.
Qed.

Lemma cleanLine_letters : forall l, cleanLine l -> letters l <> [].
Proof.
  intros l H. destruct (cleanLine_first l H) as (c & t & -> & Hc).
  unfold letters. cbn [filter]. rewrite Hc. discriminate.
Qed.

Lemma packLines_nonempty : forall b trimmed, cleanLine trimmed -> packLines b trimmed <> [].
Proof.
  intros b trimmed H E. pose proof (packLines_letters b trimmed) as Hl.
  rewrite E in Hl. symmetry in Hl. now apply cleanLine_letters in Hl.
Qed.

(** X22.  [wrapText] loses no character but white space as long as
    nothing has to be cut: when wrapping is disabled, when the trimmed
    text is within the budget, or when the packing needs no more lines
    than the limit, the characters of the returned lines, white space
    apart, are those of the text, in order.  A word that is longer than
    the budget is cut into pieces, and none of its characters is
    dropped. *)
Theorem wrapText_keeps_text : forall (text : str) (maxWidth fontSize : float)
    (wrap : bool) (maxLines : nat),
  let charsPerLine := charsPerLineOf maxWidth fontSize in
  (forall trimmed, concat (map letters (packLines charsPerLine trimmed)) = letters trimmed)
  /\ (wrap = false
      \/ withinBudget (length (trim text)) charsPerLine = true
      \/ (length (packLines charsPerLine (trim text)) <= maxLines)%nat ->
      concat (map letters (wrapText text maxWidth fontSize wrap (Some maxLines)))
      = letters text).
Proof.
  forget_parameters.
  intros text maxWidth fontSize wrap maxLines charsPerLine.
  split; [apply packLines_letters|].
  intros H. rewrite wrapText_cases. unfold wrappedLines. fold charsPerLine.
  destruct (isEmpty (trim text)) eqn:Ee.
  { apply isEmpty_true in Ee. rewrite <- letters_trim, Ee. reflexivity. }
  assert (concat (map letters [trim text]) = letters text) as Hone.
  { cbn [map concat]. now rewrite app_nil_r, letters_trim. }
  destruct wrap; cbn [negb]; [|exact Hone].
  destruct (withinBudget (length (trim text)) charsPerLine); [exact Hone|].
  destruct H as [H|[H|H]]; try discriminate.
  apply Nat.leb_le in H. rewrite H. now rewrite packLines_letters, letters_trim.
Qed.

(** ** svg.ts: the caption *)

(** X23.  The caption of [buildSVG] has at most two lines, none of them
    empty and none with white space at its start or its end.  It has no
    line exactly when the text is absent, empty or blank, and then the
    document has no text element: it is the root element around the
    optional filter and the rectangle.  Without a text the label is
    the dimensions, [WxH]. *)
Theorem buildSVG_caption : forall o : SvgOptions.t,
  (length (captionLines o) <= 2)%nat
  /\ Forall cleanLine (captionLines o)
  /\ (captionLines o = []
      <-> match SvgOptions.text o with
          | Some t => trim t = []
          | None => True
          end)
  /\ (captionLines o = [] ->
      buildSVG o
      = svgOpen (SvgOptions.width o) (SvgOptions.height o)
          (canvasWidth o) (canvasHeight o) (escapeXML (labelOf o))
        ++ filterDefsOf o ++ rectOf o ++ lit "</svg>")
  /\ (SvgOptions.text o = None ->
      labelOf o = num (SvgOptions.width o) ++ lit "x" ++ num (SvgOptions.height o)).
Proof.
  clear CSS_COLORS_names CSS_COLORS_hex Math_pow_one.
  intros o.
  assert ((length (captionLines o) <= 2)%nat
          /\ Forall cleanLine (captionLines o)
          /\ (captionLines o = []
              <-> match SvgOptions.text o with
                  | Some t => trim t = []
                  | None => True
                  end)) as (H1 & H2 & H3).
  { unfold captionLines. destruct (SvgOptions.text o) as [[|c t]|].
    - split; [simpl; lia|]. split; [constructor|]. split; reflexivity.
    - rewrite wrapText_default, wrapText_cases. unfold wrappedLines.
      set (text := c :: t). set (b := charsPerLineOf _ _).
      destruct (isEmpty (trim text)) eqn:Ee.
      { apply isEmpty_true in Ee. split; [simpl; lia|]. split; [constructor|].
        split; auto. }
      apply isEmpty_false in Ee. pose proof (trim_cleanLine text Ee) as Hclean.
      assert ((length [trim text] <= 2)%nat
              /\ Forall cleanLine [trim text]
              /\ ([trim text] = [] <-> trim text = [])) as Hone.
      { split; [simpl; lia|]. split; [constructor; [assumption | constructor]|].
        split; [discriminate | congruence]. }
      destruct (negb (SvgOptions.wrap o)); [exact Hone|].
      destruct (withinBudget (length (trim text)) b); [exact Hone|].
      pose proof (packLines_good b (trim text) Hclean) as Hgood.
      apply goodLine_clean in Hgood.
      pose proof (packLines_nonempty b (trim text) Hclean) as Hpn.
      destruct (length (packLines b (trim text)) <=? 2)%nat eqn:El.
      + apply Nat.leb_le in El. split; [exact El|]. split; [exact Hgood|].
        split; congruence.
      + apply Nat.leb_gt in El.
        split; [rewrite length_app, length_firstn; cbn [length]; lia|].
        split.
        * apply Forall_app. split; [now apply Forall_firstn|].
          constructor; [|constructor].
          assert (cleanLine (join (lit " ") (skipn 1 (packLines b (trim text))))) as Hj.
          { apply join_clean; [|now apply Forall_skipn].
            intros E. apply (f_equal (@length str)) in E.
            rewrite length_skipn in E. simpl in E. lia. }
          destruct b as [| |n].
          -- rewrite collapse_nan. apply noSpace_clean; [discriminate|].
             repeat constructor.
          -- exact Hj.
          -- exact (proj1 (collapse_good _ _ Hj)).
        * split; [|congruence]. intros E. apply (f_equal (@length str)) in E.
          rewrite length_app in E. cbn [length] in E. lia.
    - split; [simpl; lia|]. split; [constructor|]. split; auto. }
  split; [exact H1|]. split; [exact H2|]. split; [exact H3|]. split.
  - intros E. rewrite buildSVG_structure. unfold textPartOf. rewrite E. reflexivity.
  - intros E. unfold labelOf. now rewrite E.
Qed.

(** ** index.ts: what fetch reads of a request *)

(** X26.  Of a request whose path segments all decode, [fetch] reads
    the method, the first three decoded segments, the query and what
    [If-None-Match] reads: two such requests that agree on these get the
    same response, whatever their other segments and headers. *)
Theorem fetch_reads : forall (r1 r2 : Request.t) (l1 l2 : list str),
  lookupOf r1 = Ok l1 ->
  lookupOf r2 = Ok l2 ->
  Request.method r1 = Request.method r2 ->
  firstn 3 l1 = firstn 3 l2 ->
  Request.searchParams r1 = Request.searchParams r2 ->
  headersGet (Request.headers r1) (lit "If-None-Match")
  = headersGet (Request.headers r2) (lit "If-None-Match") ->
  fetch r1 = fetch r2.
Proof.
  intros r1 r2 l1 l2 H1 H2 Hm Hl Hp Hh. unfold fetch. rewrite <- Hm.
  destruct (str_eqb (Request.method r1) (lit "OPTIONS")); [reflexivity|].
  assert (respond r1 = respond r2) as ->; [|reflexivity].
  unfold respond. rewrite H1, H2, <- Hm, <- Hp, <- Hh. cbn [bind].
  destruct l1 as [|d1 rest1], l2 as [|d2 rest2];
    try discriminate Hl; [reflexivity|].
  cbn [firstn] in Hl. injection Hl as <- Hrest.
  assert (nth_error rest1 0 = nth_error rest2 0 /\ nth_error rest1 1 = nth_error rest2 1)
    as [-> ->]; [|reflexivity].
  destruct rest1 as [|a1 [|b1 t1]], rest2 as [|a2 [|b2 t2]];
    cbn [firstn] in Hrest; try discriminate Hrest;
    inversion Hrest; subst; split; reflexivity.
Qed.

(** ** index.ts: parseFloatSafe *)

(** X27.  [parseFloatSafe] gives a finite number or NaN, never an
    infinity: it gives the number that [parseFloat] reads when the value
    is there, is not empty and is read as a finite number, and NaN in
    every other case. *)
Theorem parseFloatSafe_spec : forall value : option str,
  (is_finite (parseFloatSafe value) = true \/ is_nan (parseFloatSafe value) = true)
  /\ is_infinity (parseFloatSafe value) = false
  /\ (is_finite (parseFloatSafe value) = true
      <-> exists s, value = Some s /\ s <> [] /\ is_finite (parseFloat s) = true)
  /\ (forall s, value = Some s -> s <> [] -> is_finite (parseFloat s) = true ->
      parseFloatSafe value = parseFloat s)
  /\ parseFloatSafe None = nan
  /\ parseFloatSafe (Some []) = nan.
Proof.
  clear CSS_COLORS_names CSS_COLORS_hex Math_pow_one.
  intros value.
  assert (forall x, is_finite x = true -> is_infinity x = false) as Hinf.
  { intros x H. unfold is_finite in H. apply negb_true_iff, orb_false_iff in H.
    exact (proj2 H). }
  destruct value as [[|c s]|]; cbn [parseFloatSafe].
  - split; [now right|]. split; [reflexivity|].
    split; [split; [discriminate | intros (s & [= <-] & H & _); congruence]|].
    split; [intros s [= <-] H; congruence | split; reflexivity].
  - destruct (is_finite (parseFloat (c :: s))) eqn:E.
    + split; [now left|]. split; [now apply Hinf|].
      split; [split; [intros _; exists (c :: s); repeat split; [discriminate | exact E]
                     | intros _; exact E]|].
      split; [intros s' [= <-] _ _; reflexivity | split; reflexivity].
    + split; [now right|]. split; [reflexivity|].
      split; [split; [discriminate | intros (s' & [= <-] & _ & H); congruence]|].
      split; [intros s' [= <-] _ H; congruence | split; reflexivity].
  - split; [now right|]. split; [reflexivity|].
    split; [split; [discriminate | intros (s & [=] & _)]|].
    split; [intros s [=] | split; reflexivity].
Qed.

(** ** util.ts: colorToRgb after parseColor *)

Lemma components_shape : forall content,
  map trim (splitOn ","%char content) <> []
  /\ Forall (fun p => ~ In ","%char p) (map trim (splitOn ","%char content)).
Proof.
  forget_parameters.
  intros content. split.
  - rewrite (splitOn_cons ","%char content). discriminate.
  - apply Forall_forall. intros p Hp. apply in_map_iff in Hp.
    destruct Hp as (q & <- & Hq). intros H. apply trim_incl in H.
    exact (splitOn_no_separator _ _ _ Hq H).
Qed.

Lemma map_cons_inj : forall (c : ascii) (a b : list str),
  map (cons c) a = map (cons c) b -> a = b.
Proof.
  intros c. induction a as [|x a IH]; intros [|y b] H; try discriminate; [reflexivity|].
  cbn [map] in H. injection H as H1 H2. subst. f_equal. now apply IH.
Qed.

Lemma join_parts_inj : forall P Q : list str,
  P <> [] -> Q <> [] ->
  Forall (fun p => ~ In ","%char p) P -> Forall (fun p => ~ In ","%char p) Q ->
  join (lit ", ") P = join (lit ", ") Q -> P = Q.
Proof.
  forget_parameters.
  intros P Q HP HQ HcP HcQ H.
  apply (f_equal (splitOn ","%char)) in H.
  pose proof (splitOn_join P [] (fun x => x) HcP HP) as EP.
  pose proof (splitOn_join Q [] (fun x => x) HcQ HQ) as EQ.
  cbn [app] in EP, EQ. rewrite EP, EQ in H. injection H as H1 H2.
  apply map_cons_inj in H2.
  destruct P as [|p P]; [congruence|]. destruct Q as [|q Q]; [congruence|].
  cbn [hd tl] in H1, H2. now subst.
Qed.

(** The components that [colorToRgb] reads are those that [parseColor]
    rejoins. *)
Lemma components_of_join : forall a b,
  joinComponents a = joinComponents b ->
  map trim (splitOn ","%char a) = map trim (splitOn ","%char b).
Proof.
  intros a b H. unfold joinComponents in H.
  destruct (components_shape a) as [Ha1 Ha2]. destruct (components_shape b) as [Hb1 Hb2].
  now apply join_parts_inj.
Qed.

Lemma components_empty : forall content,
  joinComponents content = [] -> map trim (splitOn ","%char content) = [[]].
Proof.
  forget_parameters.
  intros content H. unfold joinComponents in H.
  destruct (components_shape content) as [Hne _].
  destruct (map trim (splitOn ","%char content)) as [|p [|q parts]]; [congruence| |].
  - cbn [join] in H. now subst.
  - change (join (lit ", ") (p :: q :: parts))
      with (p ++ lit ", " ++ join (lit ", ") (q :: parts)) in H.
    apply app_eq_nil in H. destruct H as [_ H]. discriminate H.
Qed.

(** [colorToRgb] on the functional forms. *)
Lemma colorToRgb_rgb : forall color opening content,
  functionalForm (lit "rgb") (toLowerCase (trim color)) opening content ->
  colorToRgb color
  = match map parseRgbPart (slice (map trim (splitOn ","%char content)) 0 3) with
    | [Some r; Some g; Some b] => Ok (Some (r, g, b))
    | _ => Ok None
    end.
Proof.
  clear CSS_COLORS_names CSS_COLORS_hex Math_pow_one.
  intros color opening content Hf. unfold colorToRgb.
  destruct (functionalForm_head _ _ _ _ Hf) as (rest & Hrest).
  destruct (matchFunctional_complete _ _ _ _ Hf) as (g & Hg & Hj).
  rewrite Hg. rewrite (components_of_join _ _ Hj).
  rewrite Hrest. reflexivity.
Qed.

Lemma colorToRgb_hsl : forall color opening content,
  functionalForm (lit "hsl") (toLowerCase (trim color)) opening content ->
  colorToRgb color
  = match map trim (splitOn ","%char content) with
    | p0 :: p1 :: p2 :: _ =>
        if is_nan (parseFloat p0) || is_nan (parsePercentage p1)
           || is_nan (parsePercentage p2)
        then Ok None
        else Ok (Some (hslToRgb (parseFloat p0) (parsePercentage p1) (parsePercentage p2)))
    | _ => Ok None
    end.
Proof.
  clear CSS_COLORS_names CSS_COLORS_hex Math_pow_one.
  intros color opening content Hf. unfold colorToRgb.
  destruct (functionalForm_head _ _ _ _ Hf) as (rest & Hrest).
  destruct (matchFunctional_complete _ _ _ _ Hf) as (g & Hg & Hj).
  rewrite Hg. rewrite (components_of_join _ _ Hj).
  rewrite Hrest. reflexivity.
Qed.

Lemma colorToRgb_hex6 : forall v,
  hex6 v -> colorToRgb v = (c <- hexToRgb v ;; Ok (Some c)).
Proof.
  clear CSS_COLORS_names CSS_COLORS_hex Math_pow_one.
  intros v Hv. unfold colorToRgb. rewrite (hex6_normal v Hv).
  destruct (hex6_matchHex v Hv) as (h & ->).
  destruct Hv as (g & -> & _). reflexivity.
Qed.

Lemma colorToRgb_named : forall color hex,
  CSS_COLORS (toLowerCase (trim color)) = Some hex ->
  toLowerCase (trim color) <> lit "transparent" ->
  colorToRgb color = (c <- hexToRgb hex ;; Ok (Some c)).
Proof using CSS_COLORS_names.
  clear CSS_COLORS_hex Math_pow_one.
  intros color hex Ht Hnt. pose proof (CSS_COLORS_names _ _ Ht) as Hn.
  unfold colorToRgb. set (n := toLowerCase (trim color)) in *.
  assert (str_eqb n (lit "transparent") = false) as -> by (now apply str_eqb_neq).
  assert (matchHex n = None) as ->.
  { destruct (matchHex n) as [v|] eqn:E; [|reflexivity].
    apply matchHex_spec in E. destruct E as (E & _). rewrite E in Hn.
    inversion Hn as [|? ? Hx _]. discriminate Hx. }
  assert (forall name, matchFunctional name n = None) as Hf.
  { intros name. destruct (matchFunctional name n) as [g|] eqn:E; [|reflexivity].
    apply matchFunctional_sound in E. destruct E as (o & c' & Hform & _).
    destruct Hform as (_ & E & _). exfalso.
    unfold colorName in Hn. rewrite Forall_forall in Hn.
    assert (In ")"%char n) as Hin
      by (rewrite E; apply in_or_app; right; apply in_or_app; right; now left).
    apply Hn in Hin. discriminate Hin. }
  now rewrite !Hf, Ht.
Qed.

Lemma functional_result_normal : forall name n opening content,
  name = lit "rgb" \/ name = lit "hsl" ->
  Forall (fun c => lowerChar c = c) n ->
  functionalForm name n opening content ->
  joinComponents content <> [] ->
  let v := opening ++ joinComponents content ++ lit ")" in
  toLowerCase (trim v) = v /\ functionalForm name v opening (joinComponents content).
Proof.
  forget_parameters.
  intros name n opening content Hname Hfix Hf Hj v.
  set (J := joinComponents content) in *.
  destruct Hf as (Ho & Hn & Hne & Hc).
  assert (functionalForm name v opening J) as Hv.
  { repeat split; auto. intros H. apply joinComponents_incl in H.
    destruct H as [H|[H|H]]; [discriminate H | discriminate H | auto]. }
  split; [|exact Hv].
  assert (Forall (fun c => lowerChar c = c) v) as Hvfix.
  { rewrite Hn in Hfix. apply Forall_app in Hfix. destruct Hfix as [H1 H2].
    apply Forall_app in H2. destruct H2 as [H2 H3].
    unfold v. apply Forall_app. split; [assumption|].
    apply Forall_app. split; [|assumption].
    apply Forall_forall. intros x Hx. apply joinComponents_incl in Hx.
    destruct Hx as [->|[->|Hx]]; [reflexivity | reflexivity |].
    rewrite Forall_forall in H2. now apply H2. }
  rewrite trim_clean; [now apply toLowerCase_fixed| |].
  - unfold v. destruct Hname as [-> | ->], Ho as [-> | ->];
      now apply startsClean_cons.
  - unfold v. rewrite app_assoc. now apply endsClean_snoc.
Qed.

Lemma colorToRgb_empty_functional : forall v,
  In v emptyFunctional -> colorToRgb v = Ok None.
Proof using CSS_COLORS_names.
  clear CSS_COLORS_hex Math_pow_one.
  intros v Hv.
  assert (CSS_COLORS v = None) as Ht.
  { apply (CSS_COLORS_only_names _ "("%char); [|reflexivity].
    simpl in Hv. destruct Hv as [<-|[<-|[<-|[<-|[]]]]]; simpl; auto 10. }
  simpl in Hv. destruct Hv as [<-|[<-|[<-|[<-|[]]]]]; unfold colorToRgb;
    match goal with
    | |- context [toLowerCase (trim ?x)] =>
        change (toLowerCase (trim x)) with x
    end;
    rewrite Ht; reflexivity.
Qed.

(** ** C3: autoContrast *)






(** X28.  Normalizing a color does not change how it is read:
    [colorToRgb], and so [autoContrast], give for the result of
    [parseColor] what they give for its input, for every input that
    [parseColor] accepts, the abbreviation [t] apart. *)
Theorem colorToRgb_after_parseColor : forall s v : str,
  parseColor s = Ok v ->
  toLowerCase (trim s) <> lit "t" ->
  colorToRgb v = colorToRgb s /\ autoContrast v = autoContrast s.
Proof using CSS_COLORS_names CSS_COLORS_hex.
  clear Math_pow_one.
  intros s v Hp Ht.
  assert (colorToRgb v = colorToRgb s) as Hc.
  { pose proof (parseColor_cases s) as C. cbv zeta in C.
    set (n := toLowerCase (trim s)) in *.
    assert (Forall (fun c => lowerChar c = c) n) as Hfix
      by apply toLowerCase_is_fixed.
    destruct C as [C|[C|[C|[C|[C|[C|C]]]]]].
    - destruct C as (_ & C). congruence.
    - destruct C as ([C|C] & E); [contradiction|].
      rewrite Hp in E. injection E as ->.
      unfold colorToRgb at 2. fold n. rewrite C. reflexivity.
    - destruct C as (_ & Hk & x & Hx & E). rewrite Hp in E. injection E as <-.
      rewrite (colorToRgb_named s v Hx).
      + apply colorToRgb_hex6. exact (CSS_COLORS_hex _ _ Hx).
      + intros E. apply Hk. now right.
    - destruct C as (_ & _ & g & Hg & E). rewrite Hp in E. injection E as ->.
      rewrite (colorToRgb_hex6 _ (hexResult_hex6 n g Hg)).
      assert (colorToRgb s = (c <- hexToRgb n ;; Ok (Some c))) as ->.
      { unfold colorToRgb. fold n. rewrite (proj2 (matchHex_spec n g) Hg).
        destruct Hg as (-> & _). reflexivity. }
      f_equal. destruct Hg as (-> & Hh & Hl). unfold hexResult.
      destruct Hl as [Hl|Hl]; rewrite Hl; cbn [Nat.eqb]; [|reflexivity].
      destruct g as [|a [|b [|c [|? ?]]]]; try discriminate Hl.
      symmetry. apply hexToRgb_three.
      eapply Forall_impl; [|exact Hh]. apply lowerHex_isHex.
    - destruct C as (_ & _ & o & c & Hf & E). rewrite Hp in E. injection E as ->.
      change (o ++ joinComponents c ++ [")"%char])
        with (o ++ joinComponents c ++ lit ")").
      rewrite (colorToRgb_rgb s o c Hf).
      destruct (list_eq_dec ascii_dec (joinComponents c) []) as [Hj|Hj].
      + rewrite (colorToRgb_empty_functional _
                   (empty_components _ _ _ _ (or_introl eq_refl) Hf Hj)).
        rewrite (components_empty c Hj).
        change (slice [[]] 0 3) with [@nil ascii]. cbn [map].
        destruct (parseRgbPart []); reflexivity.
      + destruct (functional_result_normal _ n o c (or_introl eq_refl) Hfix Hf Hj)
          as [Hnorm Hv].
        rewrite <- Hnorm in Hv.
        rewrite (colorToRgb_rgb _ o (joinComponents c) Hv).
        now rewrite (components_of_join _ _ (joinComponents_idem c)).
    - destruct C as (_ & _ & o & c & Hf & E). rewrite Hp in E. injection E as ->.
      change (o ++ joinComponents c ++ [")"%char])
        with (o ++ joinComponents c ++ lit ")").
      rewrite (colorToRgb_hsl s o c Hf).
      destruct (list_eq_dec ascii_dec (joinComponents c) []) as [Hj|Hj].
      + rewrite (colorToRgb_empty_functional _
                   (empty_components _ _ _ _ (or_intror eq_refl) Hf Hj)).
        now rewrite (components_empty c Hj).
      + destruct (functional_result_normal _ n o c (or_intror eq_refl) Hfix Hf Hj)
          as [Hnorm Hv].
        rewrite <- Hnorm in Hv.
        rewrite (colorToRgb_hsl _ o (joinComponents c) Hv).
        now rewrite (components_of_join _ _ (joinComponents_idem c)).
    - destruct C as (_ & _ & _ & _ & _ & _ & C). congruence. }
  split; [exact Hc|].
  unfold autoContrast. rewrite Hc.
  destruct (str_eqb v (lit "transparent")) eqn:Ev, (str_eqb s (lit "transparent")) eqn:Es;
    try reflexivity.
  - apply str_eqb_eq in Ev. subst v.
    assert (colorToRgb s = Ok None) as -> by (rewrite <- Hc; reflexivity).
    reflexivity.
  - apply str_eqb_eq in Es. subst s. apply str_eqb_neq in Ev.
    exfalso. apply Ev. assert (parseColor (lit "transparent") = Ok (lit "transparent"))
      as E by reflexivity. congruence.
Qed.

End Altbox.

(* ================================================================== *)
(** * Part III: the properties at concrete inputs                      *)
(* ================================================================== *)

Lemma sampleColors_names : forall k v, sampleColors k = Some v -> colorName k.
Proof.
  intros k v H. unfold sampleColors in H.
  destruct (str_eqb k (lit "red")) eqn:E1.
  - apply str_eqb_eq in E1. subst k. repeat constructor.
  - destruct (str_eqb k (lit "yellow")) eqn:E2; [|discriminate].
    apply str_eqb_eq in E2. subst k. repeat constructor.
Qed.

Lemma sampleColors_hex : forall k v, sampleColors k = Some v -> hex6 v.
Proof.
  intros k v H. unfold sampleColors in H.
  destruct (str_eqb k (lit "red")).
  - inversion H; subst v. exists (lit "ff0000"). repeat constructor.
  - destruct (str_eqb k (lit "yellow")); [|discriminate].
    inversion H; subst v. exists (lit "ffff00"). repeat constructor.
Qed.

(** C2 at the table [sampleColors] and the inputs [" RED "] and
    [" RGB( 1 ,2,  3 ) "], the second with its three pieces. *)
Lemma parseColor_resolution_witness :
  parseColor sampleColors (lit " RED ") = Ok (lit "#ff0000")
  /\ (parseColor sampleColors (lit " RED ") = Throw InvalidColor
      <-> unresolvable sampleColors (toLowerCase (trim (lit " RED "))))
  /\ parseColor sampleColors (lit " RGB( 1 ,2,  3 ) ") = Ok (lit "rgb(1, 2, 3)")
  /\ parseColor sampleColors (lit "hsl(210,50%,40%)") = Ok (lit "hsl(210, 50%, 40%)")
  /\ parseColor sampleColors (lit "#0f0") = Ok (lit "#00ff00")
  /\ parseColor sampleColors (lit "#zzz") = Throw InvalidColor.
Proof.
  pose proof (parseColor_resolution sampleColors sampleColors_names sampleColors_hex
                (lit " RED ")) as H.
  cbv zeta in H. destruct H as (_ & H2 & _ & _ & H5 & H6 & _ & _ & H9 & _).
  split; [reflexivity|]. split; [exact H2|].
  split; [|split; [exact H9|split; [exact H5 | exact H6]]].
  pose proof (parseColor_resolution sampleColors sampleColors_names sampleColors_hex
                (lit " RGB( 1 ,2,  3 ) ")) as G.
  cbv zeta in G. destruct G as (_ & _ & _ & G4 & _).
  refine (G4 (lit "rgb") (lit "rgb(") [lit " 1 "; lit "2"; lit "  3 "]
             (or_introl eq_refl) _ _).
  - split; [left; reflexivity|]. split; [reflexivity|]. split; [discriminate|].
    intros Hin. simpl in Hin.
    repeat (destruct Hin as [Hin|Hin]; [discriminate Hin|]). exact Hin.
  - repeat constructor; intros Hin; simpl in Hin;
      repeat (destruct Hin as [Hin|Hin]; [discriminate Hin|]); exact Hin.
Defined.

(** C10 at the table [sampleColors] and the input ["#0F0"]. *)
Lemma parseColor_idempotent_witness :
  parseColor sampleColors (lit "#0F0") = Ok (lit "#00ff00")
  /\ parseColor sampleColors (lit "#00ff00") = Ok (lit "#00ff00").
Proof.
  split; [reflexivity|].
  refine (proj1 (parseColor_idempotent sampleColors sampleColors_names sampleColors_hex
                   (lit "#0F0") (lit "#00ff00") eq_refl _)).
  simpl. intros [H|[H|[H|[H|[]]]]]; discriminate H.
Defined.

(** C10, as stated, fails: [parseColor] accepts ["rgb( )"], returns
    ["rgb()"], and rejects ["rgb()"]. *)
Lemma parseColor_not_idempotent :
  parseColor sampleColors (lit "rgb( )") = Ok (lit "rgb()")
  /\ parseColor sampleColors (lit "rgb()") = Throw InvalidColor.
Proof. split; reflexivity. Qed.


(** The failure of C9 at the table [sampleColors], and in the answers to
    the requests for [/600x300/rgb(%22%2F%3E%3Cscript%3Ex%3C%2Fscript%3E)]
    and, with a caption, for [/600x300/red/rgb(%22%3C)], whose foreground
    leaves a [<] inside the tag of the text element; [percentDecode]
    stands for [decodeURIComponent] and [printNumber] for the conversion
    of a Number to a string. *)
Lemma buildSVG_color_injection_witness :
  parseColor sampleColors scriptColor = Ok scriptColor
  /\ (let response :=
        fetch sampleColors readDecimal approxPow printNumber percentDecode
          (get (lit "/600x300/rgb(%22%2F%3E%3Cscript%3Ex%3C%2Fscript%3E)") []) in
      Response.status response = 200
      /\ Response.body response
         = Some (markup "<svg xmlns='http://www.w3.org/2000/svg' width='600' height='300' viewBox='0 0 600 300' role='img' aria-label='600x300'><rect width='600' height='300' fill='rgb('/><script>x</script>)' /></svg>"))
  /\ (let response :=
        fetch sampleColors readDecimal approxPow printNumber percentDecode
          (get (lit "/600x300/red/rgb(%22%3C)") [(lit "says", lit "Hi")]) in
      Response.status response = 200
      /\ option_map (fun body => includes body (markup "<text x='300' fill='rgb('<)' "))
           (Response.body response) = Some true).
Proof.
  split.
  - exact (proj1 (buildSVG_color_injection sampleColors printNumber sampleColors_names)).
  - vm_compute. repeat split; reflexivity.
Defined.

(** C8 at the text ["abcdefgh i j"], the width 15 and the font size 5
    (a budget of 5 characters), and its second line. *)
Lemma wrapText_rewrap_witness :
  In (lit "fg...") (wrapText (lit "abcdefgh i j") 15 5 true None)
  /\ wrapText (lit "fg...") 15 5 true None = [lit "fg..."].
Proof.
  assert (In (lit "fg...") (wrapText (lit "abcdefgh i j") 15 5 true None)) as H
    by (right; left; reflexivity).
  split; [exact H|].
  exact (proj1 (wrapText_rewrap (lit "abcdefgh i j") 15 5 true None (lit "fg...") H)).
Defined.

(** C8, as stated, fails where the budget is not a number.  At the
    width 0 and the font size 0 the budget [Math.max(1, Math.floor(0 / 0))]
    is NaN; [wrapText] returns the lines ["aa"] and ["..."], each of them
    is wrapped to itself, and none of them is within the budget. *)
Lemma wrapText_outside_NaN_budget :
  charsPerLineOf 0 0 = BNaN
  /\ wrapText (lit "aa bb cc") 0 0 true None = [lit "aa"; lit "..."]
  /\ wrapText (lit "aa") 0 0 true None = [lit "aa"]
  /\ wrapText (lit "...") 0 0 true None = [lit "..."]
  /\ withinBudget (length (lit "aa")) (charsPerLineOf 0 0) = false
  /\ withinBudget (length (lit "...")) (charsPerLineOf 0 0) = false.
Proof. vm_compute. repeat split. Qed.

(** C4 at the same text and the limit 2. *)
Lemma wrapText_line_limit_witness :
  (1 <= 2)%nat
  /\ (length (wrapText (lit "abcdefgh i j") 15 5 true (Some 2%nat)) <= 2)%nat.
Proof.
  assert (1 <= 2)%nat as H by (repeat constructor).
  split; [exact H|].
  exact (proj1 (wrapText_line_limit (lit "abcdefgh i j") 15 5 true 2%nat H)).
Defined.

(** ** The further properties at concrete inputs *)

(** X1 at the bounds of the font size and the value NaN. *)
Lemma clampNumber_range_witness :
  (12 <=? 128)%float = true
  /\ (12 <=? clampNumber nan 12 128)%float = true
  /\ (clampNumber nan 12 128 <=? 128)%float = true.
Proof.
  assert ((12 <=? 128)%float = true) as H by reflexivity.
  split; [exact H|].
  destruct (clampNumber_range nan 12 128 H) as (H1 & H2 & _).
  split; [exact H1 | exact H2].
Defined.

(** X12 at the table [sampleColors] and the color [" Red "]. *)
Lemma colorToRgb_channels_witness :
  colorToRgb sampleColors readDecimal (lit " Red ") = Ok (Some (Int 255, Int 0, Int 0))
  /\ isChannel (Int 255) /\ isChannel (Int 0) /\ isChannel (Int 0).
Proof.
  assert (colorToRgb sampleColors readDecimal (lit " Red ")
          = Ok (Some (Int 255, Int 0, Int 0))) as H by reflexivity.
  split; [exact H|].
  destruct (colorToRgb_channels sampleColors readDecimal sampleColors_names
              sampleColors_hex (lit " Red ")) as (_ & _ & _ & H4).
  exact (H4 (Int 255) (Int 0) (Int 0) H eq_refl).
Defined.

(** X14 at an image of 600 by 300 with the query [size=200&pad=20]. *)
Lemma resolveConfig_bounds_witness :
  match resolveConfig sampleColors readDecimal
          {| RenderOptions.width := 600; RenderOptions.height := 300;
             RenderOptions.background := lit "#dddddd";
             RenderOptions.foreground := lit "#111111";
             RenderOptions.scale := 1;
             RenderOptions.searchParams :=
               [(lit "size", lit "200"); (lit "pad", lit "20")] |} with
  | Ok c =>
      (12 <=? RenderConfig.fontSize c)%float = true
      /\ (RenderConfig.fontSize c <=? 128)%float = true
  | Throw _ => False
  end.
Proof.
  destruct (resolveConfig sampleColors readDecimal _) as [c|e] eqn:E;
    [|vm_compute in E; discriminate E].
  exact (proj1 (resolveConfig_bounds sampleColors readDecimal _ c E)).
Defined.

(** X17 at the paths [/600x300/red/yellow/%zz] and [/600y300], with
    [percentDecode] for [decodeURIComponent]. *)
Lemma fetch_errors_witness :
  fetch sampleColors readDecimal approxPow printNumber percentDecode
    (get (lit "/600x300/red/yellow/%zz") [])
  = {| Response.status := 400; Response.headers := textHeaders;
       Response.body := Some (usageText ++ newline ++ lit "Error: URI malformed") |}
  /\ fetch sampleColors readDecimal approxPow printNumber percentDecode
       (get (lit "/600y300") [])
     = {| Response.status := 400; Response.headers := textHeaders;
          Response.body :=
            Some (usageText ++ newline ++ lit "Error: Invalid dimensions") |}.
Proof.
  split.
  - assert (Request.method (get (lit "/600x300/red/yellow/%zz") []) <> lit "OPTIONS")
      as H by discriminate.
    destruct (fetch_errors sampleColors readDecimal approxPow printNumber percentDecode
                sampleColors_hex (get (lit "/600x300/red/yellow/%zz") []) H) as [H1 _].
    apply H1. exists (lit "%zz"). split; [|reflexivity].
    right. right. right. left. reflexivity.
  - assert (Request.method (get (lit "/600y300") []) <> lit "OPTIONS") as H
      by discriminate.
    destruct (fetch_errors sampleColors readDecimal approxPow printNumber percentDecode
                sampleColors_hex (get (lit "/600y300") []) H) as (_ & _ & _ & H4).
    exact (proj1 (H4 (lit "600y300") [] eq_refl) eq_refl).
Defined.

(** X18 at the path [/600x300]: its ETag, sent back alone, and sent
    back twice. *)
Lemma fetch_not_modified_witness :
  let etag := quoted (lit "9f7a6aba34d2e2976ac37850b9d20e8d") in
  etagOf (fetch sampleColors readDecimal approxPow printNumber percentDecode
            (get (lit "/600x300") []))
  = Some etag
  /\ Response.status
       (fetch sampleColors readDecimal approxPow printNumber percentDecode
          (withHeaders (get (lit "/600x300") [])
             [(lit "Accept", lit "*/*"); (lit "if-none-match", etag)]))
     = 304
  /\ Response.status
       (fetch sampleColors readDecimal approxPow printNumber percentDecode
          (withHeaders (get (lit "/600x300") [])
             [(lit "If-None-Match", etag); (lit "If-None-Match", etag)]))
     = 200.
Proof.
  intros etag.
  assert (etagOf (fetch sampleColors readDecimal approxPow printNumber percentDecode
                    (get (lit "/600x300") []))
          = Some etag) as H
    by (vm_compute; reflexivity).
  split; [exact H|]. split.
  - destruct (fetch_not_modified sampleColors readDecimal approxPow printNumber
                percentDecode (get (lit "/600x300") []) etag
                [(lit "Accept", lit "*/*"); (lit "if-none-match", etag)] H) as [H1 _].
    exact (proj1 (H1 eq_refl)).
  - destruct (fetch_not_modified sampleColors readDecimal approxPow printNumber
                percentDecode (get (lit "/600x300") []) etag
                [(lit "If-None-Match", etag); (lit "If-None-Match", etag)] H)
      as (_ & H2 & _).
    apply H2. intros E. vm_compute in E. discriminate E.
Defined.

(** X19 at the path [/600x300]. *)
Lemma fetch_head_witness :
  Response.status
    (fetch sampleColors readDecimal approxPow printNumber percentDecode
       (withMethod (get (lit "/600x300") []) (lit "HEAD")))
  = Response.status
      (fetch sampleColors readDecimal approxPow printNumber percentDecode (get (lit "/600x300") [])).
Proof.
  assert (Request.method (get (lit "/600x300") []) <> lit "OPTIONS") as H by discriminate.
  exact (proj1 (fetch_head sampleColors readDecimal approxPow printNumber percentDecode
                  (get (lit "/600x300") []) H)).
Defined.

(** X20 at the path [/600x300/red] with the query [scale=2]. *)
Lemma fetch_configuration_witness :
  match resolveRequest sampleColors readDecimal approxPow
          (lit "600x300") [lit "red"] [(lit "scale", lit "2")] with
  | Ok c =>
      exists w h,
        parseDims (lit "600x300")
        = Ok {| Dimensions.width := Int w; Dimensions.height := Int h |}
        /\ (1 <= w <= 8000 /\ 1 <= h <= 8000)
  | Throw _ => False
  end.
Proof.
  destruct (resolveRequest sampleColors readDecimal approxPow _ _ _) as [c|e] eqn:E;
    [|vm_compute in E; discriminate E].
  destruct (fetch_configuration sampleColors readDecimal approxPow _ _ _ c E)
    as (w & h & H1 & H2 & _).
  exists w, h. split; [exact H1 | exact H2].
Defined.

(** X26 at the paths [/600x300/red/yellow/more] and
    [/600x300/red/yellow], the first with one more header. *)
Lemma fetch_reads_witness :
  fetch sampleColors readDecimal approxPow printNumber percentDecode
    (withHeaders (get (lit "/600x300/red/yellow/more") []) [(lit "Accept", lit "*/*")])
  = fetch sampleColors readDecimal approxPow printNumber percentDecode
      (get (lit "/600x300/red/yellow") [])
  /\ Response.status
       (fetch sampleColors readDecimal approxPow printNumber percentDecode
          (get (lit "/600x300/red/yellow") []))
     = 200.
Proof.
  split; [|vm_compute; reflexivity].
  exact (fetch_reads sampleColors readDecimal approxPow printNumber percentDecode
           (withHeaders (get (lit "/600x300/red/yellow/more") [])
              [(lit "Accept", lit "*/*")])
           (get (lit "/600x300/red/yellow") [])
           [lit "600x300"; lit "red"; lit "yellow"; lit "more"]
           [lit "600x300"; lit "red"; lit "yellow"]
           eq_refl eq_refl eq_refl eq_refl eq_refl eq_refl).
Defined.

(** X28 at the table [sampleColors] and the color [" RED "]. *)
Lemma colorToRgb_after_parseColor_witness :
  parseColor sampleColors (lit " RED ") = Ok (lit "#ff0000")
  /\ toLowerCase (trim (lit " RED ")) <> lit "t"
  /\ colorToRgb sampleColors readDecimal (lit "#ff0000")
     = colorToRgb sampleColors readDecimal (lit " RED ").
Proof.
  assert (parseColor sampleColors (lit " RED ") = Ok (lit "#ff0000")) as H by reflexivity.
  assert (toLowerCase (trim (lit " RED ")) <> lit "t") as Hn by discriminate.
  split; [exact H|]. split; [exact Hn|].
  exact (proj1 (colorToRgb_after_parseColor sampleColors readDecimal approxPow
                  sampleColors_names sampleColors_hex _ _ H Hn)).
Defined.

(** ** The tests of the repository *)

(** [test/util.test.ts]. *)
Example test_parseDims :
  parseDims (lit "600x300")
  = Ok {| Dimensions.width := Int 600; Dimensions.height := Int 300 |}
  /\ parseDims (lit "600X300") = Throw InvalidDimensions
  /\ message InvalidDimensions = lit "Invalid dimensions".
Proof. repeat split. Qed.

Example test_parseColor :
  parseColor sampleColors (lit "red") = Ok (lit "#ff0000")
  /\ parseColor sampleColors (lit "t") = Ok (lit "transparent")
  /\ parseColor sampleColors (lit "#0f0") = Ok (lit "#00ff00").
Proof. repeat split. Qed.

Example test_autoContrast :
  autoContrast sampleColors readDecimal approxPow (lit "#ff0000") = Ok (lit "#ffffff").
Proof. vm_compute. reflexivity. Qed.

(** [test/index.test.ts]. *)
Example test_dims_route :
  let response := fetch sampleColors readDecimal approxPow printNumber percentDecode
      (get (lit "/600x300") []) in
  Response.status response = 200
  /\ Response.body response
     = Some (markup "<svg xmlns='http://www.w3.org/2000/svg' width='600' height='300' viewBox='0 0 600 300' role='img' aria-label='600x300'><rect width='600' height='300' fill='#dddddd' /></svg>").
Proof. vm_compute. split; reflexivity. Qed.

Example test_bg_route :
  let response := fetch sampleColors readDecimal approxPow printNumber percentDecode
      (get (lit "/600x300/red") []) in
  Response.status response = 200
  /\ option_map (fun body => includes body (markup "fill='#ff0000'"))
       (Response.body response) = Some true.
Proof. vm_compute. split; reflexivity. Qed.

Example test_text_route :
  let response :=
    fetch sampleColors readDecimal approxPow printNumber percentDecode
      (get (lit "/600x300/red/yellow") [(lit "says", lit "Hello World")]) in
  Response.status response = 200
  /\ Response.body response
     = Some (markup "<svg xmlns='http://www.w3.org/2000/svg' width='600' height='300' viewBox='0 0 600 300' role='img' aria-label='Hello World'><rect width='600' height='300' fill='#ff0000' /><text x='300' fill='#ffff00' text-anchor='middle' font-family='system-ui, -apple-system, BlinkMacSystemFont, &quot;Segoe UI&quot;, sans-serif' font-size='50' dominant-baseline='middle'><tspan x='300' y='150'>Hello World</tspan></text></svg>").
Proof. vm_compute. split; reflexivity. Qed.

Example test_transparent_route :
  let response :=
    fetch sampleColors readDecimal approxPow printNumber percentDecode
      (get (lit "/600x300/t/red") [(lit "says", lit "Hello World")]) in
  Response.status response = 200
  /\ option_map (fun body => includes body (markup "fill='none'")
                             && includes body (markup "fill='#ff0000'")
                             && includes body (lit "Hello World"))
       (Response.body response) = Some true.
Proof. vm_compute. split; reflexivity. Qed.

(** The ETag of the first route: 32 hex digits between quotes. *)
Example test_etag :
  option_map (@length ascii) (etagOf (fetch sampleColors readDecimal approxPow printNumber percentDecode
      (get (lit "/600x300") []))) = Some 34%nat.
Proof. vm_compute. reflexivity. Qed.
